(** * The Claude Code Python SDK: process layer, conversations and client

  A shallow embedding of [claude_code/utils/subprocess.py]
  ([run_command], [stream_command], [stream_json_command]), of the error
  classes of [claude_code/exceptions/__init__.py], of [Conversation] of
  [claude_code/conversation.py], of [AuthProvider] of
  [claude_code/auth/provider.py], of [ToolConfig] of
  [claude_code/types.py] and of the client [ClaudeCode] of
  [claude_code/client.py].

  Conventions.
  - Python [str] is [string]; a character is a code point below 256.
  - Python [bytes] is [list Byte.byte].
  - Exit codes and timeouts are [Z]; [None] is [option]'s [None].
  - A Python dict used as an environment is a [gmap string string]; dict
    objects live in a heap so that copying and aliasing are visible.
  - The operating system (the child program, the timer thread) is an
    explicit part of the state; its moves are events of a schedule.
  - A pipe opened in text mode holds text: what the child wrote, after
    decoding and newline translation; lines end with the newline
    character.
  - Time is not measured: a timer that is pending may go off at any
    point of a schedule.
  - A method that raises returns [Raise e]; a method that changes its
    object returns the object as the call leaves it.
  - What the interpreter decides (the order in which a set is iterated,
    the files that exist, the value of [uuid.uuid4()]) is a parameter. *)

From Stdlib Require Import ZArith Ascii String List Lia Bool.
From stdpp Require Import base option gmap strings list pretty.

Local Open Scope string_scope.
Local Open Scope Z_scope.

(** ** Python truthiness of the optional arguments *)

(** [if input_data:] and friends: [None] and the empty string are falsy. *)
Definition truthy_str (s : option string) : bool :=
match s with
| None => false
| Some EmptyString => false
| Some (String _ _) => true
end.

(** [if timeout:] on an [Optional[int]]: [None] and [0] are falsy. *)
Definition truthy_int (n : option Z) : bool :=
match n with
| None => false
| Some z => negb (z =? 0)
end.

(** [if e.stdout] on an [Optional[bytes]]: [None] and [b''] are falsy. *)
Definition truthy_bytes (b : option (list Byte.byte)) : bool :=
match b with
| None => false
| Some [] => false
| Some (_ :: _) => true
end.

(** ** Exceptions: [claude_code/exceptions/__init__.py] *)

Module Exceptions.

(** The classes of the module, together with the builtin classes the
    subprocess layer meets.  [PyException] is Python's [Exception]. *)
Inductive exc_class : Type :=
| BaseException
| PyException
| GeneratorExit
| ValueError
| JSONDecodeError
| OSError
| SubprocessError
| TimeoutExpired
| ClaudeCodeError
| AuthenticationError
| ValidationError
| ExecutionError
| TimeoutError.

#[global] Instance exc_class_eq_dec : EqDecision exc_class.
Proof. solve_decision. Defined.

(** The single base class written in each [class] statement. *)
Definition base (c : exc_class) : option exc_class :=
  match c with
  | BaseException => None
  | PyException => Some BaseException
  | GeneratorExit => Some BaseException
  | ValueError => Some PyException
  | JSONDecodeError => Some ValueError
  | OSError => Some PyException
  | SubprocessError => Some PyException
  | TimeoutExpired => Some SubprocessError
  | ClaudeCodeError => Some PyException
  | AuthenticationError => Some ClaudeCodeError
  | ValidationError => Some ClaudeCodeError
  | ExecutionError => Some ClaudeCodeError
  | TimeoutError => Some ExecutionError
  end.

(** Walk up the chain of bases; the fuel bounds the height of the tree. *)
Fixpoint issubclass_fuel (fuel : nat) (c d : exc_class) : bool :=
  if decide (c = d) then true
  else match fuel, base c with
       | S fuel', Some b => issubclass_fuel fuel' b d
       | _, _ => false
       end.

Definition issubclass (c d : exc_class) : bool := issubclass_fuel 4 c d.

(** The declarative reading: reflexive-transitive closure of [base]. *)
Inductive subclass_of : exc_class -> exc_class -> Prop :=
| subclass_refl c : subclass_of c c
| subclass_step c b d : base c = Some b -> subclass_of b d -> subclass_of c d.

(** An exception object.  [ExecutionError.__init__] stores [exit_code],
    [stdout] and [stderr] (each defaulting to [None]); the other classes
    have no such attributes, which the model renders as [None]. *)
Record exc : Type := mk_exc {
  exc_cls : exc_class;
  exc_message : string;
  exit_code : option Z;
  stdout : option string;
  stderr : option string
}.

#[global] Instance exc_eq_dec : EqDecision exc.
Proof. solve_decision. Defined.

(** [ExecutionError.__init__(self, message, exit_code=None, stdout=None,
    stderr=None)].  [TimeoutError] has an empty body ([pass]) and so runs
    the same initialiser: [cls] is the class being instantiated. *)
Definition ExecutionError_init (cls : exc_class) (message : string)
    (exit_code : option Z) (stdout stderr : option string) : exc :=
  mk_exc cls message exit_code stdout stderr.

(** An exception of a class without attributes of its own. *)
Definition plain_exc (cls : exc_class) (message : string) : exc :=
  mk_exc cls message None None None.

Definition isinstance (e : exc) (c : exc_class) : bool :=
  issubclass (exc_cls e) c.

(** [except c:] catches [e] exactly when [e] is an instance of [c]. *)
Definition except_catches (c : exc_class) (e : exc) : bool := isinstance e c.

End Exceptions.
Export Exceptions.

(** ** The environment: [os.environ.copy()] and [dict.update] *)

Module Env.

(** Dict objects are addressed by location; [os_environ] is the location
    of the mapping of the calling process. *)
Definition loc : Type := positive.
Definition os_environ : loc := 1%positive.

(** [d.copy()]: a new dict object with the same items. *)
Definition dict_copy (h : gmap loc (gmap string string)) (l : loc)
    : gmap loc (gmap string string) * loc :=
  let l' := fresh (dom h) in
  (<[l' := default ∅ (h !! l)]> h, l').

(** [d.update(other)]: every item of [other] is stored into the dict at
    [l], replacing the value of a key that is already there. *)
Definition dict_update (h : gmap loc (gmap string string)) (l : loc)
    (other : gmap string string) : gmap loc (gmap string string) :=
  alter (fun d => other ∪ d) l h.

(** [if env:] on an [Optional[Dict]]: [None] and the empty dict are falsy. *)
Definition truthy_dict (env : option (gmap string string)) : bool :=
  match env with
  | None => false
  | Some e => negb (bool_decide (e = ∅))
  end.

(** The first three lines of [run_command] and of [stream_command]:
<<
    merged_env = os.environ.copy()
    if env:
        merged_env.update(env)
>> *)
Definition merge_env (h : gmap loc (gmap string string))
    (env : option (gmap string string))
    : gmap loc (gmap string string) * loc :=
  let '(h1, merged_env) := dict_copy h os_environ in
  if truthy_dict env
  then (dict_update h1 merged_env (default ∅ env), merged_env)
  else (h1, merged_env).

(** The value of the dict at a location ([KeyError] is not modelled: a
    missing object reads as the empty dict). *)
Definition deref (h : gmap loc (gmap string string)) (l : loc)
    : gmap string string :=
  default ∅ (h !! l).

(** The overlay as a map: a falsy [env] adds nothing. *)
Definition overlay (env : option (gmap string string)) : gmap string string :=
  default ∅ env.

End Env.
Export Env.


(** ** Text: [str.strip], [str.rstrip] and line reading *)

Module Text.

Definition newline : ascii := "010"%char.

(** Python's [str.isspace] on a character below 256. *)
Definition is_space (c : ascii) : bool :=
  let n := nat_of_ascii c in
  ((9 <=? n) && (n <=? 13) || (28 <=? n) && (n <=? 32)
   || (n =? 133) || (n =? 160))%nat.

Definition is_newline (c : ascii) : bool :=
  bool_decide (c = newline).

Definition is_empty (s : string) : bool :=
  match s with
  | EmptyString => true
  | String _ _ => false
  end.

(** [s.lstrip(chars)]: drop the leading characters that satisfy [p]. *)
Fixpoint lstrip (p : ascii -> bool) (s : string) : string :=
  match s with
  | EmptyString => EmptyString
  | String c s' => if p c then lstrip p s' else s
  end.

(** [s.rstrip(chars)]: drop the trailing characters that satisfy [p]. *)
Fixpoint rstrip (p : ascii -> bool) (s : string) : string :=
  match s with
  | EmptyString => EmptyString
  | String c s' =>
      let r := rstrip p s' in
      if is_empty r && p c then EmptyString else String c r
  end.

(** [s.strip()] with no argument strips whitespace on both sides. *)
Definition strip (s : string) : string :=
  rstrip is_space (lstrip is_space s).

(** [line.rstrip("\n")] *)
Definition rstrip_newline (s : string) : string := rstrip is_newline s.

(** [not line.strip()] *)
Definition is_blank (s : string) : bool := is_empty (strip s).

(** The first line of a buffer, terminator included, and what follows;
    [None] when the buffer holds no terminator. *)
Fixpoint split_line (buf : string) : option (string * string) :=
  match buf with
  | EmptyString => None
  | String c rest =>
      if is_newline c then Some (String c EmptyString, rest)
      else match split_line rest with
           | Some (l, r) => Some (String c l, r)
           | None => None
           end
  end.

(** One step of iterating a text stream: a line, end of file, or the
    reader has to wait for the writer. *)
Inductive read_result : Type :=
| Line (l rest : string)
| WouldBlock
| Eof.

Definition readline (buf : string) (eof : bool) : read_result :=
  match split_line buf with
  | Some (l, rest) => Line l rest
  | None =>
      if eof
      then (if is_empty buf then Eof else Line buf EmptyString)
      else WouldBlock
  end.

(** The lines of a complete text, each with its terminator when it has
    one: what iterating a text file to its end gives. *)
Fixpoint text_lines (s : string) : list string :=
  match s with
  | EmptyString => []
  | String c rest =>
      if is_newline c then String c EmptyString :: text_lines rest
      else match text_lines rest with
           | [] => [String c EmptyString]
           | l :: ls => String c l :: ls
           end
  end.

End Text.
Export Text.

(** ** The operating system as seen through the [subprocess] module *)

Module OS.

(** Where the standard input of a child comes from. *)
Inductive stdin_source : Type :=
| InheritCaller                       (* no [stdin] argument: shared with the caller *)
| FromPipe (data : list Byte.byte)    (* [subprocess.run(input=data)] *)
| FromFile (content : string).        (* [stdin=<file object>], read from offset 0 *)




(** The keyword arguments [run_command] passes to [subprocess.run];
    [stdout=PIPE], [stderr=PIPE] and [check=False] are constants of the
    call.  No [stdin] keyword is passed. *)
Record run_args : Type := mk_run_args {
  ra_cmd : list string;
  ra_env : gmap string string;
  ra_input : option (list Byte.byte);
  ra_timeout : option Z
}.


(** What [subprocess.run] does: a [CompletedProcess], or an exception of
    some class with its text and, for [TimeoutExpired], the output
    captured so far. *)
Inductive run_outcome : Type :=
| Completed (returncode : Z) (out err : list Byte.byte)
| RunRaises (cls : exc_class) (text : string)
            (out err : option (list Byte.byte)).

(** What the child program does, one action at a time. *)
Inductive child_action : Type :=
| CWrite (s : string)       (* write text to standard output *)
| CWriteErr (s : string)    (* write text to standard error *)
| CCloseOut                 (* close standard output *)
| CExit (code : Z).         (* terminate *)

(** [subprocess.Popen]: the child starts with a script to perform, or the
    call raises (an executable that is not found raises [OSError]). *)
Inductive spawn_result : Type :=
| Spawned (script : list child_action)
| SpawnRaises (cls : exc_class) (text : string).

(** JSON values. *)
#[warnings="-register-all"]
Inductive json : Type :=
| JNull
| JBool (b : bool)
| JNumber (n : Z)
| JString (s : string)
| JArray (items : list json)
| JObject (members : list (string * json)).

(** The parts of the Python runtime and of the machine the code calls
    into. *)
Class Platform : Type := {
  (* [b.decode("utf-8", errors="replace")] *)
  decode_utf8_replace : list Byte.byte -> string;
  (* [s.encode("utf-8")] *)
  encode_utf8 : string -> list Byte.byte;
  (* [subprocess.run(cmd, env=..., input=..., timeout=...)] *)
  subprocess_run : run_args -> run_outcome;
  (* [subprocess.Popen(cmd, env=..., stdin=...)] *)
  popen : list string -> gmap string string -> stdin_source -> spawn_result;
  (* [json.loads(line)]: the value, or the text of the [JSONDecodeError] *)
  json_loads : string -> json + string
}.

(** [str(x)] on an [Optional[int]], as an f-string formats it. *)
Definition str_opt_int (n : option Z) : string :=
  match n with
  | None => "None"
  | Some z => pretty z
  end.

End OS.
Export OS.

(** ** Blocking mode: [run_command] *)

Module Blocking.

(** The result of a call that may raise. *)
Inductive result (A : Type) : Type :=
| Return (v : A)
| Raise (e : exc).
Arguments Return {A} v.
Arguments Raise {A} e.

(** The keyword arguments [run_command] hands to [subprocess.run]. *)
Definition run_command_args `{Platform} (merged_env : gmap string string)
    (cmd : list string) (timeout : option Z) (input_data : option string)
    : run_args :=
  mk_run_args cmd merged_env
    (if truthy_str input_data
     then Some (encode_utf8 (default EmptyString input_data))
     else None)
    timeout.

(** [run_command(cmd, env, timeout, input_data)].  The local [stdin] is
    assigned and never read. *)
Definition run_command `{Platform} (h : gmap loc (gmap string string))
    (cmd : list string) (env : option (gmap string string))
    (timeout : option Z) (input_data : option string)
    : gmap loc (gmap string string) * result (Z * string * string) :=
  let h1 := (merge_env h env).1 in
  let merged_env := deref h1 (merge_env h env).2 in
  let stdin := if truthy_str input_data then Some tt else None in
  match subprocess_run (run_command_args merged_env cmd timeout input_data)
  with
  | Completed returncode out err =>
      (h1, Return (returncode, decode_utf8_replace out, decode_utf8_replace err))
  | RunRaises cls text out err =>
      if issubclass cls TimeoutExpired then
        let stdout := if truthy_bytes out
                      then decode_utf8_replace (default [] out) else "" in
        let stderr := if truthy_bytes err
                      then decode_utf8_replace (default [] err) else "" in
        (h1, Raise (ExecutionError_init TimeoutError
                      ("Command timed out after " +:+ str_opt_int timeout
                       +:+ " seconds")
                      None (Some stdout) (Some stderr)))
      else if issubclass cls SubprocessError then
        (h1, Raise (ExecutionError_init ExecutionError
                      ("Error running command: " +:+ text) None None None))
      else
        (h1, Raise (plain_exc cls text))
  end.

(** [if e.stdout: e.stdout.decode(...) else ""] *)
Definition decode_or_empty `{Platform} (b : option (list Byte.byte)) : string :=
  match b with
  | Some (x :: xs) => decode_utf8_replace (x :: xs)
  | _ => EmptyString
  end.

(** The arguments [run_command] calls [subprocess.run] with. *)
Definition run_command_call `{Platform} (h : gmap loc (gmap string string))
    (cmd : list string) (env : option (gmap string string))
    (timeout : option Z) (input_data : option string) : run_args :=
  run_command_args (deref (merge_env h env).1 (merge_env h env).2) cmd
    timeout input_data.

End Blocking.
Export Blocking.

(** ** Streaming mode: [stream_command] *)

Module Streaming.

(** A child process: what [subprocess.Popen] returns, together with the
    part of the machine behind it. *)
Record process : Type := mk_process {
  p_cmd : list string;
  p_env : gmap string string;
  p_stdin : stdin_source;
  p_script : list child_action;   (* what the program has still to do *)
  p_exit : option Z;              (* exit status, once terminated *)
  p_returncode : option Z;        (* [Popen.returncode]: the status, once collected *)
  p_out_open : bool;              (* the child still holds its standard output *)
  p_stdout : string;              (* written to the pipe and not yet read *)
  p_stderr : string;
  p_wrote_out : string;           (* everything written to standard output *)
  p_wrote_err : string            (* everything written to standard error *)
}.

Definition set_script (v : list child_action) (p : process) : process :=
  mk_process (p_cmd p) (p_env p) (p_stdin p) v (p_exit p) (p_returncode p)
    (p_out_open p) (p_stdout p) (p_stderr p) (p_wrote_out p) (p_wrote_err p).

Definition set_exit (v : option Z) (p : process) : process :=
  mk_process (p_cmd p) (p_env p) (p_stdin p) (p_script p) v (p_returncode p)
    (p_out_open p) (p_stdout p) (p_stderr p) (p_wrote_out p) (p_wrote_err p).

Definition set_returncode (v : option Z) (p : process) : process :=
  mk_process (p_cmd p) (p_env p) (p_stdin p) (p_script p) (p_exit p) v
    (p_out_open p) (p_stdout p) (p_stderr p) (p_wrote_out p) (p_wrote_err p).

Definition set_out_open (v : bool) (p : process) : process :=
  mk_process (p_cmd p) (p_env p) (p_stdin p) (p_script p) (p_exit p)
    (p_returncode p) v (p_stdout p) (p_stderr p) (p_wrote_out p)
    (p_wrote_err p).

Definition set_stdout (v : string) (p : process) : process :=
  mk_process (p_cmd p) (p_env p) (p_stdin p) (p_script p) (p_exit p)
    (p_returncode p) (p_out_open p) v (p_stderr p) (p_wrote_out p)
    (p_wrote_err p).

Definition set_stderr (v : string) (p : process) : process :=
  mk_process (p_cmd p) (p_env p) (p_stdin p) (p_script p) (p_exit p)
    (p_returncode p) (p_out_open p) (p_stdout p) v (p_wrote_out p)
    (p_wrote_err p).

(** The child writes [s] to its standard output. *)
Definition write_out (s : string) (p : process) : process :=
  mk_process (p_cmd p) (p_env p) (p_stdin p) (p_script p) (p_exit p)
    (p_returncode p) (p_out_open p) (p_stdout p +:+ s) (p_stderr p)
    (p_wrote_out p +:+ s) (p_wrote_err p).

(** The child writes [s] to its standard error. *)
Definition write_err (s : string) (p : process) : process :=
  mk_process (p_cmd p) (p_env p) (p_stdin p) (p_script p) (p_exit p)
    (p_returncode p) (p_out_open p) (p_stdout p) (p_stderr p +:+ s)
    (p_wrote_out p) (p_wrote_err p +:+ s).

(** The exit status of a process ended by [SIGKILL]. *)
Definition killed_status : Z := -9.

(** The child performs the next action of its script.  A terminated child
    does nothing; a child whose script is over stays alive and idle; a
    write to a closed standard output is lost. *)
Definition child_step (p : process) : process :=
  match p_exit p with
  | Some _ => p
  | None =>
      match p_script p with
      | [] => p
      | CWrite s :: rest =>
          if p_out_open p then write_out s (set_script rest p)
          else set_script rest p
      | CWriteErr s :: rest => write_err s (set_script rest p)
      | CCloseOut :: rest => set_out_open false (set_script rest p)
      | CExit code :: rest =>
          set_out_open false (set_exit (Some code) (set_script rest p))
      end
  end.

(** [process.poll()]: collect the exit status if there is one. *)
Definition poll (p : process) : process :=
  match p_exit p with
  | Some code => set_returncode (Some code) p
  | None => p
  end.

(** [process.kill()]: nothing for a process whose status is known,
    [SIGKILL] otherwise. *)
Definition kill (p : process) : process :=
  match p_exit p with
  | Some _ => poll p
  | None => set_out_open false (set_exit (Some killed_status) p)
  end.

(** The body of the timer: [if process.poll() is None: process.kill()]. *)
Definition kill_process (p : process) : process :=
  let p1 := poll p in
  match p_returncode p1 with
  | None => kill p1
  | Some _ => p1
  end.

(** The reader of [process.stdout] is at end of file once no writer
    holds the pipe. *)
Definition stdout_eof (p : process) : bool :=
  match p_exit p with
  | Some _ => true
  | None => negb (p_out_open p)
  end.

(** The temporary file made by [tempfile.NamedTemporaryFile]. *)
Record tmpfile : Type := mk_tmpfile {
  tf_content : string;
  tf_closed : bool
}.

Inductive timer_state : Type :=
| TimerPending
| TimerFired
| TimerCancelled.

(** How the generator ended. *)
Inductive gen_result : Type :=
| Returned                (* the body ran to its end: [StopIteration] *)
| Raised (e : exc)        (* an exception left the body *)
| Closed.                 (* [close()]: [GeneratorExit] left the body *)

(** Where the generator stands. *)
Inductive gen_pc : Type :=
| PCStart                   (* created, body not entered *)
| PCReading                 (* in [for line in process.stdout], waiting for a line *)
| PCWaiting                 (* in [process.wait()] *)
| PCYield (chunk : string)  (* suspended at [yield] *)
| PCDone (r : gen_result).

(** The locals of the generator and the world around it. *)
Record state : Type := mk_state {
  heap : gmap loc (gmap string string);
  pc : gen_pc;
  proc : option process;          (* the local [process], once bound *)
  stdin_file : option tmpfile;    (* the local [stdin_file] *)
  timer : option timer_state;     (* the local [timer], once bound *)
  yielded : list string           (* what the consumer has received *)
}.

Definition set_heap (v : gmap loc (gmap string string)) (st : state) : state :=
  mk_state v (pc st) (proc st) (stdin_file st) (timer st) (yielded st).

Definition set_pc (v : gen_pc) (st : state) : state :=
  mk_state (heap st) v (proc st) (stdin_file st) (timer st) (yielded st).

Definition set_proc (v : option process) (st : state) : state :=
  mk_state (heap st) (pc st) v (stdin_file st) (timer st) (yielded st).

Definition set_stdin_file (v : option tmpfile) (st : state) : state :=
  mk_state (heap st) (pc st) (proc st) v (timer st) (yielded st).

Definition set_timer (v : option timer_state) (st : state) : state :=
  mk_state (heap st) (pc st) (proc st) (stdin_file st) v (yielded st).

Definition set_yielded (v : list string) (st : state) : state :=
  mk_state (heap st) (pc st) (proc st) (stdin_file st) (timer st) v.

(** The arguments of one call. *)
Record call : Type := mk_call {
  c_cmd : list string;
  c_env : option (gmap string string);
  c_timeout : option Z;
  c_input : option string
}.

(** The generator object as [stream_command(...)] returns it: no line of
    the body has run. *)
Definition init (h : gmap loc (gmap string string)) : state :=
  mk_state h PCStart None None None [].

(** The first statement of the [except Exception as e] clause, on the
    process:
<<
    if "process" in locals() and process.poll() is None:
        process.kill()
        process.wait()
>> *)
Definition ensure_dead (p : process) : process :=
  let p1 := poll p in
  match p_returncode p1 with
  | None => poll (kill p1)
  | Some _ => p1
  end.

Definition except_handler_state (st : state) : state :=
  set_proc (ensure_dead <$> proc st) st.

(** The rest of the clause: [TimeoutError] and [ExecutionError] go on
    unchanged, anything else is wrapped. *)
Definition except_handler_exc (e : exc) : exc :=
  if isinstance e TimeoutError || isinstance e ExecutionError
  then e
  else ExecutionError_init ExecutionError
         ("Error running command: " +:+ exc_message e) None None None.

(** The [finally] clause. *)
Definition close_file (f : tmpfile) : tmpfile :=
  mk_tmpfile (tf_content f) true.

Definition finally_clause (st : state) : state :=
  set_stdin_file (close_file <$> stdin_file st) st.

(** An exception [e] is raised inside the [try] block: the [except]
    clause runs if [e] is an [Exception], the [finally] clause runs in
    any case, and the generator is over. *)
Definition raise_in_try (st : state) (e : exc) : state :=
  let caught := except_catches PyException e in
  let st1 := if caught then except_handler_state st else st in
  let e1 := if caught then except_handler_exc e else e in
  set_pc (PCDone (if isinstance e1 GeneratorExit then Closed else Raised e1))
    (finally_clause st1).

(** [timer.cancel()] *)
Definition cancel (t : timer_state) : timer_state :=
  match t with
  | TimerPending => TimerCancelled
  | TimerFired => TimerFired
  | TimerCancelled => TimerCancelled
  end.

(** [if timeout: timer.cancel()] *)
Definition if_timeout_cancel (c : call) (st : state) : state :=
  set_timer (if truthy_int (c_timeout c) then cancel <$> timer st
             else timer st) st.

(** The exception of a failed command. *)
Definition command_failed (exit_code : Z) (stderr : string) : exc :=
  ExecutionError_init ExecutionError
    ("Command failed with exit code " +:+ pretty exit_code)
    (Some exit_code) (Some EmptyString) (Some stderr).

(** From [exit_code = process.wait()] to the end of the [try] block. *)
Definition after_loop (c : call) (st : state) : state :=
  match proc st with
  | None => st
  | Some p =>
      match p_exit p with
      | None => set_pc PCWaiting st
      | Some exit_code =>
          let p1 := set_returncode (Some exit_code) p in
          let st1 := set_proc (Some p1) st in
          let st2 := if_timeout_cancel c st1 in
          if exit_code =? 0
          then set_pc (PCDone Returned) (finally_clause st2)
          else
            let stderr := p_stderr p1 in
            let st3 := set_proc (Some (set_stderr EmptyString p1)) st2 in
            raise_in_try st3 (command_failed exit_code stderr)
      end
  end.

(** The head of [for line in process.stdout: yield line.rstrip("\n")]. *)
Definition loop (c : call) (st : state) : state :=
  match proc st with
  | None => st
  | Some p =>
      match readline (p_stdout p) (stdout_eof p) with
      | Line l rest =>
          let chunk := rstrip_newline l in
          set_pc (PCYield chunk)
            (set_yielded (yielded st ++ [chunk])
               (set_proc (Some (set_stdout rest p)) st))
      | WouldBlock => set_pc PCReading st
      | Eof => after_loop c st
      end
  end.

(** The standard input handed to [Popen]:
    [stdin=stdin_file if stdin_file else None]. *)
Definition popen_stdin (f : option tmpfile) : stdin_source :=
  match f with
  | Some f => FromFile (tf_content f)
  | None => InheritCaller
  end.

(** The process object [Popen] returns for a child that runs [script]. *)
Definition new_process (cmd : list string) (env : gmap string string)
    (stdin : stdin_source) (script : list child_action) : process :=
  mk_process cmd env stdin script None None true EmptyString EmptyString
    EmptyString EmptyString.

(** The statements before the [try]: the merged environment and the
    temporary file. *)
Definition prologue (c : call) (st : state) : state :=
  let m := merge_env (heap st) (c_env c) in
  set_stdin_file
    (if truthy_str (c_input c)
     then Some (mk_tmpfile (default EmptyString (c_input c)) false)
     else None)
    (set_heap m.1 st).

(** The environment of the child. *)
Definition merged_env (h : gmap loc (gmap string string)) (c : call)
    : gmap string string :=
  deref (merge_env h (c_env c)).1 (merge_env h (c_env c)).2.

(** The body from its first line to the first read. *)
Definition start `{Platform} (c : call) (st : state) : state :=
  let env := merged_env (heap st) c in
  let st2 := prologue c st in
  let stdin := popen_stdin (stdin_file st2) in
  match popen (c_cmd c) env stdin with
  | SpawnRaises cls text => raise_in_try st2 (plain_exc cls text)
  | Spawned script =>
      let p := new_process (c_cmd c) env stdin script in
      let st3 := set_proc (Some p) st2 in
      let st4 := set_timer (if truthy_int (c_timeout c)
                            then Some TimerPending else timer st3) st3 in
      loop c st4
  end.

(** What can happen: the consumer asks for the next chunk or closes the
    generator; the child performs an action; the timer goes off. *)
Inductive event : Type :=
| Next
| Close
| Child
| Timer.

(** A generator that waits on the child goes on once the child moved. *)
Definition resume (c : call) (st : state) : state :=
  match pc st with
  | PCReading => loop c st
  | PCWaiting => after_loop c st
  | _ => st
  end.

Definition step `{Platform} (c : call) (ev : event) (st : state) : state :=
  match ev with
  | Next =>
      match pc st with
      | PCStart => start c st
      | PCYield _ => loop c st
      | _ => st
      end
  | Close =>
      match pc st with
      | PCStart => set_pc (PCDone Closed) st
      | PCYield _ => raise_in_try st (plain_exc GeneratorExit EmptyString)
      | _ => st
      end
  | Child => resume c (set_proc (child_step <$> proc st) st)
  | Timer =>
      match timer st with
      | Some TimerPending =>
          resume c (set_timer (Some TimerFired)
                      (set_proc (kill_process <$> proc st) st))
      | _ => st
      end
  end.

(** A schedule is run from left to right. *)
Definition run `{Platform} (c : call) (evs : list event) (st : state) : state :=
  fold_left (fun s ev => step c ev s) evs st.

(** [stream_command(cmd, env, timeout, input_data)] under a schedule. *)
Definition stream_command `{Platform} (h : gmap loc (gmap string string))
    (c : call) (evs : list event) : state :=
  run c evs (init h).

(** The process is gone: terminated, and its status collected. *)
Definition reaped (st : state) : bool :=
  match proc st with
  | Some p => bool_decide (is_Some (p_exit p) ∧ p_returncode p = p_exit p)
  | None => true
  end.

(** The process runs. *)
Definition alive (st : state) : bool :=
  match proc st with
  | Some p => bool_decide (p_exit p = None)
  | None => false
  end.

(** The temporary file, if one was made, is closed. *)
Definition store_released (st : state) : bool :=
  match stdin_file st with
  | Some f => tf_closed f
  | None => true
  end.

End Streaming.
Export Streaming.

(** ** JSON streaming mode: [stream_json_command] *)

Module Json.

(** How the decoding generator ended. *)
Inductive json_result : Type :=
| JReturned
| JRaised (e : exc)
| JClosed.

(** Where the decoding generator stands. *)
Inductive json_pc : Type :=
| JStart                  (* created, body not entered *)
| JBlocked                (* inside [next] of the line generator *)
| JYield (v : json)       (* suspended at [yield json.loads(line)] *)
| JDone (r : json_result).

(** The decoding generator owns the line generator it iterates. *)
Record jstate : Type := mk_jstate {
  inner : state;
  jpc : json_pc;
  jyielded : list json
}.

Definition jinit (h : gmap loc (gmap string string)) : jstate :=
  mk_jstate (init h) JStart [].

(** The text waiting in the pipe of the child. *)
Definition pending (st : state) : string :=
  match proc st with
  | Some p => p_stdout p
  | None => EmptyString
  end.

(** The exception of a line that is not JSON. *)
Definition json_error (diagnostic : string) : exc :=
  plain_exc ValueError
    ("Error parsing JSON from command output: " +:+ diagnostic).

(** The body of the [for] loop, entered each time the line generator
    stops: a blank line asks for the next one at once, any other line is
    decoded.  Every blank line taken shortens the pipe, which bounds the
    number of rounds. *)
Fixpoint settle `{Platform} (fuel : nat) (c : call) (js : jstate) : jstate :=
  match pc (inner js) with
  | PCYield line =>
      if is_blank line then
        match fuel with
        | O => js
        | S fuel' =>
            settle fuel' c
              (mk_jstate (step c Next (inner js)) (jpc js) (jyielded js))
        end
      else
        match json_loads line with
        | inl v => mk_jstate (inner js) (JYield v) (jyielded js ++ [v])
        | inr diagnostic =>
            mk_jstate (inner js) (JDone (JRaised (json_error diagnostic)))
              (jyielded js)
        end
  | PCReading => mk_jstate (inner js) JBlocked (jyielded js)
  | PCWaiting => mk_jstate (inner js) JBlocked (jyielded js)
  | PCDone Returned => mk_jstate (inner js) (JDone JReturned) (jyielded js)
  | PCDone (Raised e) => mk_jstate (inner js) (JDone (JRaised e)) (jyielded js)
  | PCDone Closed => mk_jstate (inner js) (JDone JClosed) (jyielded js)
  | PCStart => js
  end.

(** Ask the line generator for its next line and deal with the answer. *)
Definition pull `{Platform} (c : call) (js : jstate) : jstate :=
  let i := step c Next (inner js) in
  settle (S (String.length (pending i))) c
    (mk_jstate i (jpc js) (jyielded js)).

(** One event.  The child and the timer act on the line generator below;
    closing the decoding generator at its [yield] ends it and leaves the
    line generator where it stands. *)
Definition jstep `{Platform} (c : call) (ev : event) (js : jstate) : jstate :=
  match ev with
  | Next =>
      match jpc js with
      | JStart => pull c js
      | JYield _ => pull c js
      | _ => js
      end
  | Close =>
      match jpc js with
      | JStart => mk_jstate (inner js) (JDone JClosed) (jyielded js)
      | JYield _ => mk_jstate (inner js) (JDone JClosed) (jyielded js)
      | _ => js
      end
  | _ =>
      let i := step c ev (inner js) in
      match jpc js with
      | JBlocked =>
          settle (S (String.length (pending i))) c
            (mk_jstate i JBlocked (jyielded js))
      | _ => mk_jstate i (jpc js) (jyielded js)
      end
  end.

Definition jrun `{Platform} (c : call) (evs : list event) (js : jstate)
    : jstate :=
  fold_left (fun s ev => jstep c ev s) evs js.

(** [stream_json_command(cmd, env, timeout, input_data)] under a schedule. *)
Definition stream_json_command `{Platform}
    (h : gmap loc (gmap string string)) (c : call) (evs : list event)
    : jstate :=
  jrun c evs (jinit h).

(** What decoding a sequence of lines gives: the values of the non-blank
    lines before the first one that does not decode, that line's
    diagnostic if there is one, and the lines after it. *)
Fixpoint decode_lines `{Platform} (ls : list string)
    : list json * option (string * list string) :=
  match ls with
  | [] => ([], None)
  | l :: ls' =>
      if is_blank l then decode_lines ls'
      else match json_loads l with
           | inl v => let '(vs, r) := decode_lines ls' in (v :: vs, r)
           | inr diagnostic => ([], Some (diagnostic, ls'))
           end
  end.

End Json.
Export Json.

(** ** Tool lists: [ToolConfig] of [claude_code/types.py] *)

Module Tools.

Definition comma : ascii := ","%char.

(** [s.split(sep)] for a separator of one character: the pieces between
    the separators, of which there is always at least one. *)
Fixpoint str_split (sep : ascii) (s : string) : list string :=
  match s with
  | EmptyString => [EmptyString]
  | String c s' =>
      if bool_decide (c = sep) then EmptyString :: str_split sep s'
      else match str_split sep s' with
           | w :: ws => String c w :: ws
           | [] => [String c EmptyString]
           end
  end.

(** [if t] on a [str] *)
Definition truthy (t : string) : bool := negb (is_empty t).

(** [",".join([t for t in tools if t])] *)
Definition format_allowed_tools (tools : list string) : string :=
  String.concat "," (List.filter truthy tools).

(** [[t.strip() for t in tool_str.split(",") if t.strip()]] *)
Definition parse_tool_string (tool_str : string) : list string :=
  map strip (List.filter (fun t => truthy (strip t)) (str_split comma tool_str)).

End Tools.

(** ** Authentication: [claude_code/auth/types.py] and
    [claude_code/auth/provider.py] *)

Module Auth.

Inductive AuthType : Type :=
| ANTHROPIC_API
| AWS_BEDROCK
| GOOGLE_VERTEX.

#[global] Instance AuthType_eq_dec : EqDecision AuthType.
Proof. solve_decision. Defined.

(** The attributes of an [AuthProvider]. *)
Record AuthProvider : Type := mk_AuthProvider {
  auth_type : AuthType;
  api_key : option string;
  region : option string;
  project_id : option string;
  model : option string
}.

Definition set_api_key (v : option string) (self : AuthProvider)
    : AuthProvider :=
  mk_AuthProvider (auth_type self) v (region self) (project_id self)
    (model self).

Definition set_region (v : option string) (self : AuthProvider)
    : AuthProvider :=
  mk_AuthProvider (auth_type self) (api_key self) v (project_id self)
    (model self).

Definition set_project_id (v : option string) (self : AuthProvider)
    : AuthProvider :=
  mk_AuthProvider (auth_type self) (api_key self) (region self) v
    (model self).

Definition set_model (v : option string) (self : AuthProvider)
    : AuthProvider :=
  mk_AuthProvider (auth_type self) (api_key self) (region self)
    (project_id self) v.

(** [AuthProvider._validate(self)] *)
Definition _validate (self : AuthProvider) : result unit :=
  if bool_decide (auth_type self = ANTHROPIC_API) then
    if negb (truthy_str (api_key self)) then
      Raise (plain_exc AuthenticationError
               "API key is required for Anthropic API authentication")
    else Return tt
  else if bool_decide (auth_type self = AWS_BEDROCK) then
    if negb (truthy_str (region self)) then
      Raise (plain_exc AuthenticationError
               "Region is required for AWS Bedrock authentication")
    else Return tt
  else if bool_decide (auth_type self = GOOGLE_VERTEX) then
    if negb (truthy_str (region self)) then
      Raise (plain_exc AuthenticationError
               "Region is required for Google Vertex AI authentication")
    else if negb (truthy_str (project_id self)) then
      Raise (plain_exc AuthenticationError
               "Project ID is required for Google Vertex AI authentication")
    else Return tt
  else Return tt.

(** [AuthProvider(auth_type, api_key, region, project_id, model)] *)
Definition __init__ (auth_type : AuthType)
    (api_key region project_id model : option string)
    : result AuthProvider :=
  let self := mk_AuthProvider auth_type api_key region project_id model in
  match _validate self with
  | Raise e => Raise e
  | Return _ => Return self
  end.

(** [AuthProvider.get_environment(self)] *)
Definition get_environment (self : AuthProvider) : gmap string string :=
  let env : gmap string string := ∅ in
  let env :=
    if bool_decide (auth_type self = ANTHROPIC_API) then
      <["ANTHROPIC_API_KEY" :=
          if truthy_str (api_key self)
          then default EmptyString (api_key self) else EmptyString]> env
    else if bool_decide (auth_type self = AWS_BEDROCK) then
      let env := <["CLAUDE_CODE_USE_BEDROCK" := "1"]> env in
      if truthy_str (region self)
      then <["AWS_REGION" := default EmptyString (region self)]> env
      else env
    else if bool_decide (auth_type self = GOOGLE_VERTEX) then
      let env := <["CLAUDE_CODE_USE_VERTEX" := "1"]> env in
      let env :=
        if truthy_str (region self)
        then <["CLOUD_ML_REGION" := default EmptyString (region self)]> env
        else env in
      if truthy_str (project_id self)
      then <["ANTHROPIC_VERTEX_PROJECT_ID" :=
               default EmptyString (project_id self)]> env
      else env
    else env in
  if truthy_str (model self)
  then <["ANTHROPIC_MODEL" := default EmptyString (model self)]> env
  else env.

Definition default_model : string := "claude-3-7-sonnet-20250219".

(** [AuthProvider.update_from_environment(self)]; [environ] is the
    mapping [os.environ], and [environ !! k] is [os.environ.get(k)]. *)
Definition update_from_environment (environ : gmap string string)
    (self : AuthProvider) : AuthProvider :=
  let self :=
    if bool_decide (auth_type self = ANTHROPIC_API)
       && negb (truthy_str (api_key self)) then
      set_api_key (environ !! "ANTHROPIC_API_KEY") self
    else if bool_decide (auth_type self = AWS_BEDROCK)
            && negb (truthy_str (region self)) then
      set_region (environ !! "AWS_REGION") self
    else if bool_decide (auth_type self = GOOGLE_VERTEX) then
      let self :=
        if negb (truthy_str (region self))
        then set_region (environ !! "CLOUD_ML_REGION") self else self in
      if negb (truthy_str (project_id self))
      then set_project_id (environ !! "ANTHROPIC_VERTEX_PROJECT_ID") self
      else self
    else self in
  if negb (truthy_str (model self))
  then set_model (Some (default default_model (environ !! "ANTHROPIC_MODEL")))
         self
  else self.

End Auth.

(** ** The interpreter and the file system *)

Module Py.

(** What the code asks of the interpreter besides the process layer. *)
Class Interpreter : Type := {
  (* the order in which a [set] of strings is iterated; it depends on the
     hash seed of the run *)
  set_iter : gset string -> list string;
  (* [os.path.exists(path)] *)
  path_exists : string -> bool;
  (* [open(path, "r")] followed by reading the file to its end: the
     text, or the exception raised on the way *)
  read_text : string -> string + exc
}.

(** [x or y] *)
Definition or_else {A : Type} (truthy : option A -> bool) (x y : option A)
    : option A :=
  if truthy x then x else y.

End Py.
Export Py.

(** ** The caller of the blocking mode: [Conversation.send] *)

Module Conv.

Inductive OutputFormat : Type :=
| TEXT
| JSON
| STREAM_JSON.

Definition OutputFormat_value (f : OutputFormat) : string :=
  match f with
  | TEXT => "text"
  | JSON => "json"
  | STREAM_JSON => "stream-json"
  end.

(** The attributes of a [Conversation]; [auth_environment] is what
    [self.auth_provider.get_environment()] returns. *)
Record Conversation : Type := mk_Conversation {
  auth_environment : gmap string string;
  conversation_id : string;
  allowed_tools : option (list string);
  disallowed_tools : option (list string);
  max_turns : option Z;
  mcp_config : option string;
  model : option string;
  timeout : option Z;
  output_format : OutputFormat;
  turn_count : Z
}.

(** [if tools:] on an [Optional[List[str]]] *)
Definition truthy_list (l : option (list string)) : bool :=
  match l with
  | Some (_ :: _) => true
  | _ => false
  end.

Definition _build_command (self : Conversation) (prompt : string)
    : list string :=
  let cmd := ["claude"] in
  let cmd := (cmd ++ ["-p"])%list in
  let cmd :=
    match output_format self with
    | TEXT => cmd
    | f => (cmd ++ ["--output-format"; OutputFormat_value f])%list
    end in
  let cmd := if 0 <? turn_count self then (cmd ++ ["-c"])%list else cmd in
  let cmd :=
    if truthy_list (allowed_tools self)
    then (cmd ++ ["--allowedTools";
                 String.concat "," (default [] (allowed_tools self))])%list
    else cmd in
  let cmd :=
    if truthy_list (disallowed_tools self)
    then (cmd ++ ["--disallowedTools";
                 String.concat "," (default [] (disallowed_tools self))])%list
    else cmd in
  let cmd :=
    if truthy_int (max_turns self)
    then (cmd ++ ["--max-turns"; str_opt_int (max_turns self)])%list
    else cmd in
  let cmd :=
    if truthy_str (mcp_config self)
    then (cmd ++ ["--mcp-config"; default EmptyString (mcp_config self)])%list
    else cmd in
  cmd.

Definition _get_env (self : Conversation) : gmap string string :=
  let env := auth_environment self in
  let env :=
    if truthy_str (model self)
    then <["ANTHROPIC_MODEL" := default EmptyString (model self)]> env
    else env in
  <["CLAUDE_CONVERSATION_ID" := conversation_id self]> env.

Definition bump_turn_count (self : Conversation) : Conversation :=
  mk_Conversation (auth_environment self) (conversation_id self)
    (allowed_tools self) (disallowed_tools self) (max_turns self)
    (mcp_config self) (model self) (timeout self) (output_format self)
    (turn_count self + 1).

(** [Conversation.send(prompt)] *)
Definition send `{Platform} (h : gmap loc (gmap string string))
    (self : Conversation) (prompt : string)
    : gmap loc (gmap string string) * Conversation * result string :=
  if is_empty prompt || is_blank prompt then
    (h, self, Raise (plain_exc ValidationError "Prompt cannot be empty"))
  else if truthy_int (max_turns self)
          && (default 0 (max_turns self) <=? turn_count self) then
    (h, self,
     Raise (plain_exc ValidationError
              ("Conversation has reached the maximum number of turns: "
               +:+ str_opt_int (max_turns self))))
  else
    let cmd := _build_command self prompt in
    let env := _get_env self in
    let r := run_command h cmd (Some env) (timeout self) (Some prompt) in
    let h1 := r.1 in
    match r.2 with
    | Raise e => (h1, self, Raise e)
    | Return (exit_code, stdout, stderr) =>
        if negb (exit_code =? 0) then
          (h1, self,
           Raise (ExecutionError_init ExecutionError
                    ("Claude Code failed with exit code " +:+ pretty exit_code)
                    (Some exit_code) (Some stdout) (Some stderr)))
        else
          (h1, bump_turn_count self, Return stdout)
    end.

(** *** The constructor and the streaming methods *)

(** The block that [Conversation.__init__], [ClaudeCode.__init__] and
    [ClaudeCode.configure] end with:
<<
    if self.allowed_tools and self.disallowed_tools:
        overlap = set(self.allowed_tools) & set(self.disallowed_tools)
        if overlap:
            raise ValidationError(...)
>> *)
Definition overlap (allowed disallowed : option (list string)) : gset string :=
  list_to_set (default [] allowed) ∩ list_to_set (default [] disallowed).

Definition check_tools `{Interpreter}
    (allowed disallowed : option (list string)) : result unit :=
  if truthy_list allowed && truthy_list disallowed then
    if negb (bool_decide (overlap allowed disallowed = ∅)) then
      Raise (plain_exc ValidationError
               ("Tools cannot be both allowed and disallowed: "
                +:+ String.concat ", "
                      (set_iter (overlap allowed disallowed))))
    else Return tt
  else Return tt.

(** [Conversation(auth_provider, conversation_id, ...)]; [uuid] is the
    value [str(uuid.uuid4())] takes in this call.  The object keeps the
    provider and asks it for its environment on every use;
    [auth_environment] is that environment for the provider as given. *)
Definition __init__ `{Interpreter} (auth_provider : Auth.AuthProvider)
    (conversation_id : option string)
    (allowed_tools disallowed_tools : option (list string))
    (max_turns : option Z) (mcp_config model : option string)
    (timeout : option Z) (output_format : OutputFormat) (uuid : string)
    : result Conversation :=
  let self :=
    mk_Conversation (Auth.get_environment auth_provider)
      (if truthy_str conversation_id
       then default EmptyString conversation_id else uuid)
      allowed_tools disallowed_tools max_turns mcp_config model timeout
      output_format 0 in
  match check_tools allowed_tools disallowed_tools with
  | Raise e => Raise e
  | Return _ => Return self
  end.

(** The two checks [send], [stream] and [stream_json] make before they
    build the command. *)
Definition validate_prompt (self : Conversation) (prompt : string)
    : option exc :=
  if is_empty prompt || is_blank prompt then
    Some (plain_exc ValidationError "Prompt cannot be empty")
  else if truthy_int (max_turns self)
          && (default 0 (max_turns self) <=? turn_count self) then
    Some (plain_exc ValidationError
            ("Conversation has reached the maximum number of turns: "
             +:+ str_opt_int (max_turns self)))
  else None.

(** The call [stream] and [stream_json] make of the process layer. *)
Definition stream_call (self : Conversation) (prompt : string) : call :=
  mk_call (_build_command self prompt) (Some (_get_env self))
    (Conv.timeout self) (Some prompt).

(** Where the generator of [Conversation.stream] stands. *)
Inductive conv_pc : Type :=
| CStart                    (* created, body not entered *)
| CBlocked                  (* inside [next] of the line generator *)
| CYield (chunk : string)   (* suspended at [yield chunk] *)
| CDone (r : gen_result).

(** The generator of [Conversation.stream]: the conversation object, the
    locals [cmd] and [env] once they are bound, the line generator it
    iterates, and what its consumer has received. *)
Record cstate : Type := mk_cstate {
  cself : Conversation;
  ccall : option call;
  cinner : state;
  cpc : conv_pc;
  cyielded : list string
}.

(** [self.stream(prompt)]: no line of the body has run. *)
Definition cinit (h : gmap loc (gmap string string)) (self : Conversation)
    : cstate :=
  mk_cstate self None (init h) CStart [].

(** The body of [for chunk in stream_command(...): yield chunk], entered
    each time the line generator stops, and [self.turn_count += 1] once
    it is exhausted.  An exception of the line generator goes through
    the loop unchanged. *)
Definition relay (cs : cstate) : cstate :=
  match pc (cinner cs) with
  | PCYield chunk =>
      mk_cstate (cself cs) (ccall cs) (cinner cs) (CYield chunk)
        (cyielded cs ++ [chunk])
  | PCReading =>
      mk_cstate (cself cs) (ccall cs) (cinner cs) CBlocked (cyielded cs)
  | PCWaiting =>
      mk_cstate (cself cs) (ccall cs) (cinner cs) CBlocked (cyielded cs)
  | PCDone Returned =>
      mk_cstate (bump_turn_count (cself cs)) (ccall cs) (cinner cs)
        (CDone Returned) (cyielded cs)
  | PCDone (Raised e) =>
      mk_cstate (cself cs) (ccall cs) (cinner cs) (CDone (Raised e))
        (cyielded cs)
  | PCDone Closed =>
      mk_cstate (cself cs) (ccall cs) (cinner cs) (CDone Closed)
        (cyielded cs)
  | PCStart => cs
  end.

(** One event of [Conversation.stream(prompt)].  The first request runs
    the checks and starts the line generator; the child and the timer act
    on the line generator; closing the generator at its [yield] ends it
    and leaves the line generator where it stands. *)
Definition stream_step `{Platform} (prompt : string) (ev : event)
    (cs : cstate) : cstate :=
  match ev with
  | Next =>
      match cpc cs with
      | CStart =>
          match validate_prompt (cself cs) prompt with
          | Some e =>
              mk_cstate (cself cs) (ccall cs) (cinner cs) (CDone (Raised e))
                (cyielded cs)
          | None =>
              let c := stream_call (cself cs) prompt in
              relay (mk_cstate (cself cs) (Some c)
                       (step c Next (cinner cs)) (cpc cs) (cyielded cs))
          end
      | CYield _ =>
          match ccall cs with
          | Some c =>
              relay (mk_cstate (cself cs) (ccall cs)
                       (step c Next (cinner cs)) (cpc cs) (cyielded cs))
          | None => cs
          end
      | _ => cs
      end
  | Close =>
      match cpc cs with
      | CStart =>
          mk_cstate (cself cs) (ccall cs) (cinner cs) (CDone Closed)
            (cyielded cs)
      | CYield _ =>
          mk_cstate (cself cs) (ccall cs) (cinner cs) (CDone Closed)
            (cyielded cs)
      | _ => cs
      end
  | _ =>
      match ccall cs with
      | Some c =>
          let cs' := mk_cstate (cself cs) (ccall cs) (step c ev (cinner cs))
                       (cpc cs) (cyielded cs) in
          match cpc cs with
          | CBlocked => relay cs'
          | _ => cs'
          end
      | None => cs
      end
  end.

(** [Conversation.stream(prompt)] under a schedule. *)
Definition stream `{Platform} (h : gmap loc (gmap string string))
    (self : Conversation) (prompt : string) (evs : list event) : cstate :=
  fold_left (fun cs ev => stream_step prompt ev cs) evs (cinit h self).

(** Where the generator of [Conversation.stream_json] stands. *)
Inductive jconv_pc : Type :=
| JCStart
| JCBlocked
| JCYield (v : json)
| JCDone (r : json_result).

Record jcstate : Type := mk_jcstate {
  jcself : Conversation;
  jccall : option call;
  jcinner : jstate;
  jcpc : jconv_pc;
  jcyielded : list json
}.

Definition jcinit (h : gmap loc (gmap string string)) (self : Conversation)
    : jcstate :=
  mk_jcstate self None (jinit h) JCStart [].

(** The body of [for chunk in stream_json_command(...): yield chunk] and
    [self.turn_count += 1]. *)
Definition relay_json (cs : jcstate) : jcstate :=
  match jpc (jcinner cs) with
  | JYield v =>
      mk_jcstate (jcself cs) (jccall cs) (jcinner cs) (JCYield v)
        (jcyielded cs ++ [v])
  | JBlocked =>
      mk_jcstate (jcself cs) (jccall cs) (jcinner cs) JCBlocked (jcyielded cs)
  | JDone JReturned =>
      mk_jcstate (bump_turn_count (jcself cs)) (jccall cs) (jcinner cs)
        (JCDone JReturned) (jcyielded cs)
  | JDone (JRaised e) =>
      mk_jcstate (jcself cs) (jccall cs) (jcinner cs) (JCDone (JRaised e))
        (jcyielded cs)
  | JDone JClosed =>
      mk_jcstate (jcself cs) (jccall cs) (jcinner cs) (JCDone JClosed)
        (jcyielded cs)
  | JStart => cs
  end.

(** One event of [Conversation.stream_json(prompt)]. *)
Definition stream_json_step `{Platform} (prompt : string) (ev : event)
    (cs : jcstate) : jcstate :=
  match ev with
  | Next =>
      match jcpc cs with
      | JCStart =>
          match output_format (jcself cs) with
          | STREAM_JSON =>
              match validate_prompt (jcself cs) prompt with
              | Some e =>
                  mk_jcstate (jcself cs) (jccall cs) (jcinner cs)
                    (JCDone (JRaised e)) (jcyielded cs)
              | None =>
                  let c := stream_call (jcself cs) prompt in
                  relay_json (mk_jcstate (jcself cs) (Some c)
                                (jstep c Next (jcinner cs)) (jcpc cs)
                                (jcyielded cs))
              end
          | _ =>
              mk_jcstate (jcself cs) (jccall cs) (jcinner cs)
                (JCDone (JRaised (plain_exc ValidationError
                   "Output format must be STREAM_JSON for stream_json")))
                (jcyielded cs)
          end
      | JCYield _ =>
          match jccall cs with
          | Some c =>
              relay_json (mk_jcstate (jcself cs) (jccall cs)
                            (jstep c Next (jcinner cs)) (jcpc cs)
                            (jcyielded cs))
          | None => cs
          end
      | _ => cs
      end
  | Close =>
      match jcpc cs with
      | JCStart =>
          mk_jcstate (jcself cs) (jccall cs) (jcinner cs) (JCDone JClosed)
            (jcyielded cs)
      | JCYield _ =>
          mk_jcstate (jcself cs) (jccall cs) (jcinner cs) (JCDone JClosed)
            (jcyielded cs)
      | _ => cs
      end
  | _ =>
      match jccall cs with
      | Some c =>
          let cs' := mk_jcstate (jcself cs) (jccall cs)
                       (jstep c ev (jcinner cs)) (jcpc cs) (jcyielded cs) in
          match jcpc cs with
          | JCBlocked => relay_json cs'
          | _ => cs'
          end
      | None => cs
      end
  end.

(** [Conversation.stream_json(prompt)] under a schedule. *)
Definition stream_json `{Platform} (h : gmap loc (gmap string string))
    (self : Conversation) (prompt : string) (evs : list event) : jcstate :=
  fold_left (fun cs ev => stream_json_step prompt ev cs) evs (jcinit h self).


End Conv.
Export Conv.

(** ** The client: [claude_code/client.py] *)

Module Client.

(** The attributes of a [ClaudeCode] client. *)
Record ClaudeCode : Type := mk_ClaudeCode {
  auth_provider : Auth.AuthProvider;
  allowed_tools : option (list string);
  disallowed_tools : option (list string);
  max_turns : option Z;
  mcp_config : option string;
  timeout : option Z
}.

Definition set_auth_provider (v : Auth.AuthProvider) (self : ClaudeCode)
    : ClaudeCode :=
  mk_ClaudeCode v (allowed_tools self) (disallowed_tools self)
    (max_turns self) (mcp_config self) (timeout self).

Definition set_allowed_tools (v : option (list string)) (self : ClaudeCode)
    : ClaudeCode :=
  mk_ClaudeCode (auth_provider self) v (disallowed_tools self)
    (max_turns self) (mcp_config self) (timeout self).

Definition set_disallowed_tools (v : option (list string))
    (self : ClaudeCode) : ClaudeCode :=
  mk_ClaudeCode (auth_provider self) (allowed_tools self) v
    (max_turns self) (mcp_config self) (timeout self).

Definition set_max_turns (v : option Z) (self : ClaudeCode) : ClaudeCode :=
  mk_ClaudeCode (auth_provider self) (allowed_tools self)
    (disallowed_tools self) v (mcp_config self) (timeout self).

Definition set_mcp_config (v : option string) (self : ClaudeCode)
    : ClaudeCode :=
  mk_ClaudeCode (auth_provider self) (allowed_tools self)
    (disallowed_tools self) (max_turns self) v (timeout self).

Definition set_timeout (v : option Z) (self : ClaudeCode) : ClaudeCode :=
  mk_ClaudeCode (auth_provider self) (allowed_tools self)
    (disallowed_tools self) (max_turns self) (mcp_config self) v.

(** [ClaudeCode(auth_type, api_key, ...)]; [h] holds [os.environ]. *)
Definition __init__ `{Interpreter} (h : gmap loc (gmap string string))
    (auth_type : Auth.AuthType)
    (api_key region project_id model : option string)
    (allowed_tools disallowed_tools : option (list string))
    (max_turns : option Z) (mcp_config : option string) (timeout : option Z)
    : result ClaudeCode :=
  match Auth.__init__ auth_type api_key region project_id model with
  | Raise e => Raise e
  | Return provider =>
      let provider :=
        Auth.update_from_environment (deref h os_environ) provider in
      let self :=
        mk_ClaudeCode provider allowed_tools disallowed_tools max_turns
          mcp_config timeout in
      match check_tools allowed_tools disallowed_tools with
      | Raise e => Raise e
      | Return _ => Return self
      end
  end.

(** [if v is not None: self.field = v] *)
Definition unless_None {A : Type} (v : option A)
    (set : option A -> ClaudeCode -> ClaudeCode) (self : ClaudeCode)
    : ClaudeCode :=
  match v with
  | Some _ => set v self
  | None => self
  end.

(** [ClaudeCode.configure(...)]: the client as the call leaves it, and
    whether the call raised. *)
Definition configure `{Interpreter} (self : ClaudeCode)
    (allowed_tools disallowed_tools : option (list string))
    (max_turns : option Z) (mcp_config : option string) (timeout : option Z)
    (model : option string) : ClaudeCode * result unit :=
  let self := unless_None allowed_tools set_allowed_tools self in
  let self := unless_None disallowed_tools set_disallowed_tools self in
  let self := unless_None max_turns set_max_turns self in
  let self := unless_None mcp_config set_mcp_config self in
  let self := unless_None timeout set_timeout self in
  let self :=
    match model with
    | Some _ =>
        set_auth_provider (Auth.set_model model (auth_provider self)) self
    | None => self
    end in
  (self,
   check_tools (Client.allowed_tools self) (Client.disallowed_tools self)).

(** Does the decoded file hold an object with the key [mcpServers]? *)
Definition has_mcp_servers (config : json) : bool :=
  match config with
  | JObject members =>
      existsb (fun kv => String.eqb (fst kv) "mcpServers") members
  | _ => false
  end.

(** [ClaudeCode.load_mcp_config(config_path)] *)
Definition load_mcp_config `{Platform} `{Interpreter} (self : ClaudeCode)
    (config_path : string) : ClaudeCode * result unit :=
  if negb (path_exists config_path) then
    (self,
     Raise (plain_exc ValidationError
              ("MCP configuration file not found: " +:+ config_path)))
  else
    match read_text config_path with
    | inr e =>
        if except_catches JSONDecodeError e then
          (self,
           Raise (plain_exc ValidationError
                    ("Invalid JSON in MCP configuration file: "
                     +:+ config_path)))
        else (self, Raise e)
    | inl text =>
        match json_loads text with
        | inr _ =>
            (self,
             Raise (plain_exc ValidationError
                      ("Invalid JSON in MCP configuration file: "
                       +:+ config_path)))
        | inl config =>
            if negb (has_mcp_servers config) then
              (self,
               Raise (plain_exc ValidationError
                        ("Invalid MCP configuration file: "
                         +:+ config_path)))
            else (set_mcp_config (Some config_path) self, Return tt)
        end
    end.

(** [ClaudeCode.start_conversation(...)] *)
Definition start_conversation `{Interpreter} (self : ClaudeCode)
    (conversation_id : option string)
    (allowed_tools disallowed_tools : option (list string))
    (max_turns : option Z) (mcp_config model : option string)
    (timeout : option Z) (output_format : OutputFormat) (uuid : string)
    : result Conversation :=
  Conv.__init__ (auth_provider self) conversation_id
    (or_else truthy_list allowed_tools (Client.allowed_tools self))
    (or_else truthy_list disallowed_tools (Client.disallowed_tools self))
    (or_else truthy_int max_turns (Client.max_turns self))
    (or_else truthy_str mcp_config (Client.mcp_config self))
    (or_else truthy_str model (Auth.model (auth_provider self)))
    (or_else truthy_int timeout (Client.timeout self))
    output_format uuid.

(** [ClaudeCode.run_prompt(prompt, output_format)]: the text of the
    answer, or the decoded value when the format is [JSON]. *)
Definition run_prompt `{Platform} `{Interpreter}
    (h : gmap loc (gmap string string)) (self : ClaudeCode)
    (prompt : string) (output_format : OutputFormat) (uuid : string)
    : gmap loc (gmap string string) * result (string + json) :=
  match start_conversation self None None None None None None None
          output_format uuid with
  | Raise e => (h, Raise e)
  | Return conversation =>
      let r := send h conversation prompt in
      match r.2 with
      | Raise e => (r.1.1, Raise e)
      | Return response =>
          match output_format with
          | JSON =>
              match json_loads response with
              | inl v => (r.1.1, Return (inr v))
              | inr diagnostic =>
                  (r.1.1,
                   Raise (plain_exc ValidationError
                            ("Error parsing JSON response: "
                             +:+ diagnostic)))
              end
          | _ => (r.1.1, Return (inl response))
          end
      end
  end.

(** [ClaudeCode.stream_prompt(prompt, output_format)]: the generator of
    [stream] or of [stream_json], not yet started. *)
Definition stream_prompt `{Interpreter} (h : gmap loc (gmap string string))
    (self : ClaudeCode) (prompt : string) (output_format : OutputFormat)
    (uuid : string) : result (cstate + jcstate) :=
  match start_conversation self None None None None None None None
          output_format uuid with
  | Raise e => Raise e
  | Return conversation =>
      match output_format with
      | STREAM_JSON => Return (inr (jcinit h conversation))
      | _ => Return (inl (cinit h conversation))
      end
  end.

End Client.

(** ** Predicates used to state and prove the properties *)

Module Invariants.

#[global] Instance gen_result_eq_dec : EqDecision gen_result.
Proof. solve_decision. Defined.

#[global] Instance gen_pc_eq_dec : EqDecision gen_pc.
Proof. solve_decision. Defined.

(** A text that is empty or ends with a newline: nothing of a line is
    cut off at its end. *)
Fixpoint complete_text (s : string) : bool :=
  match s with
  | EmptyString => true
  | String c s' =>
      match s' with
      | EmptyString => is_newline c
      | String _ _ => complete_text s'
      end
  end.

(** The command, the environment and the standard input of a process are
    fixed when it is spawned. *)
Definition same_origin (p q : process) : Prop :=
  p_cmd q = p_cmd p /\ p_env q = p_env p /\ p_stdin q = p_stdin p.

(** What [poll], [kill] and their compositions leave alone. *)
Definition same_io (p q : process) : Prop :=
  p_stdout q = p_stdout p /\ p_wrote_out q = p_wrote_out p
  /\ p_stderr q = p_stderr p /\ p_wrote_err q = p_wrote_err p
  /\ (stdout_eof p = true -> stdout_eof q = true)
  /\ (forall code, p_exit p = Some code -> p_exit q = Some code).

(** The standard input of the child, as the call decides it. *)
Definition stdin_of_call (c : call) : stdin_source :=
  if truthy_str (c_input c) then FromFile (default EmptyString (c_input c))
  else InheritCaller.

Definition file_of_call (c : call) (f : option tmpfile) : Prop :=
  match f with
  | None => True
  | Some f => truthy_str (c_input c) = true
              /\ tf_content f = default EmptyString (c_input c)
  end.

Definition proc_of_call (h : gmap loc (gmap string string)) (c : call)
    (p : option process) : Prop :=
  match p with
  | None => True
  | Some p => p_cmd p = c_cmd c /\ p_env p = merged_env h c
              /\ p_stdin p = stdin_of_call c
  end.

(** What a call started on heap [h] never changes. *)
Definition static_inv (h : gmap loc (gmap string string)) (c : call)
    (st : state) : Prop :=
  (heap st = h \/ heap st = (merge_env h (c_env c)).1)
  /\ file_of_call c (stdin_file st)
  /\ proc_of_call h c (proc st).

Definition frame_inv (h : gmap loc (gmap string string)) (c : call)
    (st : state) : Prop :=
  (pc st = PCStart -> st = init h) /\ static_inv h c st.

(** The consumer has received the lines of [consumed], and [consumed]
    followed by what waits in the pipe is what the child wrote. *)
Definition accounted (st : state) (consumed : string) : Prop :=
  yielded st = map rstrip_newline (text_lines consumed)
  /\ match proc st with
     | None => consumed = EmptyString
     | Some p =>
         p_wrote_out p = consumed +:+ p_stdout p
         /\ (complete_text consumed = true
             \/ (p_stdout p = EmptyString /\ stdout_eof p = true))
     end.

(** What the place of the generator says about the process: a generator
    that has read to the end of the output finds the pipe empty, and a
    finished one has collected the exit status it reports. *)
Definition result_inv (st : state) : Prop :=
  match pc st with
  | PCStart => proc st = None
  | PCReading =>
      exists p, proc st = Some p /\ p_stderr p = p_wrote_err p
  | PCYield _ =>
      exists p, proc st = Some p /\ p_stderr p = p_wrote_err p
  | PCWaiting =>
      exists p, proc st = Some p /\ p_stderr p = p_wrote_err p
                /\ p_stdout p = EmptyString /\ stdout_eof p = true
  | PCDone Returned =>
      exists p, proc st = Some p /\ p_exit p = Some 0
                /\ p_stdout p = EmptyString
  | PCDone (Raised e) =>
      match proc st with
      | Some p =>
          exists code, p_exit p = Some code /\ code <> 0
                       /\ p_stdout p = EmptyString
                       /\ e = command_failed code (p_wrote_err p)
      | None => True
      end
  | PCDone Closed => True
  end.

Definition acct_inv (st : state) : Prop :=
  exists consumed, accounted st consumed.

Definition stream_inv (st : state) : Prop :=
  acct_inv st /\ result_inv st.

(** A move of the world around the generator: it appends to the pipe and
    to the log, nothing once the output is at its end, and it never
    revives a process. *)
Definition benign (f : process -> process) : Prop :=
  forall p,
    (p_stderr p = p_wrote_err p -> p_stderr (f p) = p_wrote_err (f p))
    /\ (forall code, p_exit p = Some code ->
          p_exit (f p) = Some code /\ p_wrote_err (f p) = p_wrote_err p)
    /\ exists s,
         p_stdout (f p) = p_stdout p +:+ s
         /\ p_wrote_out (f p) = p_wrote_out p +:+ s
         /\ (stdout_eof p = true ->
               s = EmptyString /\ stdout_eof (f p) = true).






(** A generator that waits does so for a reason. *)
Definition settled (st : state) : Prop :=
  forall p, proc st = Some p ->
    (pc st = PCReading -> stdout_eof p = false)
    /\ (pc st = PCWaiting -> p_exit p = None).


(** The consumer asks once, the child runs [k] actions, the consumer
    asks [n] more times. *)
Definition drain (k n : nat) : list event :=
  Next :: repeat Child k ++ repeat Next n.





(** A generator that is not inside a read or a wait. *)
Definition idle (p : gen_pc) : Prop := p <> PCReading /\ p <> PCWaiting.

(** How the place of the decoding generator, the place of the line
    generator and the outcome [r] of decoding the lines consumed so far
    go together. *)
Definition link `{Platform} (j : json_pc) (p : gen_pc)
    (r : option (string * list string)) : Prop :=
  match j with
  | JStart => p = PCStart /\ r = None
  | JBlocked => (p = PCReading \/ p = PCWaiting) /\ r = None
  | JYield v =>
      r = None
      /\ exists line, p = PCYield line /\ is_blank line = false
                      /\ json_loads line = inl v
  | JDone (JRaised e) =>
      (exists d line, r = Some (d, []) /\ e = json_error d /\ p = PCYield line)
      \/ (r = None /\ p = PCDone (Raised e))
  | JDone JReturned => r = None /\ p = PCDone Returned
  | JDone JClosed => r = None /\ idle p
  end.

Definition json_inv `{Platform} (js : jstate) : Prop :=
  exists r, decode_lines (yielded (inner js)) = (jyielded js, r)
            /\ link (jpc js) (pc (inner js)) r.

(** After a move the line generator either stands at a [yield] with one
    more chunk handed over, or has handed over nothing and does not stand
    at a [yield]. *)
Definition fresh_or_quiet (st st' : state) : Prop :=
  (exists chunk, pc st' = PCYield chunk
                 /\ yielded st' = (yielded st ++ [chunk])%list)
  \/ (yielded st' = yielded st /\ pc st' <> PCStart
      /\ forall chunk, pc st' <> PCYield chunk).

(** What [settle] starts from: everything consumed is decoded, except
    the chunk the line generator stands at. *)
Definition unsettled `{Platform} (js : jstate) : Prop :=
  match pc (inner js) with
  | PCYield line =>
      exists ys, yielded (inner js) = (ys ++ [line])%list
                 /\ decode_lines ys = (jyielded js, None)
  | PCStart => False
  | _ => decode_lines (yielded (inner js)) = (jyielded js, None)
  end.

(** A line that decodes to a value. *)
Definition decodes_to `{Platform} (l : string) (v : json) : Prop :=
  json_loads l = inl v.

Definition non_blank (l : string) : bool := negb (is_blank l).


(** Does the character occur in the text? *)
Fixpoint contains (c : ascii) (s : string) : bool :=
  match s with
  | EmptyString => false
  | String d s' => bool_decide (d = c) || contains c s'
  end.

(** A tool name that survives a round trip through the command line: it
    is not empty, has no white space around it and no comma in it. *)
Definition clean_tool (t : string) : bool :=
  Tools.truthy t && bool_decide (strip t = t)
  && negb (contains Tools.comma t).

(** The credentials the authentication type asks for are given and not
    empty. *)
Definition credentials_present (self : Auth.AuthProvider) : bool :=
  match Auth.auth_type self with
  | Auth.ANTHROPIC_API => truthy_str (Auth.api_key self)
  | Auth.AWS_BEDROCK => truthy_str (Auth.region self)
  | Auth.GOOGLE_VERTEX =>
      truthy_str (Auth.region self) && truthy_str (Auth.project_id self)
  end.

(** The model a client ends up with: the one given, else the one of the
    environment, else the default. *)
Definition resolved_model (environ : gmap string string)
    (model : option string) : option string :=
  if truthy_str model then model
  else Some (default Auth.default_model (environ !! "ANTHROPIC_MODEL")).

(** The conversation has a limit of turns and has reached it.  A limit
    of [0] is no limit. *)
Definition limit_reached (self : Conversation) : bool :=
  match max_turns self with
  | Some n => negb (n =? 0) && (n <=? turn_count self)
  | None => false
  end.

(** The prompt is refused before any command is built. *)
Definition refused (self : Conversation) (prompt : string) : bool :=
  is_blank prompt || limit_reached self.

(** The arguments [send] has [run_command] call [subprocess.run] with. *)
Definition send_call `{Platform} (h : gmap loc (gmap string string))
    (self : Conversation) (prompt : string) : run_args :=
  run_command_call h (_build_command self prompt) (Some (_get_env self))
    (Conv.timeout self) (Some prompt).





(** How the generator of [Conversation.stream] shows the place of the
    line generator it iterates. *)
Definition view (p : gen_pc) : conv_pc :=
  match p with
  | PCStart => CStart
  | PCReading => CBlocked
  | PCWaiting => CBlocked
  | PCYield chunk => CYield chunk
  | PCDone r => CDone r
  end.

(** The conversation once the generator stands at [p]: a turn is counted
    when the generator has returned. *)
Definition counted (self : Conversation) (p : conv_pc) : Conversation :=
  match p with
  | CDone Returned => bump_turn_count self
  | _ => self
  end.

(** How the generator of [Conversation.stream] and its line generator go
    together: the generator shows the line generator, or was closed by
    its consumer, or refused the prompt before it made a line
    generator. *)
Definition relays (self : Conversation) (prompt : string) (cs : cstate)
    : Prop :=
  cyielded cs = yielded (cinner cs)
  /\ cself cs = counted self (cpc cs)
  /\ (pc (cinner cs) = PCStart -> ccall cs = None)
  /\ (pc (cinner cs) <> PCStart -> ccall cs = Some (stream_call self prompt))
  /\ (cpc cs = view (pc (cinner cs))
      \/ (cpc cs = CDone Closed /\ idle (pc (cinner cs)))
      \/ (exists e, cpc cs = CDone (Raised e) /\ pc (cinner cs) = PCStart
                    /\ validate_prompt self prompt = Some e)).

(** A schedule in which the consumer does not close the generator. *)
Definition no_close (evs : list event) : bool :=
  forallb (fun ev => match ev with Close => false | _ => true end) evs.

(** Some tool is in both lists. *)
Definition shared_tool (allowed disallowed : option (list string)) : bool :=
  existsb (fun t => bool_decide (t ∈ default [] disallowed))
    (default [] allowed).

(** The conversation [run_prompt] and [stream_prompt] start: it takes
    every setting from the client and has a fresh id. *)
Definition prompt_conversation (self : Client.ClaudeCode)
    (output_format : OutputFormat) (uuid : string) : Conversation :=
  mk_Conversation (Auth.get_environment (Client.auth_provider self)) uuid
    (Client.allowed_tools self) (Client.disallowed_tools self)
    (Client.max_turns self) (Client.mcp_config self)
    (Auth.model (Client.auth_provider self)) (Client.timeout self)
    output_format 0.

(** The file at [path] is there, can be read, and holds a JSON object
    with the key [mcpServers]. *)
Definition mcp_ok `{Platform} `{Interpreter} (path : string) : bool :=
  path_exists path
  && match read_text path with
     | inl text =>
         match json_loads text with
         | inl config => Client.has_mcp_servers config
         | inr _ => false
         end
     | inr _ => false
     end.

(** [if v is not None: old = v] *)
Definition updated {A : Type} (v old : option A) : option A :=
  match v with
  | Some _ => v
  | None => old
  end.


(** A process that is gone stays gone. *)
Definition keeps_gone (f : process -> process) : Prop :=
  forall p code,
    p_exit p = Some code -> p_returncode p = Some code ->
    p_exit (f p) = Some code /\ p_returncode (f p) = Some code.

(** The error both handlers of the process layer make of an exception
    that is not theirs. *)
Definition wrapped (text : string) : exc :=
  ExecutionError_init ExecutionError ("Error running command: " +:+ text)
    None None None.

(** A schedule without its timer events. *)
Definition without_timer (evs : list event) : list event :=
  List.filter (fun ev => match ev with Timer => false | _ => true end) evs.


(** How the generator of [Conversation.stream_json] shows the place of
    the decoding generator it iterates. *)
Definition jview (p : json_pc) : jconv_pc :=
  match p with
  | JStart => JCStart
  | JBlocked => JCBlocked
  | JYield v => JCYield v
  | JDone r => JCDone r
  end.

Definition jcounted (self : Conversation) (p : jconv_pc) : Conversation :=
  match p with
  | JCDone JReturned => bump_turn_count self
  | _ => self
  end.

(** What [stream_json] refuses a prompt with: the output format is
    looked at first, then the prompt and the limit of turns. *)
Definition json_refusal (self : Conversation) (prompt : string)
    : option exc :=
  match output_format self with
  | STREAM_JSON => validate_prompt self prompt
  | _ => Some (plain_exc ValidationError
                 "Output format must be STREAM_JSON for stream_json")
  end.

(** After a move the decoding generator either stands at a [yield] with
    one more value handed over, or has handed over nothing and does not
    stand at a [yield]. *)
Definition jfresh (ys : list json) (js' : jstate) : Prop :=
  (exists v, jpc js' = JYield v /\ jyielded js' = (ys ++ [v])%list)
  \/ (jyielded js' = ys /\ jpc js' <> JStart
      /\ forall v, jpc js' <> JYield v).

(** How the generator of [Conversation.stream_json] and its decoding
    generator go together. *)
Definition jrelays (self : Conversation) (prompt : string) (cs : jcstate)
    : Prop :=
  jcyielded cs = jyielded (jcinner cs)
  /\ jcself cs = jcounted self (jcpc cs)
  /\ (jpc (jcinner cs) = JStart -> jccall cs = None)
  /\ (jpc (jcinner cs) <> JStart ->
      jccall cs = Some (stream_call self prompt))
  /\ (jcpc cs = jview (jpc (jcinner cs))
      \/ (jcpc cs = JCDone JClosed /\ jpc (jcinner cs) <> JBlocked)
      \/ (exists e, jcpc cs = JCDone (JRaised e)
                    /\ jpc (jcinner cs) = JStart
                    /\ json_refusal self prompt = Some e)).


End Invariants.
Export Invariants.

(** ** A small machine to run the code on *)

Module Demo.

Definition nl : string := String newline EmptyString.
Definition dquote : string := String (ascii_of_nat 34) EmptyString.

(** The text [{"a":1}]. *)
Definition json_a1 : string :=
  "{" +:+ dquote +:+ "a" +:+ dquote +:+ ":1}".

(** Programs of the machine, by name:
    - [abc] prints three lines and exits with 0;
    - [fail] prints a line, complains and exits with 1;
    - [hang] never does anything;
    - [slow3] prints three lines and stays alive;
    - [jsonl] prints a JSON line, an empty line and a line that is not
      JSON, then exits with 0;
    any other name is not an executable. *)
Definition demo_popen (cmd : list string) (env : gmap string string)
    (stdin : stdin_source) : spawn_result :=
  match cmd with
  | name :: _ =>
      if String.eqb name "abc" then
        Spawned [CWrite ("a" +:+ nl +:+ "b" +:+ nl +:+ "c" +:+ nl); CExit 0]
      else if String.eqb name "fail" then
        Spawned [CWrite ("partial" +:+ nl); CWriteErr "boom"; CExit 1]
      else if String.eqb name "hang" then
        Spawned []
      else if String.eqb name "slow3" then
        Spawned [CWrite ("a" +:+ nl); CWrite ("b" +:+ nl); CWrite ("c" +:+ nl)]
      else if String.eqb name "jsonl" then
        Spawned [CWrite (json_a1 +:+ nl +:+ nl +:+ "not-json" +:+ nl +:+ "1"
                         +:+ nl); CExit 0]
      else SpawnRaises OSError "[Errno 2] No such file or directory"
  | [] => SpawnRaises OSError "[Errno 2] No such file or directory"
  end.

(** The same machine in blocking mode; [sleep] outlives any timeout after
    printing [par], and [claude] fails with status 2. *)
Definition demo_run (a : run_args) : run_outcome :=
  match ra_cmd a with
  | name :: _ =>
      if String.eqb name "true" then Completed 0 [] []
      else if String.eqb name "claude" then
        Completed 2 (list_byte_of_string "out") (list_byte_of_string "err")
      else if String.eqb name "sleep" then
        RunRaises TimeoutExpired "timed out"
          (Some (list_byte_of_string "par")) None
      else RunRaises OSError "[Errno 2] No such file or directory" None None
  | [] => RunRaises OSError "[Errno 2] No such file or directory" None None
  end.

(** A decoder that knows three texts. *)
Definition demo_json_loads (s : string) : json + string :=
  let t := strip s in
  if String.eqb t json_a1 then inl (JObject [("a", JNumber 1)])
  else if String.eqb t "1" then inl (JNumber 1)
  else if String.eqb t "null" then inl JNull
  else inr "Expecting value: line 1 column 1 (char 0)".

(** Text restricted to ASCII is its own UTF-8 encoding. *)
Definition demo_platform : Platform := {|
  decode_utf8_replace := string_of_list_byte;
  encode_utf8 := list_byte_of_string;
  subprocess_run := demo_run;
  popen := demo_popen;
  json_loads := demo_json_loads
|}.

(** The calling process has one variable. *)
Definition demo_heap : gmap loc (gmap string string) :=
  {[ os_environ := {[ "PATH" := "/bin" ]} ]}.


Definition hang_call : call := mk_call ["hang"] None (Some 1) None.
Definition slow3_call : call := mk_call ["slow3"] None None (Some "hi").



(** A provider with a key, and the environment of a caller that has a key
    and a model of its own. *)
Definition demo_provider : Auth.AuthProvider :=
  Auth.mk_AuthProvider Auth.ANTHROPIC_API (Some "sk-1") None None None.

Definition demo_environ : gmap string string :=
  {[ "ANTHROPIC_API_KEY" := "sk-env"; "ANTHROPIC_MODEL" := "env-model" ]}.

(** A machine on which every command answers [pong], or the JSON text
    [{"a":1}] when it is asked for a stream of JSON. *)
Definition answer_run (a : run_args) : run_outcome :=
  Completed 0 (list_byte_of_string "pong") [].

Definition answer_popen (cmd : list string) (env : gmap string string)
    (stdin : stdin_source) : spawn_result :=
  if existsb (String.eqb "stream-json") cmd
  then Spawned [CWrite (json_a1 +:+ nl); CExit 0]
  else Spawned [CWrite ("pong" +:+ nl); CExit 0].

Definition answering_platform : Platform := {|
  decode_utf8_replace := string_of_list_byte;
  encode_utf8 := list_byte_of_string;
  subprocess_run := answer_run;
  popen := answer_popen;
  json_loads := demo_json_loads
|}.

(** A conversation of the provider above, limited to two turns. *)
Definition two_turns : Conversation :=
  mk_Conversation (Auth.get_environment demo_provider) "c1" None None
    (Some 2) None (Some "m1") None TEXT 0.

(** A machine without the [claude] executable. *)
Definition missing_run (a : run_args) : run_outcome :=
  RunRaises OSError "[Errno 2] No such file or directory: 'claude'" None None.

Definition missing_popen (cmd : list string) (env : gmap string string)
    (stdin : stdin_source) : spawn_result :=
  SpawnRaises OSError "[Errno 2] No such file or directory: 'claude'".

Definition missing_platform : Platform := {|
  decode_utf8_replace := string_of_list_byte;
  encode_utf8 := list_byte_of_string;
  subprocess_run := missing_run;
  popen := missing_popen;
  json_loads := demo_json_loads
|}.

(** The environment of a caller that has a key and a model of its own. *)
Definition keyed_heap : gmap loc (gmap string string) :=
  {[ os_environ := {[ "ANTHROPIC_API_KEY" := "sk-env";
                      "ANTHROPIC_MODEL" := "env-model";
                      "PATH" := "/bin" ]} ]}.

(** An interpreter that iterates a set in the order of its elements and
    sees one file, [mcp.json]. *)
Definition demo_interpreter : Interpreter := {|
  set_iter := elements;
  path_exists := String.eqb "mcp.json";
  read_text := fun path =>
    if String.eqb path "mcp.json" then inl "mcp"
    else inr (plain_exc OSError "[Errno 2] No such file or directory")
|}.

(** A decoder that knows the text of that file. *)
Definition mcp_json_loads (s : string) : json + string :=
  if String.eqb s "mcp" then inl (JObject [("mcpServers", JObject [])])
  else demo_json_loads s.

Definition mcp_platform : Platform := {|
  decode_utf8_replace := string_of_list_byte;
  encode_utf8 := list_byte_of_string;
  subprocess_run := answer_run;
  popen := answer_popen;
  json_loads := mcp_json_loads
|}.

(** A client of the provider above that allows two tools. *)
Definition demo_client : Client.ClaudeCode :=
  Client.mk_ClaudeCode demo_provider (Some ["Bash"; "Glob"]) None
    None None (Some 30).

(** A conversation of the provider above that asks for a stream of
    JSON. *)
Definition json_turns : Conversation :=
  mk_Conversation (Auth.get_environment demo_provider) "c2" None None
    None None None None STREAM_JSON 0.

End Demo.


(** * Properties *)

#[global] Arguments issubclass : simpl never.
#[global] Arguments isinstance : simpl never.
#[global] Arguments except_catches : simpl never.
#[global] Arguments merge_env : simpl never.
#[global] Arguments readline : simpl never.
#[global] Arguments rstrip_newline : simpl never.
#[global] Arguments truthy_int : simpl never.
#[global] Arguments truthy_str : simpl never.
#[global] Arguments pretty : simpl never.

(** Case analysis along the branches of the generator body. *)
Ltac body_cases :=
  repeat match goal with
  | |- context [match proc ?s with _ => _ end] => destruct (proc s) eqn:?
  | |- context [match readline ?a ?b with _ => _ end] =>
      destruct (readline a b) eqn:?
  | |- context [match p_exit ?p with _ => _ end] => destruct (p_exit p) eqn:?
  | |- context [if ?z =? 0 then _ else _] => destruct (z =? 0) eqn:?
  | |- context [match popen ?a ?b ?d with _ => _ end] =>
      destruct (popen a b d) eqn:?
  end.

Ltac io_crush :=
  unfold same_io, stdout_eof;
  repeat (case_match; simplify_eq/=);
  split_and!; intros; simplify_eq/=; try done.

(** ** The error classes *)

Section ExceptionFacts.

Lemma issubclass_refl c : issubclass c c = true.
Proof. by destruct c. Qed.

Lemma issubclass_base c b d :
  base c = Some b -> issubclass b d = true -> issubclass c d = true.
Proof. destruct c, d; intros [= <-]; by vm_compute. Qed.

Lemma issubclass_complete c d : subclass_of c d -> issubclass c d = true.
Proof.
  induction 1 as [c | c b d Hb _ IH].
  - apply issubclass_refl.
  - by apply (issubclass_base c b d).
Qed.

Lemma issubclass_sound c d : issubclass c d = true -> subclass_of c d.
Proof.
  destruct c, d; vm_compute; intros Hs; try discriminate Hs;
    repeat (first [ apply subclass_refl
                  | eapply subclass_step; [ reflexivity | ] ]).
Qed.

Lemma issubclass_trans c d e :
  issubclass c d = true -> issubclass d e = true -> issubclass c e = true.
Proof. destruct c, d, e; by vm_compute. Qed.

Lemma instance_of_TimeoutError e :
  isinstance e TimeoutError = true -> exc_cls e = TimeoutError.
Proof. unfold isinstance. by destruct (exc_cls e). Qed.

End ExceptionFacts.

(** ** The merged environment *)

Section MergeEnv.

Implicit Types (h : gmap loc (gmap string string)) (l : loc).
Implicit Types (env : option (gmap string string)) (k : string).



Lemma dict_copy_value h l :
  deref (dict_copy h l).1 (dict_copy h l).2 = deref h l.
Proof. unfold deref, dict_copy; simpl. by rewrite lookup_insert_eq. Qed.


Lemma dict_update_value h l other :
  is_Some (h !! l) -> deref (dict_update h l other) l = other ∪ deref h l.
Proof.
  intros [d Hd]. unfold deref, dict_update.
  by rewrite lookup_alter_eq, Hd.
Qed.




Lemma merge_env_value h env :
  deref (merge_env h env).1 (merge_env h env).2
  = overlay env ∪ deref h os_environ.
Proof.
  unfold merge_env.
  pose proof (dict_copy_value h os_environ) as Hv.
  assert (is_Some ((dict_copy h os_environ).1 !! (dict_copy h os_environ).2))
    as Hs by (unfold dict_copy; simpl; rewrite lookup_insert_eq; eauto).
  destruct (dict_copy h os_environ) as [h1 m] eqn:E; simpl in *.
  destruct (truthy_dict env) eqn:Ht; simpl.
  - rewrite dict_update_value by done. by rewrite Hv.
  - rewrite Hv. unfold overlay.
    destruct env as [e|]; simpl in *; [ | by rewrite (left_id_L ∅ (∪)) ].
    apply negb_false_iff, bool_decide_eq_true in Ht. subst e.
    by rewrite (left_id_L ∅ (∪)).
Qed.

Lemma merge_env_lookup_overlay h env k v :
  overlay env !! k = Some v ->
  deref (merge_env h env).1 (merge_env h env).2 !! k = Some v.
Proof. intros Hk. rewrite merge_env_value. by apply lookup_union_Some_l. Qed.

Lemma merge_env_lookup_inherited h env k :
  overlay env !! k = None ->
  deref (merge_env h env).1 (merge_env h env).2 !! k
  = deref h os_environ !! k.
Proof. intros Hk. rewrite merge_env_value. by apply lookup_union_r. Qed.

End MergeEnv.

(** ** Lines of text *)

Section TextFacts.

Implicit Types (s t u buf l rest : string).

Lemma str_app_cons a s t : String a s +:+ t = String a (s +:+ t).
Proof. reflexivity. Qed.

Lemma str_app_nil_l s : "" +:+ s = s.
Proof. reflexivity. Qed.

Lemma str_app_nil_r s : s +:+ "" = s.
Proof.
  induction s as [|a s IH]; [ done | ]. by rewrite str_app_cons, IH.
Qed.

Lemma str_app_assoc s t u : (s +:+ t) +:+ u = s +:+ (t +:+ u).
Proof.
  induction s as [|a s IH]; [ done | ]. by rewrite !str_app_cons, IH.
Qed.

Lemma str_app_length s t :
  String.length (s +:+ t) = (String.length s + String.length t)%nat.
Proof.
  induction s as [|a s IH]; [ done | ]. rewrite str_app_cons. simpl.
  by rewrite IH.
Qed.

Lemma str_app_empty s t : s +:+ t = "" -> s = "" /\ t = "".
Proof. by destruct s. Qed.

Lemma text_lines_nil s : text_lines s = [] -> s = "".
Proof.
  destruct s as [|a s]; [ done | ]. simpl.
  destruct (is_newline a); [ done | ]. by destruct (text_lines s).
Qed.

Lemma text_lines_app s t :
  complete_text s = true ->
  text_lines (s +:+ t) = (text_lines s ++ text_lines t)%list.
Proof.
  induction s as [|a s IH]; [ done | ]. intros Hc.
  destruct s as [|b s].
  - rewrite str_app_cons, str_app_nil_l. simpl in *. by rewrite Hc.
  - specialize (IH Hc). rewrite str_app_cons.
    change (text_lines (String a (String b s +:+ t))) with
      (if is_newline a then String a "" :: text_lines (String b s +:+ t)
       else match text_lines (String b s +:+ t) with
            | [] => [String a ""]
            | l :: ls => String a l :: ls
            end).
    change (text_lines (String a (String b s))) with
      (if is_newline a then String a "" :: text_lines (String b s)
       else match text_lines (String b s) with
            | [] => [String a ""]
            | l :: ls => String a l :: ls
            end).
    rewrite IH. destruct (is_newline a); [ done | ].
    destruct (text_lines (String b s)) as [|l ls] eqn:E; [ | done ].
    by apply text_lines_nil in E.
Qed.

(** What [split_line] returns. *)
Lemma split_line_Some buf l rest :
  split_line buf = Some (l, rest) ->
  buf = l +:+ rest /\ text_lines l = [l] /\ complete_text l = true
  /\ (0 < String.length l)%nat.
Proof.
  revert l. induction buf as [|a buf IH]; intros l; [ done | ]. simpl.
  destruct (is_newline a) eqn:Ea.
  - intros [= <- <-]. simpl. rewrite Ea. split_and!; try done. lia.
  - destruct (split_line buf) as [[l' r']|]; [ | done ].
    intros [= <- <-]. destruct (IH l' eq_refl) as (-> & Hl & Hc & Hn).
    split_and!; try done.
    + simpl. by rewrite Ea, Hl.
    + destruct l'; [ simpl in Hn; lia | done ].
    + simpl. lia.
Qed.

Lemma split_line_None buf :
  split_line buf = None -> buf <> "" -> text_lines buf = [buf].
Proof.
  induction buf as [|a buf IH]; [ done | ]. simpl.
  destruct (is_newline a); [ done | ].
  destruct (split_line buf) as [[??]|]; [ done | ]. intros _ _.
  destruct buf as [|b buf]; [ done | ]. by rewrite IH.
Qed.

(** What [readline] returns. *)
Lemma readline_Line buf eof l rest :
  readline buf eof = Line l rest ->
  buf = l +:+ rest /\ text_lines l = [l] /\ (0 < String.length l)%nat
  /\ (complete_text l = true \/ (rest = "" /\ eof = true)).
Proof.
  unfold readline. destruct (split_line buf) as [[l' r']|] eqn:Es.
  - intros [= <- <-]. apply split_line_Some in Es as (? & ? & ? & ?). auto.
  - destruct eof; [ | done ]. destruct buf as [|a buf]; [ done | ].
    intros [= <- <-]. rewrite str_app_nil_r. split_and!; auto.
    + by apply split_line_None.
    + simpl. lia.
Qed.

Lemma readline_Eof buf eof : readline buf eof = Eof -> buf = "" /\ eof = true.
Proof.
  unfold readline. destruct (split_line buf) as [[??]|]; [ done | ].
  destruct eof; [ | done ]. by destruct buf.
Qed.

Lemma readline_WouldBlock buf eof :
  readline buf eof = WouldBlock -> eof = false.
Proof.
  unfold readline. destruct (split_line buf) as [[??]|]; [ done | ].
  destruct eof; [ | done ]. by destruct buf.
Qed.

Lemma readline_empty_eof : readline "" true = Eof.
Proof. done. Qed.

End TextFacts.

(** ** Processes *)

Section ProcessFacts.

Lemma same_origin_child_step p : same_origin p (child_step p).
Proof. unfold child_step. by repeat case_match. Qed.

Lemma same_origin_poll p : same_origin p (poll p).
Proof. unfold poll. by repeat case_match. Qed.

Lemma same_origin_kill p : same_origin p (kill p).
Proof. unfold kill, poll. by repeat case_match. Qed.

Lemma same_origin_kill_process p : same_origin p (kill_process p).
Proof. unfold kill_process, kill, poll. by repeat case_match. Qed.

Lemma same_origin_ensure_dead p : same_origin p (ensure_dead p).
Proof. unfold ensure_dead, kill, poll. by repeat case_match. Qed.

End ProcessFacts.

Section ProcessPipe.

(** A move of the child adds text at the end of the pipe and of the log,
    and none once the reader is at end of file. *)
Lemma child_step_pipe p :
  exists s,
    p_stdout (child_step p) = p_stdout p +:+ s
    /\ p_wrote_out (child_step p) = p_wrote_out p +:+ s
    /\ (stdout_eof p = true -> s = "" /\ stdout_eof (child_step p) = true).
Proof.
  unfold child_step, stdout_eof.
  destruct (p_exit p) eqn:Ee.
  { exists "". rewrite !str_app_nil_r, Ee. done. }
  destruct (p_script p) as [|[s|s| |code] rest] eqn:Es.
  - exists "". rewrite !str_app_nil_r, Ee. done.
  - destruct (p_out_open p) eqn:Eo.
    + exists s. simpl. rewrite Eo. done.
    + exists "". simpl. rewrite !str_app_nil_r, Ee, Eo. done.
  - exists "". simpl. rewrite !str_app_nil_r, Ee. done.
  - exists "". simpl. rewrite !str_app_nil_r, Ee. done.
  - exists "". simpl. rewrite !str_app_nil_r. done.
Qed.

Lemma child_step_stderr p :
  p_stderr p = p_wrote_err p ->
  p_stderr (child_step p) = p_wrote_err (child_step p).
Proof.
  unfold child_step. intros E. repeat case_match; simpl; by rewrite ?E.
Qed.

Lemma child_step_exited p code :
  p_exit p = Some code -> child_step p = p.
Proof. unfold child_step. by intros ->. Qed.

Lemma same_io_poll p : same_io p (poll p).
Proof. unfold poll. destruct (p_exit p) eqn:E; io_crush. Qed.

Lemma same_io_kill p : same_io p (kill p).
Proof. unfold kill, poll. destruct (p_exit p) eqn:E; io_crush. Qed.

Lemma same_io_kill_process p : same_io p (kill_process p).
Proof.
  unfold kill_process, kill, poll. destruct (p_exit p) eqn:E; simpl;
    [ | destruct (p_returncode p) eqn:E'; simpl; rewrite ?E ]; io_crush.
Qed.

Lemma same_io_ensure_dead p : same_io p (ensure_dead p).
Proof.
  unfold ensure_dead, kill, poll. destruct (p_exit p) eqn:E; simpl;
    [ | destruct (p_returncode p) eqn:E'; simpl; rewrite ?E ]; io_crush.
Qed.

End ProcessPipe.

(** ** What a streaming call never changes *)

Section StreamFrame.
Context `{Platform}.
Variable h : gmap loc (gmap string string).
Variable c : call.

Lemma proc_of_call_fmap f p :
  (forall q, same_origin q (f q)) -> proc_of_call h c p -> proc_of_call h c (f <$> p).
Proof.
  intros Hf. destruct p as [q|]; simpl; [ | done ].
  destruct (Hf q) as (-> & -> & ->). done.
Qed.

Lemma file_of_call_close f : file_of_call c f -> file_of_call c (close_file <$> f).
Proof. by destruct f. Qed.

Lemma static_inv_raise_in_try st e :
  static_inv h c st -> static_inv h c (raise_in_try st e).
Proof.
  intros (Hh & Hf & Hp). unfold raise_in_try, static_inv.
  destruct (except_catches PyException e); simpl;
    split_and!; auto using file_of_call_close.
  apply proc_of_call_fmap; [ apply same_origin_ensure_dead | done ].
Qed.

Lemma pc_raise_in_try st e : pc (raise_in_try st e) <> PCStart.
Proof. done. Qed.

Lemma static_inv_set_proc st p q :
  static_inv h c st -> proc st = Some p -> same_origin p q ->
  static_inv h c (set_proc (Some q) st).
Proof.
  intros (Hh & Hf & Hp) Ep (Hc & He & Hs). rewrite Ep in Hp.
  split_and!; simpl; auto. by rewrite Hc, He, Hs.
Qed.

Lemma static_inv_finally st : static_inv h c st -> static_inv h c (finally_clause st).
Proof.
  intros (Hh & Hf & Hp). split_and!; simpl; auto using file_of_call_close.
Qed.

Lemma static_inv_after_loop st :
  static_inv h c st -> static_inv h c (after_loop c st).
Proof.
  intros Hi. unfold after_loop. body_cases; try done.
  - apply (static_inv_finally (if_timeout_cancel c _)).
    apply (static_inv_set_proc st p); done.
  - apply static_inv_raise_in_try.
    apply (static_inv_set_proc (if_timeout_cancel c (set_proc _ st)) (set_returncode (Some z) p)); try done.
    apply (static_inv_set_proc st p); done.
Qed.

Lemma pc_after_loop st :
  is_Some (proc st) \/ pc st <> PCStart -> pc (after_loop c st) <> PCStart.
Proof.
  intros Hpc. unfold after_loop. body_cases; try done.
  destruct Hpc as [[? ?]|?]; done.
Qed.

Lemma static_inv_loop st : static_inv h c st -> static_inv h c (loop c st).
Proof.
  intros Hi. unfold loop. body_cases; try done.
  - apply (static_inv_set_proc st p); done.
  - by apply static_inv_after_loop.
Qed.

Lemma pc_loop st :
  is_Some (proc st) \/ pc st <> PCStart -> pc (loop c st) <> PCStart.
Proof.
  intros Hpc. unfold loop. body_cases; try done.
  - apply pc_after_loop. left. rewrite Heqo. eauto.
  - destruct Hpc as [[? ?]|?]; done.
Qed.

Lemma static_inv_start : static_inv h c (start c (init h)).
Proof.
  unfold start. simpl. body_cases.
  - apply static_inv_loop. split_and!; simpl; auto.
    + unfold file_of_call. by destruct (truthy_str (c_input c)) eqn:E.
    + split_and!; try done. unfold stdin_of_call.
      by destruct (truthy_str (c_input c)).
  - apply static_inv_raise_in_try. split_and!; simpl; auto.
    unfold file_of_call. by destruct (truthy_str (c_input c)) eqn:E.
Qed.

Lemma pc_start st : pc (start c st) <> PCStart.
Proof.
  unfold start. body_cases; [ | done ]. apply pc_loop. left. simpl. eauto.
Qed.

Lemma frame_inv_init : frame_inv h c (init h).
Proof. split; [ done | ]. split_and!; simpl; auto. Qed.

Lemma frame_inv_resume st :
  pc st <> PCStart -> static_inv h c st -> frame_inv h c (resume c st).
Proof.
  intros Hpc Hi. unfold resume. destruct (pc st) eqn:Epc; try done.
  - split; [ intros E; exfalso; revert E; apply pc_loop; right; by rewrite Epc | ].
    by apply static_inv_loop.
  - split; [ intros E; exfalso; revert E; apply pc_after_loop; right;
             by rewrite Epc | ].
    by apply static_inv_after_loop.
  - split; [ by rewrite Epc | done ].
  - split; [ by rewrite Epc | done ].
Qed.

Lemma frame_inv_step ev st : frame_inv h c st -> frame_inv h c (step c ev st).
Proof.
  intros Hinv. pose proof Hinv as [Hs Hi]. destruct ev; unfold step.
  - destruct (pc st) eqn:Epc; try exact Hinv.
    + rewrite (Hs eq_refl).
      split; [ intros E; exfalso; revert E; apply pc_start | ].
      apply static_inv_start.
    + split; [ intros E; exfalso; revert E; apply pc_loop; right;
               by rewrite Epc | ].
      by apply static_inv_loop.
  - destruct (pc st) eqn:Epc; try exact Hinv.
    + split; [ done | ]. apply Hi.
    + split; [ done | ]. by apply static_inv_raise_in_try.
  - destruct (decide (pc st = PCStart)) as [E|E].
    + rewrite (Hs E). exact frame_inv_init.
    + apply frame_inv_resume; [ done | ].
      destruct Hi as (Hh & Hf & Hp). split_and!; simpl; auto.
      apply proc_of_call_fmap; [ apply same_origin_child_step | done ].
  - destruct (timer st) as [[]|] eqn:Et; try exact Hinv.
    destruct (decide (pc st = PCStart)) as [E|E].
    + rewrite (Hs E) in Et. done.
    + apply frame_inv_resume; [ done | ].
      destruct Hi as (Hh & Hf & Hp). split_and!; simpl; auto.
      apply proc_of_call_fmap; [ apply same_origin_kill_process | done ].
Qed.

Lemma frame_inv_run evs st : frame_inv h c st -> frame_inv h c (run c evs st).
Proof.
  revert st. induction evs as [|ev evs IH]; intros st Hi; [ done | ].
  simpl. apply IH. by apply frame_inv_step.
Qed.

End StreamFrame.

(** ** What the consumer has received, and how the generator ends *)

Section Benign.

Lemma benign_child_step : benign child_step.
Proof.
  intros p. split_and!.
  - apply child_step_stderr.
  - intros code E. by rewrite (child_step_exited p code E).
  - apply child_step_pipe.
Qed.

Lemma benign_same_io f : (forall p, same_io p (f p)) -> benign f.
Proof.
  intros Hf p. destruct (Hf p) as (Ho & Hw & He & Hwe & Heof & Hex).
  split_and!.
  - intros E. by rewrite He, Hwe.
  - intros code E. split; [ by apply Hex | done ].
  - exists "". rewrite !str_app_nil_r. split_and!; auto.
Qed.

Lemma benign_kill_process : benign kill_process.
Proof. apply benign_same_io, same_io_kill_process. Qed.

Lemma benign_ensure_dead : benign ensure_dead.
Proof. apply benign_same_io, same_io_ensure_dead. Qed.

End Benign.

Section StreamInv.
Context `{Platform}.
Variable c : call.

Lemma complete_text_app s l :
  l <> "" -> complete_text (s +:+ l) = complete_text l.
Proof.
  intros Hl. induction s as [|a s IH]; [ done | ].
  rewrite str_app_cons. simpl. rewrite IH.
  destruct (s +:+ l) eqn:E; [ | done ].
  apply str_app_empty in E as [_ ->]. done.
Qed.

(** The bookkeeping does not look at the place of the generator. *)
Lemma accounted_ext st st' consumed :
  yielded st' = yielded st -> proc st' = proc st ->
  accounted st consumed -> accounted st' consumed.
Proof. unfold accounted. by intros -> ->. Qed.

Lemma accounted_benign f st consumed :
  benign f -> accounted st consumed ->
  accounted (set_proc (f <$> proc st) st) consumed.
Proof.
  intros Hf [Hy Hp]. split; [ done | ]. simpl.
  destruct (proc st) as [p|]; simpl; [ | done ].
  destruct Hp as [Hw Hc]. destruct (Hf p) as (_ & _ & s & Ho & Hwo & Heof).
  rewrite Ho, Hwo, Hw, str_app_assoc. split; [ done | ].
  destruct Hc as [Hc|[Hpipe He]]; [ by left | right ].
  destruct (Heof He) as [-> He']. by rewrite Hpipe.
Qed.

Lemma accounted_line st p consumed l rest :
  proc st = Some p -> accounted st consumed ->
  readline (p_stdout p) (stdout_eof p) = Line l rest ->
  accounted
    (set_pc (PCYield (rstrip_newline l))
       (set_yielded (yielded st ++ [rstrip_newline l])
          (set_proc (Some (set_stdout rest p)) st)))
    (consumed +:+ l).
Proof.
  intros Ep [Hy Hp] Hr. rewrite Ep in Hp. destruct Hp as [Hw Hc].
  apply readline_Line in Hr as (Hbuf & Hl & Hn & Hcl).
  assert (complete_text consumed = true) as Hcons.
  { destruct Hc as [?|[Hpipe _]]; [ done | ].
    rewrite Hpipe in Hbuf. symmetry in Hbuf.
    apply str_app_empty in Hbuf as [-> _]. simpl in Hn. lia. }
  split; simpl.
  - rewrite text_lines_app by done. rewrite map_app, Hl, Hy. done.
  - rewrite Hw, Hbuf, str_app_assoc. split; [ done | ].
    destruct Hcl as [Hcl|[-> Heof]].
    + left. rewrite complete_text_app; [ done | ].
      intros ->. simpl in Hn. lia.
    + right. done.
Qed.

Lemma accounted_same_pipe st p q consumed :
  proc st = Some p -> p_stdout q = p_stdout p ->
  p_wrote_out q = p_wrote_out p -> stdout_eof q = stdout_eof p ->
  accounted st consumed -> accounted (set_proc (Some q) st) consumed.
Proof.
  intros Ep Ho Hw He [Hy Hp]. rewrite Ep in Hp. split; [ done | ]. simpl.
  by rewrite Ho, Hw, He.
Qed.

Lemma raise_command_failed st code s :
  raise_in_try st (command_failed code s)
  = set_pc (PCDone (Raised (command_failed code s)))
      (finally_clause (except_handler_state st)).
Proof. reflexivity. Qed.

Lemma raise_generator_exit st :
  raise_in_try st (plain_exc GeneratorExit "")
  = set_pc (PCDone Closed) (finally_clause st).
Proof. reflexivity. Qed.

Lemma acct_inv_raise_in_try st e : acct_inv st -> acct_inv (raise_in_try st e).
Proof.
  intros [consumed Ha]. exists consumed. unfold raise_in_try.
  destruct (except_catches PyException e).
  - eapply accounted_ext;
      [ | | apply (accounted_benign ensure_dead st consumed benign_ensure_dead Ha) ];
      done.
  - eapply accounted_ext; [ | | exact Ha ]; done.
Qed.

Lemma acct_inv_after_loop st : acct_inv st -> acct_inv (after_loop c st).
Proof.
  intros [consumed Ha]. unfold after_loop. body_cases.
  - exists consumed.
    eapply accounted_ext;
      [ | | apply (accounted_same_pipe st p (set_returncode (Some z) p)
                     consumed Heqo); try done ]; try done.
  - apply acct_inv_raise_in_try. exists consumed.
    eapply accounted_ext;
      [ | | apply (accounted_same_pipe st p
                     (set_stderr "" (set_returncode (Some z) p))
                     consumed Heqo); try done ]; try done.
  - exists consumed. eapply accounted_ext; [ | | exact Ha ]; done.
  - by exists consumed.
Qed.

Lemma acct_inv_loop st : acct_inv st -> acct_inv (loop c st).
Proof.
  intros [consumed Ha]. unfold loop. body_cases.
  - exists (consumed +:+ l). by apply accounted_line.
  - exists consumed. eapply accounted_ext; [ | | exact Ha ]; done.
  - apply acct_inv_after_loop. by exists consumed.
  - by exists consumed.
Qed.

Lemma acct_inv_start h : acct_inv (start c (init h)).
Proof.
  unfold start. body_cases.
  - apply acct_inv_loop. exists "". split; simpl; auto.
  - apply acct_inv_raise_in_try. exists "". split; simpl; auto.
Qed.

Lemma result_inv_after_loop st p :
  proc st = Some p -> p_stderr p = p_wrote_err p ->
  p_stdout p = "" -> stdout_eof p = true ->
  result_inv (after_loop c st).
Proof.
  intros Ep Herr Hout Heof. unfold after_loop. rewrite Ep.
  destruct (p_exit p) as [code|] eqn:Ex.
  - destruct (code =? 0) eqn:Ez.
    + apply Z.eqb_eq in Ez as ->. unfold result_inv. simpl. eauto.
    + apply Z.eqb_neq in Ez. rewrite raise_command_failed.
      unfold result_inv. simpl.
      destruct (same_io_ensure_dead
                  (set_stderr "" (set_returncode (Some code) p)))
        as (Ho & _ & _ & Hwe & _ & Hex).
      exists code. rewrite Ho, Hwe. simpl. rewrite Herr.
      split_and!; auto.
  - unfold result_inv. simpl. eauto.
Qed.

Lemma result_inv_loop st p :
  proc st = Some p -> p_stderr p = p_wrote_err p -> result_inv (loop c st).
Proof.
  intros Ep Herr. unfold loop. rewrite Ep.
  destruct (readline _ _) as [l rest| |] eqn:Er.
  - unfold result_inv. simpl. eauto.
  - unfold result_inv. simpl. eauto.
  - apply readline_Eof in Er as [Hout Heof].
    by apply (result_inv_after_loop st p).
Qed.

Lemma result_inv_start h : result_inv (start c (init h)).
Proof.
  unfold start. destruct (popen _ _ _) as [script|cls text].
  - eapply result_inv_loop; simpl; [ reflexivity | done ].
  - unfold raise_in_try, result_inv. simpl.
    destruct (except_catches _ _); simpl; by destruct (isinstance _ _).
Qed.

Lemma result_inv_benign f st :
  benign f -> result_inv st -> result_inv (set_proc (f <$> proc st) st).
Proof.
  intros Hf. unfold result_inv. simpl.
  destruct (pc st) as [| | |chunk|[|e|]]; try done.
  - by intros ->.
  - intros (p & -> & Herr). destruct (Hf p) as (He & _). simpl. eauto.
  - intros (p & -> & Herr & Hout & Heof).
    destruct (Hf p) as (He & _ & s & Ho & _ & Hs).
    destruct (Hs Heof) as [-> Heof']. simpl. exists (f p).
    rewrite Ho, Hout. auto.
  - intros (p & -> & Herr). destruct (Hf p) as (He & _). simpl. eauto.
  - intros (p & -> & Hex & Hout).
    destruct (Hf p) as (_ & Hx & s & Ho & _ & Hs).
    destruct (Hs) as [-> _]; [ unfold stdout_eof; by rewrite Hex | ].
    simpl. exists (f p). rewrite Ho, Hout. split_and!; auto.
    by apply Hx.
  - destruct (proc st) as [p|]; simpl; [ | done ].
    intros (code & Hex & Hne & Hout & ->).
    destruct (Hf p) as (_ & Hx & s & Ho & _ & Hs).
    destruct (Hs) as [-> _]; [ unfold stdout_eof; by rewrite Hex | ].
    destruct (Hx code Hex) as [Hx1 Hx2].
    exists code. rewrite Ho, Hout, Hx2. auto.
Qed.

(** The invariant does not look at the timer. *)
Lemma stream_inv_set_timer t st : stream_inv st -> stream_inv (set_timer t st).
Proof. intros H0. exact H0. Qed.

Lemma stream_inv_benign f st :
  benign f -> stream_inv st -> stream_inv (set_proc (f <$> proc st) st).
Proof.
  intros Hf [[consumed Ha] Hr]. split.
  - exists consumed. by apply accounted_benign.
  - by apply result_inv_benign.
Qed.

Lemma stream_inv_resume st : stream_inv st -> stream_inv (resume c st).
Proof.
  intros [Ha Hr]. unfold resume. destruct (pc st) eqn:Epc; try done.
  - split; [ by apply acct_inv_loop | ].
    unfold result_inv in Hr. rewrite Epc in Hr.
    destruct Hr as (p & Ep & Herr). by apply (result_inv_loop st p).
  - split; [ by apply acct_inv_after_loop | ].
    unfold result_inv in Hr. rewrite Epc in Hr.
    destruct Hr as (p & Ep & Herr & Hout & Heof).
    by apply (result_inv_after_loop st p).
Qed.

Lemma stream_inv_init h : stream_inv (init h).
Proof. split; [ exists ""; by split | done ]. Qed.

Lemma stream_inv_step h ev st :
  frame_inv h c st -> stream_inv st -> stream_inv (step c ev st).
Proof.
  intros [Hs _] Hi. pose proof Hi as [Ha Hr]. destruct ev; unfold step.
  - destruct (pc st) eqn:Epc; try exact Hi.
    + rewrite (Hs eq_refl).
      split; [ apply acct_inv_start | apply result_inv_start ].
    + split; [ by apply acct_inv_loop | ].
      unfold result_inv in Hr. rewrite Epc in Hr.
      destruct Hr as (p & Ep & Herr). by apply (result_inv_loop st p).
  - destruct (pc st) eqn:Epc; try exact Hi.
    + split; [ exact Ha | done ].
    + rewrite raise_generator_exit. split; [ | done ].
      destruct Ha as [consumed Ha]. exists consumed.
      eapply accounted_ext; [ | | exact Ha ]; done.
  - apply stream_inv_resume, stream_inv_benign;
      [ apply benign_child_step | done ].
  - destruct (timer st) as [[]|]; try exact Hi.
    apply stream_inv_resume, (stream_inv_set_timer (Some TimerFired)).
    apply stream_inv_benign; [ apply benign_kill_process | done ].
Qed.

Lemma stream_inv_run h evs st :
  frame_inv h c st -> stream_inv st -> stream_inv (run c evs st).
Proof.
  revert st. induction evs as [|ev evs IH]; intros st Hf Hi; [ done | ].
  simpl. apply IH; [ by apply frame_inv_step | by apply (stream_inv_step h) ].
Qed.

End StreamInv.

(** ** A generator that waits, waits for the child *)

Section Settled.
Context `{Platform}.
Variable c : call.

Lemma settled_after_loop st : settled (after_loop c st).
Proof.
  unfold after_loop, settled. body_cases; simpl; intros q Eq; simplify_eq;
    (split; [ done | ]); done.
Qed.

Lemma settled_raise_in_try st e : settled (raise_in_try st e).
Proof. unfold settled. by intros. Qed.

Lemma settled_loop st :
  is_Some (proc st) \/ settled st -> settled (loop c st).
Proof.
  intros Hs. unfold loop. body_cases.
  - unfold settled. by intros.
  - unfold settled. simpl. intros q Eq. rewrite Heqo in Eq. simplify_eq.
    split; [ | done ]. intros _. by apply readline_WouldBlock in Heqr.
  - apply settled_after_loop.
  - destruct Hs as [[q Eq]|Hs]; done.
Qed.

Lemma settled_start st : settled (start c st).
Proof.
  unfold start. body_cases.
  - apply settled_loop. left. simpl. eauto.
  - apply settled_raise_in_try.
Qed.

Lemma settled_resume st :
  (pc st <> PCReading -> pc st <> PCWaiting -> settled st) ->
  settled (resume c st).
Proof.
  intros Hs. unfold resume. destruct (pc st) eqn:Epc; try (by apply Hs).
  - destruct (proc st) as [p|] eqn:Ep.
    + apply settled_loop. left. rewrite Ep. eauto.
    + unfold loop. rewrite Ep. unfold settled. intros q Eq.
      by rewrite Ep in Eq.
  - apply settled_after_loop.
Qed.

Lemma settled_update f t st :
  pc st <> PCReading -> pc st <> PCWaiting ->
  settled (set_timer t (set_proc (f <$> proc st) st)).
Proof. unfold settled. simpl. by intros. Qed.

Lemma settled_init h : settled (init h).
Proof. unfold settled. by intros. Qed.

Lemma settled_step ev st : settled st -> settled (step c ev st).
Proof.
  intros Hs. destruct ev; unfold step.
  - destruct (pc st) eqn:Epc; try exact Hs.
    + apply settled_start.
    + apply settled_loop. by right.
  - destruct (pc st) eqn:Epc; try exact Hs.
    + unfold settled. by intros.
    + apply settled_raise_in_try.
  - apply settled_resume. simpl. intros H1 H2.
    apply (settled_update child_step (timer st) st H1 H2).
  - destruct (timer st) as [[]|]; try exact Hs.
    apply settled_resume. simpl. intros H1 H2.
    by apply (settled_update kill_process (Some TimerFired) st).
Qed.

Lemma settled_run evs st : settled st -> settled (run c evs st).
Proof.
  revert st. induction evs as [|ev evs IH]; intros st Hs; [ done | ].
  simpl. by apply IH, settled_step.
Qed.

End Settled.

Section ScriptFacts.

Implicit Types (p q : process) (script : list child_action).








End ScriptFacts.

Section Liveness.
Context `{Platform}.
Variable c : call.

Implicit Types (st : state) (p q : process).












Lemma run_cons ev evs st : run c (ev :: evs) st = run c evs (step c ev st).
Proof. reflexivity. Qed.

Lemma step_next_done st r : pc st = PCDone r -> step c Next st = st.
Proof. intros Epc. unfold step. by rewrite Epc. Qed.







End Liveness.

(** ** Streaming mode: the claims *)

Section StreamCommand.
Context `{Platform}.
Variable h : gmap loc (gmap string string).
Variable c : call.

Lemma stream_command_inv evs :
  frame_inv h c (stream_command h c evs)
  /\ stream_inv (stream_command h c evs)
  /\ settled (stream_command h c evs).
Proof.
  unfold stream_command. split_and!.
  - apply frame_inv_run, frame_inv_init.
  - apply (stream_inv_run c h); [ apply frame_inv_init | apply stream_inv_init ].
  - apply settled_run, settled_init.
Qed.


Lemma step_next_init : step c Next (init h) = start c (init h).
Proof. reflexivity. Qed.




End StreamCommand.




(** C1. A child that hangs is killed by the timer; the generator then
    ends with an [ExecutionError] whose exit code is -9, which is not a
    [TimeoutError]; the process is gone when it raises. *)
Theorem stream_timeout_raises_execution_error :
  let st := @stream_command Demo.demo_platform Demo.demo_heap Demo.hang_call
              [Next; Timer] in
  pc st = PCDone (Raised (command_failed (-9) ""))
  /\ exc_cls (command_failed (-9) "") = ExecutionError
  /\ isinstance (command_failed (-9) "") TimeoutError = false
  /\ alive st = false /\ reaped st = true.
Proof. vm_compute. by split_and!. Qed.

(** C2. A consumer that closes the generator after two of three lines
    leaves the child running and its status uncollected; the temporary
    file is closed. *)
Theorem stream_close_leaves_process_running :
  let st := @stream_command Demo.demo_platform Demo.demo_heap Demo.slow3_call
              [Next; Child; Next; Child; Close] in
  pc st = PCDone Closed /\ yielded st = ["a"; "b"]
  /\ alive st = true /\ reaped st = false /\ store_released st = true.
Proof. vm_compute. by split_and!. Qed.

(** ** The error classes: the claim *)

(** C9. Every Timeout error is also an Execution error: [TimeoutError] is
    a subclass of [ExecutionError], it is built by the initialiser of
    [ExecutionError] and so carries [exit_code], [stdout] and [stderr], and
    an [except ExecutionError] clause catches it. *)
Theorem timeout_error_is_execution_error (e : exc) :
  isinstance e TimeoutError = true ->
  isinstance e ExecutionError = true
  /\ except_catches ExecutionError e = true
  /\ subclass_of TimeoutError ExecutionError
  /\ forall message code out err,
       let t := ExecutionError_init TimeoutError message code out err in
       isinstance t TimeoutError = true
       /\ isinstance t ExecutionError = true
       /\ exit_code t = code /\ stdout t = out /\ stderr t = err.
Proof.
  intros He. apply instance_of_TimeoutError in He.
  unfold except_catches, isinstance. rewrite He.
  split_and!; try reflexivity.
  - by apply issubclass_sound.
  - intros; by split_and!.
Qed.

Lemma timeout_error_is_execution_error_witness :
  let e := ExecutionError_init TimeoutError "Command timed out after 1 seconds"
             None (Some "") (Some "") in
  isinstance e TimeoutError = true /\ isinstance e ExecutionError = true.
Proof.
  split; [ reflexivity | ].
  apply (timeout_error_is_execution_error
           (ExecutionError_init TimeoutError "Command timed out after 1 seconds"
              None (Some "") (Some ""))).
  reflexivity.
Defined.

(** ** Blocking mode: the claims *)

Section BlockingMode.
Context `{Platform}.

Implicit Types (h : gmap loc (gmap string string)) (cmd : list string).
Implicit Types (env : option (gmap string string)) (timeout : option Z).
Implicit Types (input_data : option string).

Lemma run_command_completed h cmd env timeout input_data returncode out err :
  subprocess_run (run_command_call h cmd env timeout input_data)
  = Completed returncode out err ->
  run_command h cmd env timeout input_data
  = ((merge_env h env).1,
     Return (returncode, decode_utf8_replace out, decode_utf8_replace err)).
Proof. unfold run_command, run_command_call. by intros ->. Qed.


End BlockingMode.



(** C5. A blocking run that exceeds its timeout fails with a
    [TimeoutError] whose exit code is [None] and which carries the
    partial stdout and stderr, decoded, or the empty string where nothing
    was captured. *)
Theorem run_command_timeout `{Platform}
    (h : gmap loc (gmap string string)) (cmd : list string)
    (env : option (gmap string string)) (timeout : option Z)
    (input_data : option string) (cls : exc_class) (text : string)
    (out err : option (list Byte.byte)) :
  subprocess_run (run_command_call h cmd env timeout input_data)
  = RunRaises cls text out err ->
  issubclass cls TimeoutExpired = true ->
  exists e,
    run_command h cmd env timeout input_data = ((merge_env h env).1, Raise e)
    /\ exc_cls e = TimeoutError
    /\ isinstance e TimeoutError = true
    /\ exit_code e = None
    /\ stdout e = Some (decode_or_empty out)
    /\ stderr e = Some (decode_or_empty err).
Proof.
  intros Hrun Hc. unfold run_command. fold (run_command_call h cmd env timeout input_data).
  rewrite Hrun, Hc. eexists. split; [ reflexivity | ].
  split_and!; try reflexivity.
  - simpl. f_equal. by destruct out as [[|??]|].
  - simpl. f_equal. by destruct err as [[|??]|].
Qed.

Lemma run_command_timeout_witness :
  exists e,
    @run_command Demo.demo_platform Demo.demo_heap ["sleep"; "60"] None
       (Some 1) None
    = ((merge_env Demo.demo_heap None).1, Raise e)
    /\ exc_cls e = TimeoutError /\ exit_code e = None
    /\ stdout e = Some "par" /\ stderr e = Some "".
Proof.
  destruct (@run_command_timeout Demo.demo_platform Demo.demo_heap
              ["sleep"; "60"] None (Some 1) None TimeoutExpired "timed out"
              (Some (list_byte_of_string "par")) None eq_refl eq_refl)
    as (e & Hr & Hc & _ & Hx & Ho & He).
  exists e. split_and!; assumption.
Defined.

(** ** JSON streaming mode *)

Section JsonInner.
Context `{Platform}.
Variable c : call.

(** The decoding generator drives the line generator by the events it
    receives and by requests of its own. *)
Lemma settle_S fuel js :
  settle (S fuel) c js
  = match pc (inner js) with
    | PCYield line =>
        if is_blank line then
          settle fuel c
            (mk_jstate (step c Next (inner js)) (jpc js) (jyielded js))
        else settle 0 c js
    | _ => settle 0 c js
    end.
Proof.
  simpl. destruct (pc (inner js)) as [| | |line|[|e|]]; try done.
  by destruct (is_blank line).
Qed.

Lemma settle_0_inner js : inner (settle 0 c js) = inner js.
Proof.
  simpl. destruct (pc (inner js)) as [| | |line|[|e|]]; try done.
  destruct (is_blank line); [ done | ]. by destruct (json_loads line).
Qed.

Lemma settle_inner fuel js :
  exists k, inner (settle fuel c js) = run c (repeat Next k) (inner js).
Proof.
  revert js. induction fuel as [|fuel IH]; intros js.
  - exists 0%nat. apply settle_0_inner.
  - rewrite settle_S.
    destruct (pc (inner js)) as [| | |line|[|e|]];
      try (exists 0%nat; apply settle_0_inner).
    destruct (is_blank line); [ | exists 0%nat; apply settle_0_inner ].
    destruct (IH (mk_jstate (step c Next (inner js)) (jpc js) (jyielded js)))
      as [k Hk].
    exists (S k). exact Hk.
Qed.

Lemma jstep_inner ev js :
  exists evs, inner (jstep c ev js) = run c evs (inner js).
Proof.
  unfold jstep, pull. destruct ev.
  - destruct (jpc js); try (by exists []);
      match goal with
      | |- context [settle ?f c ?x] =>
          destruct (settle_inner f x) as [k Hk]
      end; exists (Next :: repeat Next k); exact Hk.
  - destruct (jpc js); by exists [].
  - destruct (jpc js); try (by exists [Child]).
    match goal with
    | |- context [settle ?f c ?x] => destruct (settle_inner f x) as [k Hk]
    end. exists (Child :: repeat Next k). exact Hk.
  - destruct (jpc js); try (by exists [Timer]).
    match goal with
    | |- context [settle ?f c ?x] => destruct (settle_inner f x) as [k Hk]
    end. exists (Timer :: repeat Next k). exact Hk.
Qed.



End JsonInner.

(** ** Environment and standard input in every mode: the claims *)

Section AnyMode.
Context `{Platform}.
Variable h : gmap loc (gmap string string).
Variable c : call.



End AnyMode.



Section EmptyInput.
Context `{Platform}.
Variables (cmd : list string) (env : option (gmap string string)).
Variable timeout : option Z.

Lemma step_empty_input ev st :
  step (mk_call cmd env timeout (Some EmptyString)) ev st
  = step (mk_call cmd env timeout None) ev st.
Proof. reflexivity. Qed.

Lemma run_empty_input evs st :
  run (mk_call cmd env timeout (Some EmptyString)) evs st
  = run (mk_call cmd env timeout None) evs st.
Proof.
  revert st. induction evs as [|ev evs IH]; intros st; [ reflexivity | ].
  by rewrite !run_cons, step_empty_input, IH.
Qed.

Lemma settle_empty_input fuel js :
  settle fuel (mk_call cmd env timeout (Some EmptyString)) js
  = settle fuel (mk_call cmd env timeout None) js.
Proof.
  revert js. induction fuel as [|fuel IH]; intros js; [ reflexivity | ].
  rewrite !settle_S. destruct (pc (inner js)); try reflexivity.
  destruct (is_blank chunk); [ | reflexivity ].
  by rewrite step_empty_input, IH.
Qed.

Lemma jstep_empty_input ev js :
  jstep (mk_call cmd env timeout (Some EmptyString)) ev js
  = jstep (mk_call cmd env timeout None) ev js.
Proof.
  unfold jstep, pull. rewrite !step_empty_input.
  destruct ev, (jpc js); try reflexivity; apply settle_empty_input.
Qed.

Lemma jrun_empty_input evs js :
  jrun (mk_call cmd env timeout (Some EmptyString)) evs js
  = jrun (mk_call cmd env timeout None) evs js.
Proof.
  revert js. induction evs as [|ev evs IH]; intros js; [ reflexivity | ].
  simpl. by rewrite jstep_empty_input, IH.
Qed.

End EmptyInput.

(** C10. In all three modes the empty string as input text behaves as no
    input at all: the same result and the same states under every
    schedule, no bytes handed to [subprocess.run], no temporary file, and
    a child that keeps the standard input it inherits. *)
Theorem empty_input_is_no_input `{Platform}
    (h : gmap loc (gmap string string)) (cmd : list string)
    (env : option (gmap string string)) (timeout : option Z)
    (evs : list event) :
  let c0 := mk_call cmd env timeout None in
  let c1 := mk_call cmd env timeout (Some EmptyString) in
  run_command h cmd env timeout (Some EmptyString)
  = run_command h cmd env timeout None
  /\ ra_input (run_command_call h cmd env timeout (Some EmptyString)) = None
  /\ stream_command h c1 evs = stream_command h c0 evs
  /\ stdin_file (stream_command h c1 evs) = None
  /\ (forall p, proc (stream_command h c1 evs) = Some p ->
        p_stdin p = InheritCaller)
  /\ stream_json_command h c1 evs = stream_json_command h c0 evs.
Proof.
  intros c0 c1. split_and!.
  - reflexivity.
  - reflexivity.
  - apply run_empty_input.
  - destruct (stream_command_inv h c1 evs) as ((_ & _ & Hf & _) & _).
    destruct (stdin_file _) as [f|]; [ | done ]. by destruct Hf.
  - intros p Ep.
    destruct (stream_command_inv h c1 evs) as ((_ & _ & _ & Hp) & _).
    rewrite Ep in Hp. by destruct Hp as (_ & _ & ->).
  - apply jrun_empty_input.
Qed.




(** ** JSON streaming mode: the claim *)

Section DecodeLines.
Context `{Platform}.

Lemma decode_lines_snoc ys l vs :
  decode_lines ys = (vs, None) ->
  decode_lines (ys ++ [l])%list
  = if is_blank l then (vs, None)
    else match json_loads l with
         | inl v => ((vs ++ [v])%list, None)
         | inr d => (vs, Some (d, []))
         end.
Proof.
  revert vs. induction ys as [|y ys IH]; intros vs; simpl.
  - intros [= <-]. destruct (is_blank l); [ done | ].
    by destruct (json_loads l).
  - destruct (is_blank y); [ apply IH | ].
    destruct (json_loads y) as [v|d]; [ | done ].
    destruct (decode_lines ys) as [vs' r'] eqn:E. intros [= <- ->].
    rewrite (IH vs' eq_refl). destruct (is_blank l); [ done | ].
    by destruct (json_loads l).
Qed.

End DecodeLines.

Section Fresh.
Context `{Platform}.
Variable c : call.

Implicit Types (st : state) (p : process).

Lemma quiet_raise_in_try st e :
  yielded (raise_in_try st e) = yielded st
  /\ pc (raise_in_try st e) <> PCStart
  /\ forall chunk, pc (raise_in_try st e) <> PCYield chunk.
Proof.
  unfold raise_in_try. destruct (except_catches PyException e); simpl;
    by split_and!.
Qed.

Lemma quiet_after_loop st p :
  proc st = Some p ->
  yielded (after_loop c st) = yielded st
  /\ pc (after_loop c st) <> PCStart
  /\ forall chunk, pc (after_loop c st) <> PCYield chunk.
Proof.
  intros Ep. unfold after_loop. rewrite Ep.
  destruct (p_exit p) as [code|]; [ | by split_and! ].
  destruct (code =? 0); [ by split_and! | ].
  match goal with
  | |- context [raise_in_try ?s ?e] =>
      destruct (quiet_raise_in_try s e) as (Hy & Hs & Hn)
  end.
  by split_and!.
Qed.

Lemma fresh_loop st p :
  proc st = Some p ->
  fresh_or_quiet st (loop c st)
  /\ forall chunk, pc (loop c st) = PCYield chunk ->
       (String.length (pending (loop c st)) < String.length (pending st))%nat.
Proof.
  intros Ep. unfold loop. rewrite Ep.
  destruct (readline _ _) as [l rest| |] eqn:Er.
  - split; [ left; simpl; eauto | ]. intros chunk _.
    apply readline_Line in Er as (Hb & _ & Hn & _).
    unfold pending. simpl. rewrite Ep, Hb, str_app_length. lia.
  - split; [ right; simpl; by split_and! | done ].
  - destruct (quiet_after_loop st p Ep) as (Hy & Hs & Hn).
    split; [ by right | ]. intros chunk E. by apply Hn in E.
Qed.

Lemma fresh_start h : fresh_or_quiet (init h) (start c (init h)).
Proof.
  unfold start. destruct (popen _ _ _) as [script|cls text].
  - match goal with |- fresh_or_quiet _ (loop c ?s) => set (st' := s) end.
    destruct (fresh_loop st' _ eq_refl) as [Hf _]. exact Hf.
  - right.
    match goal with
    | |- context [raise_in_try ?s ?e] =>
        destruct (quiet_raise_in_try s e) as (Hy & Hs & Hn)
    end.
    by split_and!.
Qed.

(** The consumer asks a generator that stands at its start or at a
    [yield]. *)
Lemma fresh_next h st :
  frame_inv h c st -> result_inv st ->
  pc st = PCStart \/ (exists line, pc st = PCYield line) ->
  fresh_or_quiet st (step c Next st)
  /\ forall chunk, pc (step c Next st) = PCYield chunk ->
       (exists line, pc st = PCYield line)
       /\ (String.length (pending (step c Next st))
           < String.length (pending st))%nat.
Proof.
  intros [Hs _] Hr [Epc|[line Epc]]; unfold step; rewrite Epc.
  - rewrite (Hs Epc). pose proof (fresh_start h) as Hf. split; [ done | ].
    intros chunk E. exfalso. revert E. unfold start.
    destruct (popen _ _ _) as [script|cls text].
    + unfold loop. simpl. by destruct (truthy_int (c_timeout c)).
    + by apply quiet_raise_in_try.
  - unfold result_inv in Hr. rewrite Epc in Hr. destruct Hr as (p & Ep & _).
    destruct (fresh_loop st p Ep) as [Hf Hl]. split; [ done | ]. eauto.
Qed.

(** The child or the timer moves while the generator waits. *)
Lemma fresh_resume st p :
  proc st = Some p -> pc st = PCReading \/ pc st = PCWaiting ->
  fresh_or_quiet st (resume c st).
Proof.
  intros Ep [Epc|Epc]; unfold resume; rewrite Epc.
  - by apply (fresh_loop st p).
  - right. by apply (quiet_after_loop st p).
Qed.

Lemma fresh_world st ev :
  ev = Child \/ ev = Timer -> result_inv st ->
  pc st = PCReading \/ pc st = PCWaiting ->
  fresh_or_quiet st (step c ev st).
Proof.
  intros Hev Hr Hpc.
  assert (exists p, proc st = Some p) as [p Ep].
  { unfold result_inv in Hr. destruct Hpc as [E|E]; rewrite E in Hr;
      destruct Hr as (p & ? & _); eauto. }
  assert (fresh_or_quiet st st) as Hq.
  { right. split_and!; [ done | | ]; destruct Hpc as [E|E]; by rewrite E. }
  destruct Hev as [-> | ->]; unfold step.
  - apply (fresh_resume (set_proc (child_step <$> proc st) st) (child_step p));
      [ simpl; by rewrite Ep | done ].
  - destruct (timer st) as [[]|]; try done.
    apply (fresh_resume
             (set_timer (Some TimerFired)
                (set_proc (kill_process <$> proc st) st))
             (kill_process p)); [ simpl; by rewrite Ep | done ].
Qed.

(** ... or while it does not. *)
Lemma idle_world st ev :
  ev = Child \/ ev = Timer -> idle (pc st) ->
  yielded (step c ev st) = yielded st /\ pc (step c ev st) = pc st.
Proof.
  intros Hev [H1 H2]. destruct Hev as [-> | ->]; unfold step, resume.
  - simpl. destruct (pc st) eqn:E; simpl; rewrite ?E;
      first [ done | congruence ].
  - destruct (timer st) as [[]|]; try done. simpl.
    destruct (pc st) eqn:E; simpl; rewrite ?E; first [ done | congruence ].
Qed.

End Fresh.

#[global] Arguments step : simpl never.

Section JsonInv.
Context `{Platform}.
Variable h : gmap loc (gmap string string).
Variable c : call.

Lemma settle_0_spec js :
  unsettled js ->
  (forall line, pc (inner js) = PCYield line -> is_blank line = false) ->
  json_inv (settle 0 c js).
Proof.
  unfold unsettled, json_inv. simpl.
  destruct (pc (inner js)) as [| | |line|[|e|]] eqn:Epc; try done.
  - intros Hd _. exists None. simpl. rewrite Epc. split; [ done | ]. auto.
  - intros Hd _. exists None. simpl. rewrite Epc. split; [ done | ]. auto.
  - intros (ys & Hy & Hd) Hb. rewrite (Hb line eq_refl).
    pose proof (decode_lines_snoc ys line _ Hd) as Hs.
    rewrite (Hb line eq_refl) in Hs.
    destruct (json_loads line) as [v|d] eqn:El; simpl; rewrite Epc, Hy, Hs.
    + exists None. split; [ done | ]. split; [ done | ].
      exists line. by rewrite (Hb line eq_refl).
    + exists (Some (d, [])). split; [ done | ]. left. by exists d, line.
  - intros Hd _. exists None. simpl. rewrite Epc. by split.
  - intros Hd _. exists None. simpl. rewrite Epc. split; [ done | ]. by right.
  - intros Hd _. exists None. simpl. rewrite Epc. split; [ done | ].
    split; [ done | ]. by split.
Qed.

Lemma unsettled_after st st' j vs :
  fresh_or_quiet st st' -> decode_lines (yielded st) = (vs, None) ->
  unsettled (mk_jstate st' j vs).
Proof.
  intros [(chunk & Epc & Hy)|(Hy & Hs & Hn)] Hd; unfold unsettled; simpl.
  - rewrite Epc. eauto.
  - rewrite Hy. destruct (pc st') as [| | |line|r]; try done.
    by destruct (Hn line).
Qed.

Lemma settle_spec fuel js :
  frame_inv h c (inner js) -> stream_inv (inner js) -> unsettled js ->
  (forall line, pc (inner js) = PCYield line ->
     (String.length (pending (inner js)) < fuel)%nat) ->
  json_inv (settle fuel c js).
Proof.
  revert js. induction fuel as [|fuel IH]; intros js Hf Hs Hu Hl.
  - apply settle_0_spec; [ done | ]. intros line E. specialize (Hl line E). lia.
  - rewrite settle_S. destruct (pc (inner js)) as [| | |line|r] eqn:Epc;
      try (apply settle_0_spec; [ done | ]; intros line' E; congruence).
    destruct (is_blank line) eqn:Eb;
      [ | apply settle_0_spec; [ done | ]; intros line' E; congruence ].
    destruct Hs as [Ha Hr].
    destruct (fresh_next c h (inner js) Hf Hr) as [Hfr Hdec]; [ eauto | ].
    apply IH.
    + by apply frame_inv_step.
    + by apply (stream_inv_step c h).
    + apply (unsettled_after (inner js)); [ done | ].
      unfold unsettled in Hu. rewrite Epc in Hu. destruct Hu as (ys & Hy & Hd).
      rewrite Hy, (decode_lines_snoc ys line _ Hd), Eb. done.
    + intros line' E. simpl in *. destruct (Hdec line' E) as [_ Hlt].
      specialize (Hl line eq_refl). lia.
Qed.

Lemma json_inv_pull js :
  frame_inv h c (inner js) -> stream_inv (inner js) ->
  pc (inner js) = PCStart \/ (exists line, pc (inner js) = PCYield line) ->
  decode_lines (yielded (inner js)) = (jyielded js, None) ->
  json_inv (pull c js).
Proof.
  intros Hf [Ha Hr] Hpc Hd. unfold pull.
  destruct (fresh_next c h (inner js) Hf Hr Hpc) as [Hfr _].
  apply settle_spec; simpl.
  - by apply frame_inv_step.
  - by apply (stream_inv_step c h).
  - by apply (unsettled_after (inner js)).
  - intros. lia.
Qed.

Lemma json_inv_jstep ev js :
  frame_inv h c (inner js) -> stream_inv (inner js) ->
  json_inv js -> json_inv (jstep c ev js).
Proof.
  intros Hf Hs Hj. pose proof Hj as (r & Hd & Hl).
  assert (forall ev', ev' = Child \/ ev' = Timer ->
            json_inv
              (let i := step c ev' (inner js) in
               match jpc js with
               | JBlocked =>
                   settle (S (String.length (pending i))) c
                     (mk_jstate i JBlocked (jyielded js))
               | _ => mk_jstate i (jpc js) (jyielded js)
               end)) as Hworld.
  { intros ev' Hev. cbv zeta. unfold link in Hl.
    destruct (jpc js) as [| |v|[|e|]] eqn:Ej.
    - destruct Hl as [Epc ->].
      destruct (idle_world c (inner js) ev' Hev) as [Hy Hp];
        [ rewrite Epc; by split | ].
      exists None. simpl. rewrite Hy, Hp. by split.
    - destruct Hl as [Epc ->]. destruct Hs as [Ha Hr].
      pose proof (fresh_world c (inner js) ev' Hev Hr Epc) as Hfr.
      apply settle_spec; simpl.
      + by apply frame_inv_step.
      + by apply (stream_inv_step c h).
      + by apply (unsettled_after (inner js)).
      + intros. lia.
    - destruct Hl as (-> & line & Epc & Hb & Hv).
      destruct (idle_world c (inner js) ev' Hev) as [Hy Hp];
        [ rewrite Epc; by split | ].
      exists None. simpl. rewrite Hy, Hp. split; [ done | ].
      split; [ done | ]. eauto.
    - destruct Hl as [-> Epc].
      destruct (idle_world c (inner js) ev' Hev) as [Hy Hp];
        [ rewrite Epc; by split | ].
      exists None. simpl. rewrite Hy, Hp. by split.
    - destruct Hl as [(d & line & -> & -> & Epc)|[-> Epc]];
        (destruct (idle_world c (inner js) ev' Hev) as [Hy Hp];
           [ rewrite Epc; by split | ]).
      + exists (Some (d, [])). simpl. rewrite Hy, Hp.
        split; [ done | ]. left. by exists d, line.
      + exists None. simpl. rewrite Hy, Hp. split; [ done | ]. by right.
    - destruct Hl as [-> Hidle].
      destruct (idle_world c (inner js) ev' Hev Hidle) as [Hy Hp].
      exists None. simpl. rewrite Hy, Hp. by split. }
  destruct ev; unfold jstep.
  - unfold link in Hl. destruct (jpc js) as [| |v|r'] eqn:Ej; try done.
    + destruct Hl as [Epc ->]. apply json_inv_pull; auto.
    + destruct Hl as (-> & line & Epc & _). apply json_inv_pull; eauto.
  - unfold link in Hl. destruct (jpc js) as [| |v|r'] eqn:Ej; try done.
    + destruct Hl as [Epc ->]. exists None. simpl. split; [ done | ].
      split; [ done | ]. rewrite Epc. by split.
    + destruct Hl as (-> & line & Epc & _). exists None. simpl.
      split; [ done | ]. split; [ done | ]. rewrite Epc. by split.
  - apply (Hworld Child). by left.
  - apply (Hworld Timer). by right.
Qed.

Lemma inner_inv_jstep ev js :
  frame_inv h c (inner js) /\ stream_inv (inner js) ->
  frame_inv h c (inner (jstep c ev js)) /\ stream_inv (inner (jstep c ev js)).
Proof.
  intros [Hf Hs]. destruct (jstep_inner c ev js) as [evs ->].
  split; [ by apply frame_inv_run | by apply (stream_inv_run c h) ].
Qed.


Lemma json_inv_init : json_inv (jinit h).
Proof. exists None. by split. Qed.

End JsonInv.

Section DecodeLinesSpec.
Context `{Platform}.

(** [decode_lines] without a failure: the values of the non-blank lines,
    in order. *)
Lemma decode_lines_all ls vs :
  decode_lines ls = (vs, None)
  <-> Forall2 decodes_to (List.filter non_blank ls) vs.
Proof.
  revert vs. induction ls as [|l ls IH]; intros vs; simpl.
  - split; [ intros [= <-]; constructor | by inversion 1 ].
  - unfold non_blank at 1. destruct (is_blank l); simpl; [ apply IH | ].
    destruct (json_loads l) as [v|d] eqn:El.
    + destruct (decode_lines ls) as [vs' r'] eqn:E. split.
      * intros [= <- ->]. constructor; [ done | by apply IH ].
      * inversion 1 as [|? w ? ws Hw Hrest]; subst.
        unfold decodes_to in Hw. rewrite El in Hw. injection Hw as <-.
        apply IH in Hrest. by injection Hrest as <- <-.
    + split; [ done | ].
      inversion 1 as [|? w ? ws Hw Hrest]; subst.
      unfold decodes_to in Hw. congruence.
Qed.

(** [decode_lines] with a failure: the values of the non-blank lines
    before the first line that does not decode, its diagnostic, and the
    lines after it. *)
Lemma decode_lines_first_bad ls vs d rest :
  decode_lines ls = (vs, Some (d, rest))
  <-> exists pre bad,
        ls = (pre ++ bad :: rest)%list /\ is_blank bad = false
        /\ json_loads bad = inr d
        /\ Forall2 decodes_to (List.filter non_blank pre) vs.
Proof.
  revert vs. induction ls as [|l ls IH]; intros vs; simpl.
  - split; [ done | ]. intros (pre & bad & E & _). by destruct pre.
  - destruct (is_blank l) eqn:Eb.
    + rewrite IH. split.
      * intros (pre & bad & -> & Hb & Hl & Hf). exists (l :: pre), bad.
        split_and!; try done. simpl. unfold non_blank at 1. by rewrite Eb.
      * intros (pre & bad & E & Hb & Hl & Hf). destruct pre as [|x pre].
        { simpl in E. injection E as -> ->. congruence. }
        simpl in E. injection E as -> ->. exists pre, bad.
        split_and!; try done. simpl in Hf. unfold non_blank at 1 in Hf.
        by rewrite Eb in Hf.
    + destruct (json_loads l) as [v|d'] eqn:El.
      * destruct (decode_lines ls) as [vs' r'] eqn:E. split.
        -- intros [= <- ->].
           destruct (proj1 (IH vs') eq_refl) as (pre & bad & -> & Hb & Hl & Hf).
           exists (l :: pre), bad. split_and!; try done. simpl.
           unfold non_blank at 1. rewrite Eb. simpl. by constructor.
        -- intros (pre & bad & E' & Hb & Hl & Hf). destruct pre as [|x pre].
           { simpl in E'. injection E' as -> ->. congruence. }
           simpl in E'. injection E' as -> ->. simpl in Hf.
           unfold non_blank at 1 in Hf. rewrite Eb in Hf. simpl in Hf.
           inversion Hf as [|? w ? ws Hw Hrest]; subst.
           unfold decodes_to in Hw. rewrite El in Hw. injection Hw as <-.
           assert ((vs', r') = (ws, Some (d, rest)))
             as E2 by (apply IH; eauto 10).
           by injection E2 as <- <-.
      * split.
        -- intros [= <- <- <-]. exists [], l. by split_and!; try constructor.
        -- intros (pre & bad & E' & Hb & Hl & Hf). destruct pre as [|x pre].
           { simpl in E'. injection E' as -> ->. simpl in Hf.
             inversion Hf; subst. congruence. }
           simpl in E'. injection E' as -> ->. simpl in Hf.
           unfold non_blank at 1 in Hf. rewrite Eb in Hf. simpl in Hf.
           inversion Hf as [|? w ? ws Hw Hrest]; subst.
           unfold decodes_to in Hw. congruence.
Qed.

End DecodeLinesSpec.



(** ** Tool lists *)

Section StripFacts.
Variable p : ascii -> bool.

Lemma lstrip_head s c r : lstrip p s = String c r -> p c = false.
Proof.
  induction s as [|d s IH]; simpl; [ done | ].
  destruct (p d) eqn:E; [ done | ]. by intros [= <- <-].
Qed.

Lemma lstrip_fixed c r : p c = false -> lstrip p (String c r) = String c r.
Proof. simpl. by intros ->. Qed.

Lemma rstrip_cons c r :
  p c = false -> rstrip p (String c r) = String c (rstrip p r).
Proof. simpl. intros ->. by rewrite andb_false_r. Qed.

Lemma rstrip_idem s : rstrip p (rstrip p s) = rstrip p s.
Proof.
  induction s as [|c s IH]; [ done | ]. simpl.
  destruct (is_empty (rstrip p s) && p c) eqn:E; [ done | ].
  simpl. by rewrite IH, E.
Qed.

Lemma contains_lstrip c s : contains c s = false -> contains c (lstrip p s) = false.
Proof.
  induction s as [|d s IH]; simpl; [ done | ].
  intros [? ?]%orb_false_iff. destruct (p d); [ by apply IH | ].
  simpl. by apply orb_false_iff.
Qed.

Lemma contains_rstrip c s : contains c s = false -> contains c (rstrip p s) = false.
Proof.
  induction s as [|d s IH]; simpl; [ done | ].
  intros [? ?]%orb_false_iff. destruct (is_empty _ && p d); [ done | ].
  simpl. apply orb_false_iff. auto.
Qed.

End StripFacts.

Section ToolFacts.

Lemma strip_empty : strip "" = "".
Proof. reflexivity. Qed.

Lemma strip_idem s : strip (strip s) = strip s.
Proof.
  unfold strip. destruct (lstrip is_space s) as [|c r] eqn:E; [ done | ].
  pose proof (lstrip_head _ _ _ _ E) as Hc.
  rewrite (rstrip_cons _ _ _ Hc), (lstrip_fixed _ _ _ Hc).
  by rewrite <- (rstrip_cons _ _ _ Hc), rstrip_idem.
Qed.

Lemma contains_strip c s : contains c s = false -> contains c (strip s) = false.
Proof. intros Hc. unfold strip. by apply contains_rstrip, contains_lstrip. Qed.

Lemma truthy_strip t : Tools.truthy (strip t) = true -> Tools.truthy t = true.
Proof. by destruct t. Qed.

Lemma str_split_not_nil sep s : Tools.str_split sep s <> [].
Proof.
  induction s as [|c s IH]; simpl; [ done | ].
  destruct (bool_decide (c = sep)); [ done | ].
  by destruct (Tools.str_split sep s).
Qed.

(** No piece of a split holds the separator. *)
Lemma str_split_pieces sep s :
  Forall (fun w => contains sep w = false) (Tools.str_split sep s).
Proof.
  induction s as [|c s IH]; simpl; [ by repeat constructor | ].
  destruct (bool_decide (c = sep)) eqn:E; [ by constructor | ].
  destruct (Tools.str_split sep s) as [|w ws]; [ | inversion IH; subst ];
    constructor; simpl; try done; by rewrite E.
Qed.

Lemma str_split_single sep w :
  contains sep w = false -> Tools.str_split sep w = [w].
Proof.
  induction w as [|c w IH]; simpl; [ done | ].
  intros [-> Hw]%orb_false_iff. by rewrite (IH Hw).
Qed.

Lemma str_split_app sep w s :
  contains sep w = false ->
  Tools.str_split sep (w +:+ String sep s) = w :: Tools.str_split sep s.
Proof.
  induction w as [|c w IH].
  - intros _. rewrite str_app_nil_l. simpl. by rewrite bool_decide_eq_true_2.
  - simpl. intros [Hc Hw]%orb_false_iff. rewrite ?str_app_cons. simpl.
    by rewrite Hc, (IH Hw).
Qed.

Lemma str_split_concat ws :
  ws <> [] -> Forall (fun w => contains Tools.comma w = false) ws ->
  Tools.str_split Tools.comma (String.concat "," ws) = ws.
Proof.
  induction ws as [|w ws IH]; [ done | ]. intros _ Hws.
  inversion Hws as [|? ? Hw Hws']; subst.
  destruct ws as [|w' ws].
  - simpl. by apply str_split_single.
  - change (String.concat "," (w :: w' :: ws))
      with (w +:+ "," +:+ String.concat "," (w' :: ws)).
    rewrite str_app_cons, str_app_nil_l.
    rewrite (str_split_app _ _ _ Hw). f_equal. by apply IH.
Qed.

Lemma filter_truthy_strip tools :
  List.filter (fun t => Tools.truthy (strip t)) (List.filter Tools.truthy tools)
  = List.filter (fun t => Tools.truthy (strip t)) tools.
Proof.
  induction tools as [|t tools IH]; [ done | ]. simpl.
  destruct (Tools.truthy t) eqn:Et; simpl; rewrite IH; [ done | ].
  by destruct t.
Qed.

Lemma Forall_filter_bool {A} (P : A -> Prop) (f : A -> bool) l :
  Forall P l -> Forall P (List.filter f l).
Proof.
  induction 1 as [|x l Hx Hl IH]; simpl; [ done | ].
  destruct (f x); [ by constructor | done ].
Qed.

(** What parsing a formatted list gives, for names without commas. *)
Lemma parse_format tools :
  Forall (fun t => contains Tools.comma t = false) tools ->
  Tools.parse_tool_string (Tools.format_allowed_tools tools)
  = map strip (List.filter (fun t => Tools.truthy (strip t)) tools).
Proof.
  intros Hc. unfold Tools.parse_tool_string, Tools.format_allowed_tools.
  destruct (List.filter Tools.truthy tools) as [|w ws] eqn:E.
  - rewrite <- (filter_truthy_strip tools), E. reflexivity.
  - rewrite str_split_concat; [ | done | ].
    + by rewrite <- (filter_truthy_strip tools), E.
    + rewrite <- E. by apply Forall_filter_bool.
Qed.

Lemma clean_tool_spec t :
  clean_tool t = true
  <-> Tools.truthy t = true /\ strip t = t /\ contains Tools.comma t = false.
Proof.
  unfold clean_tool.
  rewrite !andb_true_iff, bool_decide_eq_true, negb_true_iff. tauto.
Qed.

Lemma filter_clean tools :
  forallb clean_tool tools = true ->
  map strip (List.filter (fun t => Tools.truthy (strip t)) tools) = tools.
Proof.
  induction tools as [|t tools IH]; [ done | ]. simpl.
  intros [Ht Hts]%andb_true_iff. apply clean_tool_spec in Ht as (Ht & Hs & _).
  rewrite Hs, Ht. simpl. by rewrite Hs, (IH Hts).
Qed.

Lemma clean_no_comma tools :
  forallb clean_tool tools = true ->
  Forall (fun t => contains Tools.comma t = false) tools.
Proof.
  induction tools as [|t tools IH]; [ done | ]. simpl.
  intros [Ht Hts]%andb_true_iff. apply clean_tool_spec in Ht as (_ & _ & Hc).
  constructor; auto.
Qed.

Lemma parse_clean s : forallb clean_tool (Tools.parse_tool_string s) = true.
Proof.
  unfold Tools.parse_tool_string.
  pose proof (str_split_pieces Tools.comma s) as Hp.
  induction Hp as [|w ws Hw _ IH]; [ done | ]. simpl.
  destruct (Tools.truthy (strip w)) eqn:Et; [ | done ]. simpl.
  rewrite IH, andb_true_r. apply clean_tool_spec. split_and!.
  - done.
  - apply strip_idem.
  - by apply contains_strip.
Qed.

End ToolFacts.

(** X1. Parsing the text [format_allowed_tools] makes of a list of tool
    names without commas gives the names back with the white space around
    them removed and the empty and blank ones left out; a list of clean
    names comes back unchanged. *)
Theorem parse_tool_string_format_allowed_tools (tools : list string) :
  Forall (fun t => contains Tools.comma t = false) tools ->
  Tools.parse_tool_string (Tools.format_allowed_tools tools)
  = map strip (List.filter (fun t => Tools.truthy (strip t)) tools)
  /\ (forallb clean_tool tools = true ->
      Tools.parse_tool_string (Tools.format_allowed_tools tools) = tools).
Proof.
  intros Hc. split; [ by apply parse_format | ].
  intros Hclean. by rewrite parse_format, filter_clean.
Qed.

Lemma parse_tool_string_format_allowed_tools_witness :
  Tools.parse_tool_string (Tools.format_allowed_tools ["Bash"; ""; " Glob "])
  = ["Bash"; "Glob"]
  /\ Tools.parse_tool_string (Tools.format_allowed_tools ["Bash"; "Grep"])
     = ["Bash"; "Grep"].
Proof.
  split.
  - apply (parse_tool_string_format_allowed_tools ["Bash"; ""; " Glob "]).
    by repeat constructor.
  - apply (parse_tool_string_format_allowed_tools ["Bash"; "Grep"]);
      by repeat constructor.
Defined.

(** X2. Whatever the text, the names [parse_tool_string] returns are
    clean: none is empty, none has white space around it and none holds
    a comma.  Formatting and parsing them again changes nothing. *)
Theorem parse_tool_string_normal_form (tool_str : string) :
  forallb clean_tool (Tools.parse_tool_string tool_str) = true
  /\ Tools.parse_tool_string
       (Tools.format_allowed_tools (Tools.parse_tool_string tool_str))
     = Tools.parse_tool_string tool_str.
Proof.
  split; [ apply parse_clean | ].
  rewrite parse_format; [ apply filter_clean, parse_clean | ].
  apply clean_no_comma, parse_clean.
Qed.

(** ** Authentication *)

Section AuthFacts.

Implicit Types (self : Auth.AuthProvider).


Lemma truthy_str_default s :
  truthy_str s = true -> Some (default "" s) = s /\ default "" s <> "".
Proof. by destruct s as [[|c k]|]. Qed.

Lemma validate_present self :
  Auth._validate self = Return tt <-> credentials_present self = true.
Proof.
  unfold Auth._validate, credentials_present.
  destruct (Auth.auth_type self); simpl;
    destruct (truthy_str (Auth.api_key self)),
             (truthy_str (Auth.region self)),
             (truthy_str (Auth.project_id self)); simpl; split; congruence.
Qed.

Lemma validate_absent self :
  credentials_present self = false ->
  exists text, Auth._validate self
               = Raise (plain_exc AuthenticationError text).
Proof.
  unfold Auth._validate, credentials_present.
  destruct (Auth.auth_type self); simpl;
    destruct (truthy_str (Auth.api_key self)),
             (truthy_str (Auth.region self)),
             (truthy_str (Auth.project_id self)); simpl;
    try done; intros _; by eexists.
Qed.

Lemma update_present environ self :
  credentials_present self = true ->
  Auth.update_from_environment environ self
  = Auth.set_model (resolved_model environ (Auth.model self)) self.
Proof.
  unfold credentials_present, Auth.update_from_environment, resolved_model.
  destruct self as [t k r p m]. simpl.
  destruct t; simpl; intros Hc.
  - rewrite Hc. simpl. by destruct (truthy_str m).
  - rewrite Hc. simpl. by destruct (truthy_str m).
  - apply andb_true_iff in Hc as [Hr Hp]. rewrite Hr. simpl. rewrite Hp.
    simpl. by destruct (truthy_str m).
Qed.

End AuthFacts.

Lemma validated_provider_env (self : Auth.AuthProvider) :
  Auth._validate self = Return tt ->
  let env := Auth.get_environment self in
  (forall k v, env !! k = Some v -> v <> "")
  /\ env !! "ANTHROPIC_MODEL"
     = (if truthy_str (Auth.model self) then Auth.model self else None)
  /\ match Auth.auth_type self with
     | Auth.ANTHROPIC_API =>
         env !! "ANTHROPIC_API_KEY" = Auth.api_key self
         /\ env !! "CLAUDE_CODE_USE_BEDROCK" = None
         /\ env !! "CLAUDE_CODE_USE_VERTEX" = None
     | Auth.AWS_BEDROCK =>
         env !! "CLAUDE_CODE_USE_BEDROCK" = Some "1"
         /\ env !! "AWS_REGION" = Auth.region self
         /\ env !! "ANTHROPIC_API_KEY" = None
         /\ env !! "CLAUDE_CODE_USE_VERTEX" = None
     | Auth.GOOGLE_VERTEX =>
         env !! "CLAUDE_CODE_USE_VERTEX" = Some "1"
         /\ env !! "CLOUD_ML_REGION" = Auth.region self
         /\ env !! "ANTHROPIC_VERTEX_PROJECT_ID" = Auth.project_id self
         /\ env !! "ANTHROPIC_API_KEY" = None
         /\ env !! "CLAUDE_CODE_USE_BEDROCK" = None
     end.
Proof.
  intros Hv%validate_present env. subst env.
  unfold credentials_present in Hv. unfold Auth.get_environment.
  destruct self as [t k r p m]. simpl in *.
  assert (forall (e : gmap string string),
            (forall a b, e !! a = Some b -> b <> "") ->
            forall a b,
              (if truthy_str m then <["ANTHROPIC_MODEL" := default "" m]> e
               else e) !! a = Some b -> b <> "") as Hm.
  { intros e He a b. destruct (truthy_str m) eqn:Em; [ | apply He ].
    destruct (decide (a = "ANTHROPIC_MODEL")) as [->|Hne].
    - rewrite lookup_insert_eq. intros [= <-].
      by apply truthy_str_default in Em as [_ ?].
    - rewrite lookup_insert_ne by done. apply He. }
  assert (forall (e : gmap string string),
            e !! "ANTHROPIC_MODEL" = None ->
            (if truthy_str m then <["ANTHROPIC_MODEL" := default "" m]> e
             else e) !! "ANTHROPIC_MODEL"
            = (if truthy_str m then m else None)) as Hmm.
  { intros e He. destruct (truthy_str m) eqn:Em; [ | done ].
    rewrite lookup_insert_eq. by apply truthy_str_default in Em as [? _]. }
  assert (forall (e : gmap string string) a,
            a <> "ANTHROPIC_MODEL" ->
            (if truthy_str m then <["ANTHROPIC_MODEL" := default "" m]> e
             else e) !! a = e !! a) as Hmo.
  { intros e a Ha. destruct (truthy_str m); [ | done ].
    by rewrite lookup_insert_ne. }
  destruct t; simpl.
  - destruct (truthy_str_default _ Hv) as [Hk Hk']. rewrite Hv.
    split_and!.
    + apply Hm. intros a b.
      destruct (decide (a = "ANTHROPIC_API_KEY")) as [->|Hne].
      * rewrite lookup_insert_eq. by intros [= <-].
      * by rewrite lookup_insert_ne.
    + by apply Hmm.
    + by rewrite Hmo, lookup_insert_eq.
    + by rewrite Hmo.
    + by rewrite Hmo.
  - destruct (truthy_str_default _ Hv) as [Hk Hk']. rewrite Hv.
    split_and!.
    + apply Hm. intros a b.
      destruct (decide (a = "AWS_REGION")) as [->|Hne].
      * rewrite lookup_insert_eq. by intros [= <-].
      * rewrite lookup_insert_ne by done.
        destruct (decide (a = "CLAUDE_CODE_USE_BEDROCK")) as [->|Hne'].
        -- rewrite lookup_insert_eq. by intros [= <-].
        -- by rewrite lookup_insert_ne.
    + by apply Hmm.
    + by rewrite Hmo.
    + by rewrite Hmo, lookup_insert_eq.
    + by rewrite Hmo.
    + by rewrite Hmo.
  - apply andb_true_iff in Hv as [Hr Hp].
    destruct (truthy_str_default _ Hr) as [Hk Hk'].
    destruct (truthy_str_default _ Hp) as [Hq Hq']. rewrite Hr, Hp.
    split_and!.
    + apply Hm. intros a b.
      destruct (decide (a = "ANTHROPIC_VERTEX_PROJECT_ID")) as [->|Hne].
      * rewrite lookup_insert_eq. by intros [= <-].
      * rewrite lookup_insert_ne by done.
        destruct (decide (a = "CLOUD_ML_REGION")) as [->|Hne'].
        -- rewrite lookup_insert_eq. by intros [= <-].
        -- rewrite lookup_insert_ne by done.
           destruct (decide (a = "CLAUDE_CODE_USE_VERTEX")) as [->|Hne''].
           ++ rewrite lookup_insert_eq. by intros [= <-].
           ++ by rewrite lookup_insert_ne.
    + by apply Hmm.
    + by rewrite Hmo.
    + by rewrite Hmo.
    + by rewrite Hmo, lookup_insert_eq.
    + by rewrite Hmo.
    + by rewrite Hmo.
Qed.


(** X3. The environment of a provider that passed validation selects one
    backend only and carries the credentials of that backend; no variable
    in it is empty. *)
Theorem validated_provider_environment (self : Auth.AuthProvider) :
  Auth._validate self = Return tt ->
  let env := Auth.get_environment self in
  (forall k v, env !! k = Some v -> v <> "")
  /\ env !! "ANTHROPIC_MODEL"
     = (if truthy_str (Auth.model self) then Auth.model self else None)
  /\ match Auth.auth_type self with
     | Auth.ANTHROPIC_API =>
         env !! "ANTHROPIC_API_KEY" = Auth.api_key self
         /\ env !! "CLAUDE_CODE_USE_BEDROCK" = None
         /\ env !! "CLAUDE_CODE_USE_VERTEX" = None
     | Auth.AWS_BEDROCK =>
         env !! "CLAUDE_CODE_USE_BEDROCK" = Some "1"
         /\ env !! "AWS_REGION" = Auth.region self
         /\ env !! "ANTHROPIC_API_KEY" = None
         /\ env !! "CLAUDE_CODE_USE_VERTEX" = None
     | Auth.GOOGLE_VERTEX =>
         env !! "CLAUDE_CODE_USE_VERTEX" = Some "1"
         /\ env !! "CLOUD_ML_REGION" = Auth.region self
         /\ env !! "ANTHROPIC_VERTEX_PROJECT_ID" = Auth.project_id self
         /\ env !! "ANTHROPIC_API_KEY" = None
         /\ env !! "CLAUDE_CODE_USE_BEDROCK" = None
     end.
Proof. apply validated_provider_env. Qed.

Lemma validated_provider_environment_witness :
  Auth.get_environment Demo.demo_provider !! "ANTHROPIC_API_KEY"
  = Some "sk-1"
  /\ Auth.get_environment Demo.demo_provider !! "CLAUDE_CODE_USE_BEDROCK"
     = None.
Proof.
  destruct (validated_provider_environment Demo.demo_provider eq_refl)
    as (_ & _ & Hk & Hb & _).
  split; [ exact Hk | exact Hb ].
Defined.

(** X4. On a provider that passed validation [update_from_environment]
    never takes a credential from the environment: it leaves the key, the
    region and the project alone and only fills in a missing model, from
    [ANTHROPIC_MODEL] or with the default.  The provider is still valid
    afterwards and has a model. *)
Theorem update_from_environment_validated
    (environ : gmap string string) (self : Auth.AuthProvider) :
  Auth._validate self = Return tt ->
  let self' := Auth.update_from_environment environ self in
  self' = Auth.set_model (resolved_model environ (Auth.model self)) self
  /\ Auth.api_key self' = Auth.api_key self
  /\ Auth.region self' = Auth.region self
  /\ Auth.project_id self' = Auth.project_id self
  /\ Auth._validate self' = Return tt
  /\ is_Some (Auth.model self').
Proof.
  intros Hv self'. subst self'. pose proof Hv as Hp%validate_present.
  rewrite (update_present environ self Hp). split_and!; try done.
  simpl. unfold resolved_model. destruct (truthy_str (Auth.model self)) eqn:E.
  - by destruct (Auth.model self).
  - done.
Qed.

Lemma update_from_environment_validated_witness :
  Auth.api_key
    (Auth.update_from_environment Demo.demo_environ Demo.demo_provider)
  = Some "sk-1"
  /\ Auth.model
       (Auth.update_from_environment Demo.demo_environ Demo.demo_provider)
     = Some "env-model".
Proof.
  destruct (update_from_environment_validated Demo.demo_environ
              Demo.demo_provider eq_refl) as (E & Hk & _).
  split; [ exact Hk | ]. rewrite E. reflexivity.
Defined.

(** ** [Conversation.send] *)

Section SendFacts.
Context `{Platform}.

Implicit Types (h : gmap loc (gmap string string)) (self : Conversation).
Implicit Types (prompt : string).

Lemma is_blank_empty prompt : is_empty prompt = true -> is_blank prompt = true.
Proof. by destruct prompt. Qed.

Lemma prompt_check prompt : is_empty prompt || is_blank prompt = is_blank prompt.
Proof.
  destruct (is_empty prompt) eqn:E; [ | done ].
  by rewrite (is_blank_empty _ E).
Qed.

Lemma limit_check self :
  truthy_int (max_turns self) && (default 0 (max_turns self) <=? turn_count self)
  = limit_reached self.
Proof. unfold limit_reached, truthy_int. by destruct (max_turns self). Qed.

Lemma validate_prompt_refused self prompt :
  refused self prompt = true <-> is_Some (validate_prompt self prompt).
Proof.
  unfold refused, validate_prompt. rewrite prompt_check, limit_check.
  destruct (is_blank prompt), (limit_reached self); simpl; split;
    try done; try (by intros [? [=]]); eauto.
Qed.

Lemma validate_prompt_class self prompt e :
  validate_prompt self prompt = Some e -> exc_cls e = ValidationError.
Proof.
  unfold validate_prompt.
  destruct (_ || _); [ by intros [= <-] | ].
  destruct (_ && _); [ by intros [= <-] | done ].
Qed.

(** [send] makes the checks of [validate_prompt]. *)
Lemma send_validate h self prompt :
  send h self prompt
  = match validate_prompt self prompt with
    | Some e => (h, self, Raise e)
    | None =>
        let r := run_command h (_build_command self prompt)
                   (Some (_get_env self)) (Conv.timeout self) (Some prompt) in
        match r.2 with
        | Raise e => (r.1, self, Raise e)
        | Return (exit_code, stdout, stderr) =>
            if negb (exit_code =? 0) then
              (r.1, self,
               Raise (ExecutionError_init ExecutionError
                        ("Claude Code failed with exit code "
                         +:+ pretty exit_code)
                        (Some exit_code) (Some stdout) (Some stderr)))
            else (r.1, bump_turn_count self, Return stdout)
        end
    end.
Proof.
  unfold send, validate_prompt.
  destruct (_ || _); [ done | ]. by destruct (_ && _).
Qed.

Lemma send_not_refused h self prompt :
  refused self prompt = false ->
  send h self prompt
  = let r := run_command h (_build_command self prompt)
               (Some (_get_env self)) (Conv.timeout self) (Some prompt) in
    match r.2 with
    | Raise e => (r.1, self, Raise e)
    | Return (exit_code, stdout, stderr) =>
        if negb (exit_code =? 0) then
          (r.1, self,
           Raise (ExecutionError_init ExecutionError
                    ("Claude Code failed with exit code " +:+ pretty exit_code)
                    (Some exit_code) (Some stdout) (Some stderr)))
        else (r.1, bump_turn_count self, Return stdout)
    end.
Proof.
  intros Hr. rewrite send_validate.
  destruct (validate_prompt self prompt) as [e|] eqn:E; [ | done ].
  assert (refused self prompt = true) by (apply validate_prompt_refused; eauto).
  congruence.
Qed.









Lemma run_command_raises h cmd env timeout input_data cls text out err :
  subprocess_run (run_command_call h cmd env timeout input_data)
  = RunRaises cls text out err ->
  issubclass cls TimeoutExpired = false ->
  run_command h cmd env timeout input_data
  = ((merge_env h env).1,
     Raise (if issubclass cls SubprocessError
            then ExecutionError_init ExecutionError
                   ("Error running command: " +:+ text) None None None
            else plain_exc cls text)).
Proof.
  intros Hrun Hc. unfold run_command.
  fold (run_command_call h cmd env timeout input_data).
  rewrite Hrun, Hc. by destruct (issubclass cls SubprocessError).
Qed.

Lemma run_command_timed_out h cmd env timeout input_data cls text out err :
  subprocess_run (run_command_call h cmd env timeout input_data)
  = RunRaises cls text out err ->
  issubclass cls TimeoutExpired = true ->
  run_command h cmd env timeout input_data
  = ((merge_env h env).1,
     Raise (ExecutionError_init TimeoutError
              ("Command timed out after " +:+ str_opt_int timeout
               +:+ " seconds")
              None (Some (decode_or_empty out)) (Some (decode_or_empty err)))).
Proof.
  intros Hrun Hc. unfold run_command.
  fold (run_command_call h cmd env timeout input_data).
  rewrite Hrun, Hc. do 3 f_equal.
  - by destruct out as [[|??]|].
  - by destruct err as [[|??]|].
Qed.

End SendFacts.

(** X5. [send] refuses a prompt that is empty or blank, and any prompt
    once a limit of turns other than [0] is reached: it raises a
    [ValidationError] and touches neither the conversation nor the
    environment.  Any other prompt reaches [run_command]. *)
Theorem send_refuses `{Platform} (h : gmap loc (gmap string string))
    (self : Conversation) (prompt : string) :
  (refused self prompt = true ->
   exists e, send h self prompt = (h, self, Raise e)
             /\ exc_cls e = ValidationError)
  /\ (refused self prompt = false ->
      (send h self prompt).1.1 = (merge_env h (Some (_get_env self))).1).
Proof.
  split.
  - intros [e He]%validate_prompt_refused. exists e.
    rewrite send_validate, He. split; [ done | ].
    by apply validate_prompt_class in He.
  - intros Hr. rewrite (send_not_refused h self prompt Hr). cbv zeta.
    unfold run_command.
    destruct (subprocess_run _) as [code out err|cls text out err].
    + simpl. by destruct (code =? 0).
    + destruct (issubclass cls TimeoutExpired); [ done | ].
      by destruct (issubclass cls SubprocessError).
Qed.



(** X7. A [send] whose command exits with [0] returns the decoded standard
    output and counts one turn, and the next command of the conversation
    carries [-c]. *)
Theorem send_success `{Platform} (h : gmap loc (gmap string string))
    (self : Conversation) (prompt : string) (out err : list Byte.byte) :
  refused self prompt = false ->
  0 <= turn_count self ->
  subprocess_run (send_call h self prompt) = Completed 0 out err ->
  send h self prompt
  = ((merge_env h (Some (_get_env self))).1, bump_turn_count self,
     Return (decode_utf8_replace out))
  /\ forall prompt', In "-c" (_build_command (bump_turn_count self) prompt').
Proof.
  intros Hr Ht Hrun. split.
  - rewrite (send_not_refused h self prompt Hr). cbv zeta.
    unfold send_call in Hrun.
    by rewrite (run_command_completed _ _ _ _ _ _ _ _ Hrun).
  - intros prompt'. unfold _build_command.
    assert ((0 <? turn_count (bump_turn_count self)) = true) as ->
      by (simpl; lia).
    repeat match goal with
    | |- context [if ?b then _ else _] => destruct b
    end;
    destruct (output_format (bump_turn_count self));
      rewrite ?in_app_iff; simpl; tauto.
Qed.

Lemma send_success_witness :
  @send Demo.answering_platform Demo.keyed_heap Demo.two_turns "ping"
  = ((merge_env Demo.keyed_heap (Some (_get_env Demo.two_turns))).1,
     bump_turn_count Demo.two_turns, Return "pong").
Proof.
  apply (@send_success Demo.answering_platform Demo.keyed_heap
           Demo.two_turns "ping" (list_byte_of_string "pong") []);
    [ reflexivity | simpl; lia | reflexivity ].
Defined.

(** X8. [send] lets every exception of [run_command] through and leaves
    the conversation as it was: a timeout arrives as a [TimeoutError]
    without exit code, another [SubprocessError] as an [ExecutionError]
    without exit code and output, and any other exception, such as the
    [OSError] of an executable that is not there, arrives unchanged and
    is no [ClaudeCodeError]. *)
Theorem send_passes_errors `{Platform} (h : gmap loc (gmap string string))
    (self : Conversation) (prompt : string) (cls : exc_class) (text : string)
    (out err : option (list Byte.byte)) :
  refused self prompt = false ->
  subprocess_run (send_call h self prompt) = RunRaises cls text out err ->
  exists e,
    send h self prompt
    = ((merge_env h (Some (_get_env self))).1, self, Raise e)
    /\ (issubclass cls TimeoutExpired = true ->
        exc_cls e = TimeoutError /\ exit_code e = None)
    /\ (issubclass cls TimeoutExpired = false ->
        issubclass cls SubprocessError = true ->
        e = ExecutionError_init ExecutionError
              ("Error running command: " +:+ text) None None None)
    /\ (issubclass cls SubprocessError = false ->
        e = plain_exc cls text
        /\ (issubclass cls ClaudeCodeError = false ->
            isinstance e ClaudeCodeError = false)).
Proof.
  intros Hr Hrun. rewrite (send_not_refused h self prompt Hr). cbv zeta.
  unfold send_call in Hrun.
  destruct (issubclass cls TimeoutExpired) eqn:Ht.
  - rewrite (run_command_timed_out _ _ _ _ _ _ _ _ _ Hrun Ht). simpl.
    eexists. split; [ reflexivity | ]. split_and!; try done.
    intros Hs. pose proof (issubclass_trans _ _ SubprocessError Ht eq_refl).
    congruence.
  - rewrite (run_command_raises _ _ _ _ _ _ _ _ _ Hrun Ht). simpl.
    eexists. split; [ reflexivity | ]. split_and!; try done.
    + by intros _ ->.
    + intros ->. done.
Qed.

Lemma send_passes_errors_witness :
  @send Demo.missing_platform Demo.keyed_heap Demo.two_turns "ping"
  = ((merge_env Demo.keyed_heap (Some (_get_env Demo.two_turns))).1,
     Demo.two_turns,
     Raise (plain_exc OSError
              "[Errno 2] No such file or directory: 'claude'")).
Proof.
  destruct (@send_passes_errors Demo.missing_platform Demo.keyed_heap
              Demo.two_turns "ping" OSError
              "[Errno 2] No such file or directory: 'claude'" None None
              eq_refl eq_refl) as (e & E & _ & _ & He).
  destruct (He eq_refl) as [-> _]. exact E.
Defined.



(** ** [Conversation.stream] *)

Section StreamConv.
Context `{Platform}.
Variable h : gmap loc (gmap string string).
Variable self : Conversation.
Variable prompt : string.

Local Abbreviation c := (stream_call self prompt).

Implicit Types (cs : cstate) (st : state).

Lemma relay_inner cs : cinner (relay cs) = cinner cs.
Proof. unfold relay. by destruct (pc (cinner cs)) as [| | | |[]]. Qed.

(** The loop body after the line generator moved from [st]. *)
Lemma relay_relays cs st :
  fresh_or_quiet st (cinner cs) -> cyielded cs = yielded st ->
  cself cs = self -> ccall cs = Some c ->
  relays self prompt (relay cs)
  /\ cpc (relay cs) = view (pc (cinner cs)).
Proof.
  intros Hf Hy Hs Hc. unfold relays. rewrite relay_inner.
  destruct Hf as [(chunk & Epc & Ey)|(Ey & Hns & Hny)].
  - unfold relay. rewrite Epc. simpl. rewrite ?Epc.
    split_and!; try done; [ congruence | by left ].
  - unfold relay. destruct (pc (cinner cs)) as [| | |chunk|[|e|]] eqn:Epc;
      simpl; rewrite ?Epc; try done;
      try (split_and!; try done; try congruence; by left).
Qed.

Lemma step_start_world st ev :
  frame_inv h c st -> pc st = PCStart -> ev = Child \/ ev = Timer ->
  step c ev st = st.
Proof. intros [Hs _] Epc [-> | ->]; by rewrite (Hs Epc). Qed.

Lemma step_next_waits st :
  pc st = PCReading \/ pc st = PCWaiting -> step c Next st = st.
Proof. intros [E|E]; unfold step; by rewrite E. Qed.

Lemma relays_init : relays self prompt (cinit h self).
Proof. unfold relays. simpl. split_and!; try done. by left. Qed.

Lemma relays_step ev cs :
  relays self prompt cs ->
  frame_inv h c (cinner cs) -> stream_inv (cinner cs) ->
  relays self prompt (stream_step prompt ev cs)
  /\ frame_inv h c (cinner (stream_step prompt ev cs))
  /\ stream_inv (cinner (stream_step prompt ev cs)).
Proof.
  intros Hrel0 Hf Hi. pose proof Hrel0 as (Hy & Hs & Hn & Hc & Hv).
  pose proof Hi as [_ Hr].
  assert (forall ev', frame_inv h c (step c ev' (cinner cs))
                      /\ stream_inv (step c ev' (cinner cs))) as Hstep.
  { intros ev'. split; [ by apply frame_inv_step
                       | by apply (stream_inv_step c h) ]. }
  destruct ev; unfold stream_step.
  - (* Next *)
    destruct (cpc cs) as [| |chunk|r] eqn:Ecpc; try done.
    + (* first request *)
      simpl in Hs. rewrite Hs.
      destruct (validate_prompt self prompt) as [e|] eqn:Ev.
      * simpl. split_and!; try done.
        destruct Hv as [Hv|[[? _]|(e' & ? & ? & ?)]]; try done.
        assert (pc (cinner cs) = PCStart) as Epc
          by (by destruct (pc (cinner cs)) as [| | | |[]]).
        unfold relays. simpl. split_and!; try done. right. right. eauto.
      * destruct Hv as [Hv|[[? _]|(e' & ? & ? & ?)]]; try done.
        assert (pc (cinner cs) = PCStart) as Epc
          by (by destruct (pc (cinner cs)) as [| | | |[]]).
        destruct (fresh_next c h (cinner cs) Hf Hr (or_introl Epc)) as [Hq _].
        match goal with |- context [relay ?s] => set (cs0 := s) end.
        destruct (relay_relays cs0 (cinner cs) Hq Hy eq_refl eq_refl)
          as [Hrel _].
        rewrite relay_inner. split; [ done | apply Hstep ].
    + (* at a yield *)
      destruct Hv as [Hv|[[? _]|(e' & ? & ? & ?)]]; try done.
      assert (pc (cinner cs) = PCYield chunk) as Epc.
      { destruct (pc (cinner cs)) as [| | | |[]]; simpl in Hv; congruence. }
      rewrite Hc by (by rewrite Epc).
      destruct (fresh_next c h (cinner cs) Hf Hr
                  (or_intror (ex_intro _ chunk Epc))) as [Hq _].
      match goal with |- context [relay ?s] => set (cs0 := s) end.
      destruct (relay_relays cs0 (cinner cs) Hq Hy) as [Hrel _];
        [ subst cs0; simpl; by rewrite Hs | done | ].
      rewrite relay_inner. split; [ done | apply Hstep ].
  - (* Close *)
    destruct (cpc cs) as [| |chunk|r] eqn:Ecpc; try done.
    + unfold relays. simpl. split_and!; try done. right. left.
      destruct Hv as [Hv|[[? _]|(e' & ? & ? & ?)]]; try done.
      split; [ done | ].
      destruct (pc (cinner cs)) as [| | | |[]]; simpl in Hv; try done.
    + unfold relays. simpl. split_and!; try done. right. left.
      destruct Hv as [Hv|[[? _]|(e' & ? & ? & ?)]]; try done.
      split; [ done | ].
      destruct (pc (cinner cs)) as [| | | |[]]; simpl in Hv; try done.
  - (* Child *)
    destruct (ccall cs) as [c'|] eqn:Ecall; [ | done ].
    assert (pc (cinner cs) <> PCStart) as Hne
      by (intros E; by specialize (Hn E)).
    pose proof (Hc Hne) as [= ->].
    destruct (cpc cs) as [| |chunk|r] eqn:Ecpc.
    + exfalso. destruct Hv as [Hv|[[? _]|(e' & ? & ? & ?)]]; try done.
      destruct (pc (cinner cs)) as [| | | |[]]; simpl in Hv; try done.
    + destruct Hv as [Hv|[[? _]|(e' & ? & ? & ?)]]; try done.
      assert (pc (cinner cs) = PCReading \/ pc (cinner cs) = PCWaiting) as Epc.
      { destruct (pc (cinner cs)) as [| | | |[]]; simpl in Hv; try done;
          auto. }
      pose proof (fresh_world c (cinner cs) Child (or_introl eq_refl) Hr Epc)
        as Hq.
      match goal with |- context [relay ?s] => set (cs0 := s) end.
      destruct (relay_relays cs0 (cinner cs) Hq Hy) as [Hrel _];
        [ subst cs0; simpl; by rewrite Hs | subst cs0; simpl; first [ done | by apply Hc ] | ].
      rewrite relay_inner. split; [ done | apply Hstep ].
    + simpl. split; [ | apply Hstep ].
      assert (idle (pc (cinner cs))) as Hidle.
      { destruct Hv as [Hv|[[? Hv]|(e' & ? & ? & ?)]]; try done.
        destruct (pc (cinner cs)) as [| | | |[]]; simpl in Hv; try done. }
      destruct (idle_world c (cinner cs) Child (or_introl eq_refl) Hidle)
        as [Ey Epc].
      unfold relays. simpl. rewrite Ey, Epc.
      split_and!; try done.
    + simpl. split; [ | apply Hstep ].
      assert (idle (pc (cinner cs))) as Hidle.
      { destruct Hv as [Hv|[[? Hv]|(e' & ? & ? & ?)]]; try done.
        destruct (pc (cinner cs)) as [| | | |[]]; simpl in Hv; try done. }
      destruct (idle_world c (cinner cs) Child (or_introl eq_refl) Hidle)
        as [Ey Epc].
      unfold relays. simpl. rewrite Ey, Epc.
      split_and!; try done.
  - (* Timer *)
    destruct (ccall cs) as [c'|] eqn:Ecall; [ | done ].
    assert (pc (cinner cs) <> PCStart) as Hne
      by (intros E; by specialize (Hn E)).
    pose proof (Hc Hne) as [= ->].
    destruct (cpc cs) as [| |chunk|r] eqn:Ecpc.
    + exfalso. destruct Hv as [Hv|[[? _]|(e' & ? & ? & ?)]]; try done.
      destruct (pc (cinner cs)) as [| | | |[]]; simpl in Hv; try done.
    + destruct Hv as [Hv|[[? _]|(e' & ? & ? & ?)]]; try done.
      assert (pc (cinner cs) = PCReading \/ pc (cinner cs) = PCWaiting) as Epc.
      { destruct (pc (cinner cs)) as [| | | |[]]; simpl in Hv; try done;
          auto. }
      pose proof (fresh_world c (cinner cs) Timer (or_intror eq_refl) Hr Epc)
        as Hq.
      match goal with |- context [relay ?s] => set (cs0 := s) end.
      destruct (relay_relays cs0 (cinner cs) Hq Hy) as [Hrel _];
        [ subst cs0; simpl; by rewrite Hs | subst cs0; simpl; first [ done | by apply Hc ] | ].
      rewrite relay_inner. split; [ done | apply Hstep ].
    + simpl. split; [ | apply Hstep ].
      assert (idle (pc (cinner cs))) as Hidle.
      { destruct Hv as [Hv|[[? Hv]|(e' & ? & ? & ?)]]; try done.
        destruct (pc (cinner cs)) as [| | | |[]]; simpl in Hv; try done. }
      destruct (idle_world c (cinner cs) Timer (or_intror eq_refl) Hidle)
        as [Ey Epc].
      unfold relays. simpl. rewrite Ey, Epc.
      split_and!; try done.
    + simpl. split; [ | apply Hstep ].
      assert (idle (pc (cinner cs))) as Hidle.
      { destruct Hv as [Hv|[[? Hv]|(e' & ? & ? & ?)]]; try done.
        destruct (pc (cinner cs)) as [| | | |[]]; simpl in Hv; try done. }
      destruct (idle_world c (cinner cs) Timer (or_intror eq_refl) Hidle)
        as [Ey Epc].
      unfold relays. simpl. rewrite Ey, Epc.
      split_and!; try done.
Qed.

Lemma relays_run evs : forall cs,
  relays self prompt cs ->
  frame_inv h c (cinner cs) -> stream_inv (cinner cs) ->
  let cs' := fold_left (fun cs ev => stream_step prompt ev cs) evs cs in
  relays self prompt cs' /\ frame_inv h c (cinner cs')
  /\ stream_inv (cinner cs').
Proof.
  induction evs as [|ev evs IH]; intros cs Hrel Hf Hi; [ done | ].
  simpl. destruct (relays_step ev cs Hrel Hf Hi) as (? & ? & ?).
  by apply IH.
Qed.

Lemma stream_relays evs :
  relays self prompt (stream h self prompt evs)
  /\ frame_inv h c (cinner (stream h self prompt evs))
  /\ stream_inv (cinner (stream h self prompt evs)).
Proof.
  apply relays_run;
    [ apply relays_init | apply frame_inv_init | apply stream_inv_init ].
Qed.

Lemma view_inv p q : view p = CDone q -> p = PCDone q.
Proof. destruct p; simpl; congruence. Qed.

(** Without a [close] the generator shows the line generator, which gets
    every event. *)
Lemma shows_step ev cs :
  validate_prompt self prompt = None ->
  relays self prompt cs -> cpc cs = view (pc (cinner cs)) ->
  frame_inv h c (cinner cs) -> stream_inv (cinner cs) ->
  ev <> Close ->
  cinner (stream_step prompt ev cs) = step c ev (cinner cs)
  /\ cpc (stream_step prompt ev cs) = view (pc (step c ev (cinner cs))).
Proof.
  intros Hval (Hy & Hs & Hn & Hc & _) Hv Hf [_ Hr] Hev.
  assert (forall w, w = Child \/ w = Timer ->
            cinner (stream_step prompt w cs) = step c w (cinner cs)
            /\ cpc (stream_step prompt w cs)
               = view (pc (step c w (cinner cs)))) as Hworld.
  { intros w Hw.
    replace (stream_step prompt w cs)
      with (match ccall cs with
            | Some c' =>
                let cs' := mk_cstate (cself cs) (ccall cs)
                             (step c' w (cinner cs)) (cpc cs) (cyielded cs) in
                match cpc cs with
                | CBlocked => relay cs'
                | _ => cs'
                end
            | None => cs
            end) by (by destruct Hw as [-> | ->]).
    destruct (pc (cinner cs)) as [| | |chunk|r] eqn:Epc.
    - rewrite (Hn eq_refl). by rewrite (step_start_world _ w Hf Epc Hw), Epc.
    - rewrite Hc by done. cbv zeta. simpl in Hv. rewrite Hv. rewrite relay_inner.
      split; [ done | ].
      pose proof (fresh_world c (cinner cs) w Hw Hr (or_introl Epc)) as Hq.
      match goal with |- context [relay ?s] => set (cs0 := s) end.
      destruct (relay_relays cs0 (cinner cs) Hq Hy) as [_ E]; try done.
      subst cs0. simpl. by rewrite Hs, Hv.
    - rewrite Hc by done. cbv zeta. simpl in Hv. rewrite Hv. rewrite relay_inner.
      split; [ done | ].
      pose proof (fresh_world c (cinner cs) w Hw Hr (or_intror Epc)) as Hq.
      match goal with |- context [relay ?s] => set (cs0 := s) end.
      destruct (relay_relays cs0 (cinner cs) Hq Hy) as [_ E]; try done.
      subst cs0. simpl. by rewrite Hs, Hv.
    - rewrite Hc by done. cbv zeta. simpl in Hv. rewrite Hv. simpl.
      split; [ done | ].
      assert (idle (PCYield chunk)) as Hidle by done. rewrite <- Epc in Hidle.
      destruct (idle_world c (cinner cs) w Hw Hidle) as [_ ->].
      by rewrite Epc.
    - rewrite Hc by done. cbv zeta. simpl in Hv. rewrite Hv. simpl.
      split; [ done | ].
      assert (idle (PCDone r)) as Hidle by done. rewrite <- Epc in Hidle.
      destruct (idle_world c (cinner cs) w Hw Hidle) as [_ ->].
      by rewrite Epc. }
  destruct ev; [ | done | by apply Hworld; left | by apply Hworld; right ].
  unfold stream_step.
  destruct (pc (cinner cs)) as [| | |chunk|r] eqn:Epc; simpl in Hv;
    rewrite Hv.
  - rewrite Hv in Hs. simpl in Hs. rewrite Hs, Hval. rewrite relay_inner.
    split; [ done | ].
    destruct (fresh_next c h (cinner cs) Hf Hr (or_introl Epc)) as [Hq _].
    match goal with |- context [relay ?s] => set (cs0 := s) end.
    by destruct (relay_relays cs0 (cinner cs) Hq Hy) as [_ E].
  - by rewrite (step_next_waits _ (or_introl Epc)), Epc.
  - by rewrite (step_next_waits _ (or_intror Epc)), Epc.
  - rewrite Hc by done. rewrite relay_inner. split; [ done | ].
    destruct (fresh_next c h (cinner cs) Hf Hr
                (or_intror (ex_intro _ chunk Epc))) as [Hq _].
    match goal with |- context [relay ?s] => set (cs0 := s) end.
    destruct (relay_relays cs0 (cinner cs) Hq Hy) as [_ E]; try done.
    subst cs0. simpl. by rewrite Hs, Hv.
  - by rewrite (step_next_done c _ r Epc), Epc.
Qed.

Lemma shows_run evs : forall cs,
  validate_prompt self prompt = None ->
  relays self prompt cs -> cpc cs = view (pc (cinner cs)) ->
  frame_inv h c (cinner cs) -> stream_inv (cinner cs) ->
  no_close evs = true ->
  let cs' := fold_left (fun cs ev => stream_step prompt ev cs) evs cs in
  cinner cs' = run c evs (cinner cs)
  /\ cpc cs' = view (pc (cinner cs')).
Proof.
  induction evs as [|ev evs IH]; intros cs Hval Hrel Hv Hf Hi Hnc; [ done | ].
  simpl in Hnc. apply andb_true_iff in Hnc as [Hev Hnc].
  assert (ev <> Close) as Hne by (by intros ->).
  destruct (shows_step ev cs Hval Hrel Hv Hf Hi Hne) as [E1 E2].
  destruct (relays_step ev cs Hrel Hf Hi) as (Hrel' & Hf' & Hi').
  cbv zeta. rewrite run_cons, <- E1. simpl. apply IH; try done.
  by rewrite E2, E1.
Qed.

(** A prompt that is refused: nothing is started. *)
Lemma refused_step e ev cs :
  validate_prompt self prompt = Some e ->
  cinner cs = init h -> cself cs = self -> ccall cs = None ->
  cyielded cs = [] ->
  cpc cs = CStart \/ cpc cs = CDone Closed \/ cpc cs = CDone (Raised e) ->
  let cs' := stream_step prompt ev cs in
  cinner cs' = init h /\ cself cs' = self /\ ccall cs' = None
  /\ cyielded cs' = []
  /\ (cpc cs' = CStart \/ cpc cs' = CDone Closed
      \/ cpc cs' = CDone (Raised e))
  /\ (ev = Next -> cpc cs = CStart -> cpc cs' = CDone (Raised e)).
Proof.
  intros Hval Hi Hs Hc Hy Hpc. unfold stream_step.
  destruct ev; rewrite ?Hc, ?Hs, ?Hval;
    destruct Hpc as [E | [E | E]]; rewrite ?E; simpl; rewrite ?E;
    split_and!; auto; try done.
Qed.

(** A generator that is over stays as it is. *)
Lemma conv_done_stable ev cs r :
  cpc cs = CDone r ->
  cpc (stream_step prompt ev cs) = CDone r
  /\ cself (stream_step prompt ev cs) = cself cs
  /\ cyielded (stream_step prompt ev cs) = cyielded cs.
Proof.
  intros E. unfold stream_step.
  destruct ev; rewrite ?E; try done; destruct (ccall cs); by rewrite ?E.
Qed.

Lemma conv_done_run evs : forall cs r,
  cpc cs = CDone r ->
  cpc (fold_left (fun cs ev => stream_step prompt ev cs) evs cs) = CDone r.
Proof.
  induction evs as [|ev evs IH]; intros cs r E; [ done | ].
  simpl. apply IH. by apply conv_done_stable.
Qed.

Lemma refused_run e evs : forall cs,
  validate_prompt self prompt = Some e ->
  cinner cs = init h -> cself cs = self -> ccall cs = None ->
  cyielded cs = [] ->
  cpc cs = CStart \/ cpc cs = CDone Closed \/ cpc cs = CDone (Raised e) ->
  let cs' := fold_left (fun cs ev => stream_step prompt ev cs) evs cs in
  cinner cs' = init h /\ cself cs' = self /\ cyielded cs' = [].
Proof.
  induction evs as [|ev evs IH]; intros cs Hval Hi Hs Hc Hy Hpc; [ done | ].
  destruct (refused_step e ev cs Hval Hi Hs Hc Hy Hpc)
    as (? & ? & ? & ? & ? & _).
  simpl. by apply IH.
Qed.

End StreamConv.

(** X10. [Conversation.stream] hands on what [stream_command] yields.  For
    a prompt that passes the checks and a consumer that does not close
    the generator, the line generator inside is [stream_command] on the
    command, environment, timeout and prompt of the conversation under
    the same schedule; the chunks are its chunks, the generator ends as
    it ends, and one turn is counted when it returned, none otherwise. *)
Theorem stream_relays_stream_command `{Platform}
    (h : gmap loc (gmap string string)) (self : Conversation)
    (prompt : string) (evs : list event) :
  refused self prompt = false ->
  no_close evs = true ->
  let cs := stream h self prompt evs in
  let st := stream_command h (stream_call self prompt) evs in
  cinner cs = st
  /\ cyielded cs = yielded st
  /\ cpc cs = view (pc st)
  /\ cself cs = counted self (view (pc st)).
Proof.
  intros Hr Hnc cs st. subst cs st.
  assert (validate_prompt self prompt = None) as Hval.
  { destruct (validate_prompt self prompt) eqn:E; [ | done ].
    assert (refused self prompt = true)
      by (apply validate_prompt_refused; eauto). congruence. }
  destruct (stream_relays h self prompt evs) as ((Hy & Hs & _) & _ & _).
  destruct (shows_run h self prompt evs (cinit h self) Hval
              (relays_init h self prompt) eq_refl
              (frame_inv_init h _) (stream_inv_init h) Hnc) as [E1 E2].
  fold (stream h self prompt evs) in E1, E2. simpl in E1.
  fold (stream_command h (stream_call self prompt) evs) in E1.
  rewrite <- E1. split_and!; try done. by rewrite Hs, E2.
Qed.

Lemma stream_relays_stream_command_witness :
  let cs := @stream Demo.answering_platform Demo.keyed_heap
              Demo.two_turns "ping" (drain 2 2) in
  cyielded cs = ["pong"] /\ cpc cs = CDone Returned
  /\ turn_count (cself cs) = 1.
Proof.
  destruct (@stream_relays_stream_command Demo.answering_platform
              Demo.keyed_heap Demo.two_turns "ping" (drain 2 2)
              eq_refl eq_refl) as (_ & Hy & Hp & Hs).
  split_and!.
  - rewrite Hy. vm_compute. reflexivity.
  - rewrite Hp. vm_compute. reflexivity.
  - rewrite Hs. vm_compute. reflexivity.
Defined.

(** X11. [Conversation.stream] counts a turn exactly when its generator
    returned, whatever the schedule; a stream that failed, that was
    closed or that is still running counts none.  When the turn is
    counted the command has exited with [0] and the consumer has received
    every line it wrote. *)
Theorem stream_counts_turn `{Platform}
    (h : gmap loc (gmap string string)) (self : Conversation)
    (prompt : string) (evs : list event) :
  let cs := stream h self prompt evs in
  cself cs = counted self (cpc cs)
  /\ cyielded cs = yielded (cinner cs)
  /\ (cpc cs = CDone Returned ->
      exists p, proc (cinner cs) = Some p /\ p_exit p = Some 0
                /\ cyielded cs
                   = map rstrip_newline (text_lines (p_wrote_out p))).
Proof.
  intros cs. subst cs.
  destruct (stream_relays h self prompt evs)
    as ((Hy & Hs & _ & _ & Hv) & _ & [[consumed [Hc Ha]] Hr]).
  split_and!; try done. intros E. rewrite E in Hv.
  destruct Hv as [Hv|[[? _]|(e' & ? & _)]]; try done.
  symmetry in Hv. apply view_inv in Hv.
  unfold result_inv in Hr. rewrite Hv in Hr.
  destruct Hr as (p & Ep & Hx & Hout). exists p. rewrite Ep in Ha.
  destruct Ha as [Hw _]. rewrite Hout, str_app_nil_r in Hw.
  split_and!; try done. by rewrite Hy, Hc, Hw.
Qed.

Lemma stream_counts_turn_witness :
  let cs := @stream Demo.answering_platform Demo.keyed_heap
              Demo.two_turns "ping" [Next; Child; Close; Child; Next] in
  cpc cs = CDone Closed /\ turn_count (cself cs) = 0
  /\ cyielded cs = ["pong"].
Proof.
  destruct (@stream_counts_turn Demo.answering_platform Demo.keyed_heap
              Demo.two_turns "ping" [Next; Child; Close; Child; Next])
    as (Hs & _ & _).
  split_and!.
  - vm_compute. reflexivity.
  - rewrite Hs. vm_compute. reflexivity.
  - vm_compute. reflexivity.
Defined.

(** X12. [Conversation.stream] checks the prompt when its generator is
    first asked for a chunk, not when it is made.  A prompt that is
    refused makes this first request raise a [ValidationError]; no process
    is started, the environment and the conversation stay as they were
    and nothing is yielded, whatever the schedule. *)
Theorem stream_refuses `{Platform}
    (h : gmap loc (gmap string string)) (self : Conversation)
    (prompt : string) :
  refused self prompt = true ->
  cpc (stream h self prompt []) = CStart
  /\ exists e,
       exc_cls e = ValidationError
       /\ forall evs,
            cpc (stream h self prompt (Next :: evs)) = CDone (Raised e)
            /\ cinner (stream h self prompt evs) = init h
            /\ cself (stream h self prompt evs) = self
            /\ cyielded (stream h self prompt evs) = [].
Proof.
  intros [e He]%validate_prompt_refused. split; [ done | ]. exists e.
  split; [ by apply validate_prompt_class in He | ]. intros evs. split.
  - unfold stream. simpl. apply conv_done_run. by rewrite He.
  - apply (refused_run h self prompt e evs (cinit h self)); auto.
Qed.

Lemma stream_refuses_witness :
  cpc (@stream Demo.answering_platform Demo.keyed_heap Demo.two_turns
         "  " [Next; Child; Next])
  = CDone (Raised (plain_exc ValidationError "Prompt cannot be empty"))
  /\ proc (cinner (@stream Demo.answering_platform Demo.keyed_heap
                     Demo.two_turns "  " [Next; Child; Next])) = None.
Proof.
  destruct (@stream_refuses Demo.answering_platform Demo.keyed_heap
              Demo.two_turns "  " eq_refl) as (_ & e & _ & He).
  destruct (He [Next; Child; Next]) as (_ & Hi & _).
  split; [ vm_compute; reflexivity | ]. rewrite Hi. reflexivity.
Defined.

(** ** The client *)

Section ClientFacts.
Context `{Interpreter}.

Implicit Types (allowed disallowed : option (list string)).

Lemma shared_tool_spec allowed disallowed :
  shared_tool allowed disallowed = true
  <-> exists t, t ∈ default [] allowed /\ t ∈ default [] disallowed.
Proof.
  unfold shared_tool. rewrite existsb_exists. split.
  - intros (t & Hin & Ht). exists t. apply bool_decide_eq_true in Ht.
    split; [ by apply list_elem_of_In | done ].
  - intros (t & Ha & Hd). exists t.
    split; [ by apply list_elem_of_In | by apply bool_decide_eq_true ].
Qed.

Lemma overlap_empty allowed disallowed :
  overlap allowed disallowed = ∅ <-> shared_tool allowed disallowed = false.
Proof.
  unfold overlap. split.
  - intros He. destruct (shared_tool allowed disallowed) eqn:E; [ | done ].
    apply shared_tool_spec in E as (t & Ha & Hd).
    assert (t ∈ (list_to_set (default [] allowed) : gset string)
                ∩ list_to_set (default [] disallowed)) as Hin
      by (apply elem_of_intersection; by rewrite !elem_of_list_to_set).
    rewrite He in Hin. by apply not_elem_of_empty in Hin.
  - intros Hs. apply set_eq. intros t. split; [ | by intros ?%not_elem_of_empty ].
    rewrite elem_of_intersection, !elem_of_list_to_set. intros [Ha Hd].
    assert (shared_tool allowed disallowed = true)
      by (apply shared_tool_spec; eauto). congruence.
Qed.

Lemma shared_tool_truthy allowed disallowed :
  shared_tool allowed disallowed = true ->
  truthy_list allowed = true /\ truthy_list disallowed = true.
Proof.
  intros (t & Ha & Hd)%shared_tool_spec.
  destruct allowed as [[|??]|], disallowed as [[|??]|]; simpl in *;
    try done; by apply elem_of_nil in Ha || by apply elem_of_nil in Hd.
Qed.

(** The check of the tool lists raises exactly when a tool is in both. *)
Lemma check_tools_spec allowed disallowed :
  check_tools allowed disallowed
  = if shared_tool allowed disallowed
    then Raise (plain_exc ValidationError
                  ("Tools cannot be both allowed and disallowed: "
                   +:+ String.concat ", "
                         (set_iter (overlap allowed disallowed))))
    else Return tt.
Proof.
  unfold check_tools. destruct (shared_tool allowed disallowed) eqn:E.
  - destruct (shared_tool_truthy _ _ E) as [-> ->]. simpl.
    rewrite bool_decide_eq_false_2; [ done | ].
    intros He%overlap_empty. congruence.
  - destruct (truthy_list allowed && truthy_list disallowed); [ | done ].
    by rewrite bool_decide_eq_true_2 by (by apply overlap_empty).
Qed.

Lemma or_else_falsy {A} (truthy : option A -> bool) (x y : option A) :
  truthy x = false -> or_else truthy x y = y.
Proof. unfold or_else. by intros ->. Qed.

Lemma or_else_None {A} (truthy : option A -> bool) (y : option A) :
  truthy None = false -> or_else truthy None y = y.
Proof. apply or_else_falsy. Qed.

Lemma conv_init_spec provider cid allowed disallowed mt mc m t f uuid :
  Conv.__init__ provider cid allowed disallowed mt mc m t f uuid
  = if shared_tool allowed disallowed
    then Raise (plain_exc ValidationError
                  ("Tools cannot be both allowed and disallowed: "
                   +:+ String.concat ", "
                         (set_iter (overlap allowed disallowed))))
    else Return (mk_Conversation (Auth.get_environment provider)
                   (if truthy_str cid then default "" cid else uuid)
                   allowed disallowed mt mc m t f 0).
Proof.
  unfold Conv.__init__. rewrite check_tools_spec.
  by destruct (shared_tool allowed disallowed).
Qed.

End ClientFacts.

(** X13. [Conversation(...)] raises a [ValidationError] exactly when some
    tool is both in the allowed and in the disallowed list; otherwise the
    conversation has the settings given, no turn counted, and the id
    given or, when that is missing or empty, a fresh one. *)
Theorem conversation_init `{Interpreter} (provider : Auth.AuthProvider)
    (cid : option string) (allowed disallowed : option (list string))
    (mt : option Z) (mc m : option string) (t : option Z)
    (f : OutputFormat) (uuid : string) :
  ((exists tool, tool ∈ default [] allowed /\ tool ∈ default [] disallowed) ->
   exists e,
     Conv.__init__ provider cid allowed disallowed mt mc m t f uuid = Raise e
     /\ exc_cls e = ValidationError)
  /\ ((forall tool, tool ∈ default [] allowed ->
                    tool ∈ default [] disallowed -> False) ->
      Conv.__init__ provider cid allowed disallowed mt mc m t f uuid
      = Return (mk_Conversation (Auth.get_environment provider)
                  (if truthy_str cid then default "" cid else uuid)
                  allowed disallowed mt mc m t f 0)).
Proof.
  rewrite conv_init_spec. split.
  - intros Hs%shared_tool_spec. rewrite Hs. by eexists.
  - intros Hn. destruct (shared_tool allowed disallowed) eqn:E; [ | done ].
    apply shared_tool_spec in E as (tool & Ha & Hd). by destruct (Hn tool).
Qed.

Lemma conversation_init_witness :
  (exists e,
     @Conv.__init__ Demo.demo_interpreter Demo.demo_provider None
        (Some ["Bash"; "Glob"]) (Some ["Bash"]) None None None None TEXT "u1"
     = Raise e /\ exc_cls e = ValidationError)
  /\ @Conv.__init__ Demo.demo_interpreter Demo.demo_provider (Some "")
        (Some ["Bash"; "Glob"]) (Some ["Grep"]) None None None None TEXT "u1"
     = Return (mk_Conversation (Auth.get_environment Demo.demo_provider)
                 "u1" (Some ["Bash"; "Glob"]) (Some ["Grep"]) None None None
                 None TEXT 0).
Proof.
  split.
  - apply (@conversation_init Demo.demo_interpreter Demo.demo_provider
             None (Some ["Bash"; "Glob"]) (Some ["Bash"])).
    exists "Bash". simpl. split; apply elem_of_cons; by left.
  - apply (@conversation_init Demo.demo_interpreter Demo.demo_provider
             (Some "") (Some ["Bash"; "Glob"]) (Some ["Grep"])).
    intros tool Ha Hd. simpl in *.
    apply list_elem_of_singleton in Hd as ->.
    apply elem_of_cons in Ha as [Ha|Ha]; [ done | ].
    by apply list_elem_of_singleton in Ha.
Defined.

(** X14. A client is never made from credentials of the environment: when
    the key, region or project its authentication type asks for is not
    given, [ClaudeCode(...)] raises an [AuthenticationError] whatever
    [os.environ] holds.  When they are given, the client has exactly
    them, and takes from the environment only a model that was not
    given ([ANTHROPIC_MODEL], else the default); tools in both lists
    make it raise a [ValidationError]. *)
Theorem client_init `{Interpreter} (h : gmap loc (gmap string string))
    (t : Auth.AuthType) (k r p m : option string)
    (allowed disallowed : option (list string))
    (mt : option Z) (mc : option string) (timeout : option Z) :
  let provider := Auth.mk_AuthProvider t k r p m in
  let made :=
    Client.__init__ h t k r p m allowed disallowed mt mc timeout in
  (credentials_present provider = false ->
   exists text, made = Raise (plain_exc AuthenticationError text))
  /\ (credentials_present provider = true ->
      shared_tool allowed disallowed = true ->
      exists e, made = Raise e /\ exc_cls e = ValidationError)
  /\ (credentials_present provider = true ->
      shared_tool allowed disallowed = false ->
      made = Return (Client.mk_ClaudeCode
                       (Auth.set_model
                          (resolved_model (deref h os_environ) m) provider)
                       allowed disallowed mt mc timeout)).
Proof.
  intros provider made. subst made. unfold Client.__init__, Auth.__init__.
  fold provider. split_and!.
  - intros (text & ->)%validate_absent. by exists text.
  - intros Hp Hs. pose proof Hp as ->%validate_present.
    rewrite check_tools_spec, Hs. by eexists.
  - intros Hp Hs. pose proof Hp as ->%validate_present.
    rewrite check_tools_spec, Hs. by rewrite (update_present _ _ Hp).
Qed.

Lemma client_init_witness :
  (exists text,
     @Client.__init__ Demo.demo_interpreter Demo.keyed_heap
        Auth.ANTHROPIC_API None None None None None None None None None
     = Raise (plain_exc AuthenticationError text))
  /\ @Client.__init__ Demo.demo_interpreter Demo.keyed_heap
        Auth.ANTHROPIC_API (Some "sk-1") None None None None None None None
        None
     = Return (Client.mk_ClaudeCode
                 (Auth.mk_AuthProvider Auth.ANTHROPIC_API (Some "sk-1") None
                    None (Some "env-model"))
                 None None None None None).
Proof.
  split.
  - apply (@client_init Demo.demo_interpreter Demo.keyed_heap
             Auth.ANTHROPIC_API None None None None None None None None
             None). reflexivity.
  - apply (@client_init Demo.demo_interpreter Demo.keyed_heap
             Auth.ANTHROPIC_API (Some "sk-1") None None None None None None
             None None); reflexivity.
Defined.

Section ClientCalls.
Context `{Interpreter}.

Implicit Types (self : Client.ClaudeCode).

Lemma configure_spec self a d mt mc t m :
  Client.configure self a d mt mc t m
  = let self' :=
      Client.mk_ClaudeCode
        (match m with
         | Some _ => Auth.set_model m (Client.auth_provider self)
         | None => Client.auth_provider self
         end)
        (updated a (Client.allowed_tools self))
        (updated d (Client.disallowed_tools self))
        (updated mt (Client.max_turns self))
        (updated mc (Client.mcp_config self))
        (updated t (Client.timeout self)) in
    (self', check_tools (Client.allowed_tools self')
              (Client.disallowed_tools self')).
Proof.
  unfold Client.configure. destruct self as [pr al dl mx cf tm].
  by destruct a, d, mt, mc, t, m.
Qed.

Lemma start_conversation_plain self cid f uuid :
  Client.start_conversation self cid None None None None None None f uuid
  = Conv.__init__ (Client.auth_provider self) cid
      (Client.allowed_tools self) (Client.disallowed_tools self)
      (Client.max_turns self) (Client.mcp_config self)
      (Auth.model (Client.auth_provider self)) (Client.timeout self) f uuid.
Proof. reflexivity. Qed.

End ClientCalls.

(** X15. [configure] stores the settings that are not [None] before it
    checks the tool lists.  When the lists then share a tool it raises a
    [ValidationError], and the client keeps the new settings: every
    conversation started with the lists of the client fails the same
    way. *)
Theorem configure_stores_before_check `{Interpreter}
    (self : Client.ClaudeCode) (a d : option (list string)) (mt : option Z)
    (mc : option string) (t : option Z) (m : option string) :
  let r := Client.configure self a d mt mc t m in
  r.1 = Client.mk_ClaudeCode
          (match m with
           | Some _ => Auth.set_model m (Client.auth_provider self)
           | None => Client.auth_provider self
           end)
          (updated a (Client.allowed_tools self))
          (updated d (Client.disallowed_tools self))
          (updated mt (Client.max_turns self))
          (updated mc (Client.mcp_config self))
          (updated t (Client.timeout self))
  /\ (shared_tool (Client.allowed_tools r.1) (Client.disallowed_tools r.1)
      = false -> r.2 = Return tt)
  /\ (shared_tool (Client.allowed_tools r.1) (Client.disallowed_tools r.1)
      = true ->
      (exists e, r.2 = Raise e /\ exc_cls e = ValidationError)
      /\ forall cid mt' mc' m' t' f uuid,
           exists e,
             Client.start_conversation r.1 cid None None mt' mc' m' t' f uuid
             = Raise e /\ exc_cls e = ValidationError).
Proof.
  intros r. subst r. rewrite configure_spec. cbv zeta. simpl.
  split_and!; [ done | | ].
  - intros Hs. by rewrite check_tools_spec, Hs.
  - intros Hs. split.
    + rewrite check_tools_spec, Hs. by eexists.
    + intros cid mt' mc' m' t' f uuid. unfold Client.start_conversation.
      simpl. rewrite conv_init_spec.
      unfold or_else at 1 2. simpl. rewrite Hs. by eexists.
Qed.

Lemma configure_stores_before_check_witness :
  let r := @Client.configure Demo.demo_interpreter Demo.demo_client None
             (Some ["Glob"]) None None None None in
  Client.disallowed_tools r.1 = Some ["Glob"]
  /\ Client.allowed_tools r.1 = Some ["Bash"; "Glob"]
  /\ exists e, r.2 = Raise e /\ exc_cls e = ValidationError.
Proof.
  destruct (@configure_stores_before_check Demo.demo_interpreter
              Demo.demo_client None (Some ["Glob"]) None None None None)
    as (E & _ & Hs).
  split_and!.
  - rewrite E. reflexivity.
  - rewrite E. reflexivity.
  - apply Hs. rewrite E. reflexivity.
Defined.

(** X16. An override of [start_conversation] that is falsy is ignored: an
    empty list of tools, a limit or a timeout of [0] and an empty path or
    model leave the conversation with the setting of the client, as
    [None] does. *)
Theorem start_conversation_falls_back `{Interpreter}
    (self : Client.ClaudeCode) (cid : option string)
    (a d : option (list string)) (mt : option Z) (mc m : option string)
    (t : option Z) (f : OutputFormat) (uuid : string) :
  truthy_list a = false -> truthy_list d = false ->
  truthy_int mt = false -> truthy_str mc = false ->
  truthy_str m = false -> truthy_int t = false ->
  Client.start_conversation self cid a d mt mc m t f uuid
  = Client.start_conversation self cid None None None None None None f uuid
  /\ (shared_tool (Client.allowed_tools self) (Client.disallowed_tools self)
      = false ->
      Client.start_conversation self cid a d mt mc m t f uuid
      = Return (mk_Conversation
                  (Auth.get_environment (Client.auth_provider self))
                  (if truthy_str cid then default "" cid else uuid)
                  (Client.allowed_tools self) (Client.disallowed_tools self)
                  (Client.max_turns self) (Client.mcp_config self)
                  (Auth.model (Client.auth_provider self))
                  (Client.timeout self) f 0)).
Proof.
  intros Ha Hd Hmt Hmc Hm Ht.
  assert (Client.start_conversation self cid a d mt mc m t f uuid
          = Client.start_conversation self cid None None None None None
              None f uuid) as E.
  { unfold Client.start_conversation. by rewrite !or_else_falsy. }
  split; [ done | ]. intros Hs.
  by rewrite E, start_conversation_plain, conv_init_spec, Hs.
Qed.

Lemma start_conversation_falls_back_witness :
  @Client.start_conversation Demo.demo_interpreter Demo.demo_client None
     (Some []) None (Some 0) None (Some "") None TEXT "u1"
  = Return (mk_Conversation (Auth.get_environment Demo.demo_provider)
              "u1" (Some ["Bash"; "Glob"]) None None None None (Some 30)
              TEXT 0).
Proof.
  apply (@start_conversation_falls_back Demo.demo_interpreter
           Demo.demo_client None (Some []) None (Some 0) None (Some "") None
           TEXT "u1"); reflexivity.
Defined.

(** X17. [run_prompt] on a client whose tool lists share no tool, with a
    prompt that is not refused, whose command exits with [0]: the result
    is the decoded standard output, as text for the formats [TEXT] and
    [STREAM_JSON], and for [JSON] as the value it decodes to, or a
    [ValidationError] when it is not JSON.  The command is the one of a
    new conversation that has the settings of the client. *)
Theorem run_prompt_answer `{Platform} `{Interpreter}
    (h : gmap loc (gmap string string)) (self : Client.ClaudeCode)
    (prompt : string) (f : OutputFormat) (uuid : string)
    (out err : list Byte.byte) :
  let conversation := prompt_conversation self f uuid in
  shared_tool (Client.allowed_tools self) (Client.disallowed_tools self)
  = false ->
  refused conversation prompt = false ->
  subprocess_run (send_call h conversation prompt) = Completed 0 out err ->
  Client.run_prompt h self prompt f uuid
  = ((merge_env h (Some (_get_env conversation))).1,
     match f with
     | JSON =>
         match json_loads (decode_utf8_replace out) with
         | inl v => Return (inr v)
         | inr diagnostic =>
             Raise (plain_exc ValidationError
                      ("Error parsing JSON response: " +:+ diagnostic))
         end
     | _ => Return (inl (decode_utf8_replace out))
     end).
Proof.
  intros conversation Hs Hr Hrun. unfold Client.run_prompt.
  rewrite start_conversation_plain, conv_init_spec, Hs. simpl.
  fold (prompt_conversation self f uuid). fold conversation.
  rewrite (send_not_refused h conversation prompt Hr). cbv zeta.
  unfold send_call in Hrun.
  rewrite (run_command_completed _ _ _ _ _ _ _ _ Hrun). simpl.
  destruct f; try done. by destruct (json_loads _).
Qed.

Lemma run_prompt_answer_witness :
  @Client.run_prompt Demo.answering_platform Demo.demo_interpreter
     Demo.keyed_heap Demo.demo_client "ping" TEXT "u1"
  = ((merge_env Demo.keyed_heap
        (Some (_get_env (prompt_conversation Demo.demo_client TEXT "u1")))).1,
     Return (inl "pong")).
Proof.
  apply (@run_prompt_answer Demo.answering_platform
           Demo.demo_interpreter Demo.keyed_heap Demo.demo_client
           "ping" TEXT "u1" (list_byte_of_string "pong") []); reflexivity.
Defined.

(** X18. [load_mcp_config] stores the path exactly when the file is there,
    can be read and decodes to a JSON object with the key [mcpServers];
    in every other case it raises and leaves the client as it was.  Once
    a path is stored, the command of every conversation the client starts
    without a path of its own ends with [--mcp-config] and that path. *)
Theorem load_mcp_config_checks `{Platform} `{Interpreter}
    (self : Client.ClaudeCode) (config_path : string) :
  (mcp_ok config_path = true ->
   Client.load_mcp_config self config_path
   = (Client.set_mcp_config (Some config_path) self, Return tt))
  /\ (mcp_ok config_path = false ->
      exists e, Client.load_mcp_config self config_path = (self, Raise e))
  /\ (path_exists config_path = false ->
      exists e, Client.load_mcp_config self config_path = (self, Raise e)
                /\ exc_cls e = ValidationError)
  /\ (forall text, read_text config_path = inl text ->
                   mcp_ok config_path = false ->
                   exists e,
                     Client.load_mcp_config self config_path
                     = (self, Raise e)
                     /\ exc_cls e = ValidationError)
  /\ (mcp_ok config_path = true -> config_path <> "" ->
      shared_tool (Client.allowed_tools self) (Client.disallowed_tools self)
      = false ->
      forall cid f uuid prompt,
        exists conversation pre,
          Client.start_conversation
            (Client.load_mcp_config self config_path).1 cid None None None
            None None None f uuid
          = Return conversation
          /\ _build_command conversation prompt
             = (pre ++ ["--mcp-config"; config_path])%list).
Proof.
  assert (mcp_ok config_path = true ->
          Client.load_mcp_config self config_path
          = (Client.set_mcp_config (Some config_path) self, Return tt))
    as Hok.
  { unfold mcp_ok, Client.load_mcp_config.
    destruct (path_exists config_path); [ | done ]. simpl.
    destruct (read_text config_path) as [text|e]; [ | done ].
    destruct (json_loads text) as [config|d]; [ | done ].
    by intros ->. }
  split_and!; [ done | | | | ].
  - unfold mcp_ok, Client.load_mcp_config.
    destruct (path_exists config_path); simpl; [ | by eexists ].
    destruct (read_text config_path) as [text|e].
    + destruct (json_loads text) as [config|d]; [ | by eexists ].
      destruct (Client.has_mcp_servers config); [ done | by eexists ].
    + destruct (except_catches JSONDecodeError e); by eexists.
  - unfold Client.load_mcp_config. intros ->. by eexists.
  - intros text Ht. unfold mcp_ok, Client.load_mcp_config. rewrite Ht.
    destruct (path_exists config_path); simpl; [ | by eexists ].
    destruct (json_loads text) as [config|d]; [ | by eexists ].
    destruct (Client.has_mcp_servers config); [ done | by eexists ].
  - intros Hm Hne Hs cid f uuid prompt. rewrite (Hok Hm). simpl.
    rewrite start_conversation_plain, conv_init_spec. simpl. rewrite Hs.
    eexists. eexists. split; [ reflexivity | ].
    unfold _build_command. simpl.
    assert (truthy_str (Some config_path) = true) as ->
      by (by destruct config_path).
    reflexivity.
Qed.

Lemma load_mcp_config_checks_witness :
  @Client.load_mcp_config Demo.mcp_platform Demo.demo_interpreter
     Demo.demo_client "mcp.json"
  = (Client.set_mcp_config (Some "mcp.json") Demo.demo_client, Return tt)
  /\ exists e,
       @Client.load_mcp_config Demo.mcp_platform Demo.demo_interpreter
          Demo.demo_client "none.json"
       = (Demo.demo_client, Raise e)
       /\ exc_cls e = ValidationError.
Proof.
  destruct (@load_mcp_config_checks Demo.mcp_platform
              Demo.demo_interpreter Demo.demo_client "mcp.json")
    as (Hok & _).
  destruct (@load_mcp_config_checks Demo.mcp_platform
              Demo.demo_interpreter Demo.demo_client "none.json")
    as (_ & _ & Hno & _).
  split; [ apply Hok; reflexivity | apply Hno; reflexivity ].
Defined.

(** ** Streaming mode: what holds on every schedule *)

Section Cleanup.
Context `{Platform}.
Variable h : gmap loc (gmap string string).
Variable c : call.

Implicit Types (st : state) (p : process).

Lemma reaped_set_returncode st p code :
  p_exit p = Some code ->
  reaped (set_proc (Some (set_returncode (Some code) p)) st) = true.
Proof.
  intros Ex. unfold reaped. simpl. apply bool_decide_eq_true.
  rewrite Ex. split; [ eauto | done ].
Qed.





Lemma keeps_gone_ensure_dead : keeps_gone ensure_dead.
Proof.
  intros p code Ex Er. unfold ensure_dead, poll. rewrite Ex. simpl. done.
Qed.











(** An error of a command that was started is an [ExecutionError] with
    the exit code of the process, never a [TimeoutError]. *)
Lemma stream_error_class evs e p :
  pc (stream_command h c evs) = PCDone (Raised e) ->
  proc (stream_command h c evs) = Some p ->
  exc_cls e = ExecutionError /\ isinstance e TimeoutError = false
  /\ exit_code e = p_exit p /\ p_exit p <> Some 0.
Proof.
  intros Epc Ep. destruct (stream_command_inv h c evs) as (_ & [_ Hr] & _).
  unfold result_inv in Hr. rewrite Epc, Ep in Hr.
  destruct Hr as (code & Ex & Hne & _ & ->). rewrite Ex.
  split_and!; try done. congruence.
Qed.

End Cleanup.







Section Finished.
Context `{Platform}.
Variable c : call.

Implicit Types (st : state).

(** A generator that is over stays as it is; only the world around it
    goes on. *)
Lemma done_step ev st r :
  pc st = PCDone r ->
  pc (step c ev st) = PCDone r /\ yielded (step c ev st) = yielded st
  /\ stdin_file (step c ev st) = stdin_file st
  /\ (proc st = None -> proc (step c ev st) = None).
Proof.
  intros E. unfold step, resume.
  destruct ev; rewrite ?E; try done.
  - simpl. rewrite E. simpl. split_and!; try done. by intros ->.
  - destruct (timer st) as [[]|]; try done. simpl. rewrite E. simpl.
    split_and!; try done. by intros ->.
Qed.

Lemma done_run evs : forall st r,
  pc st = PCDone r ->
  pc (run c evs st) = PCDone r /\ yielded (run c evs st) = yielded st
  /\ stdin_file (run c evs st) = stdin_file st
  /\ (proc st = None -> proc (run c evs st) = None).
Proof.
  induction evs as [|ev evs IH]; intros st r E; [ done | ].
  rewrite run_cons. destruct (done_step ev st r E) as (E1 & E2 & E3 & E4).
  destruct (IH _ r E1) as (? & ? & ? & ?).
  split_and!; try congruence. auto.
Qed.

Lemma not_execution_error cls :
  issubclass cls ExecutionError = false -> issubclass cls TimeoutError = false.
Proof.
  intros Hn. destruct (issubclass cls TimeoutError) eqn:E; [ | done ].
  pose proof (issubclass_trans _ _ ExecutionError E eq_refl). congruence.
Qed.

(** The first request of a command that cannot be started. *)
Lemma start_spawn_fails h cls text :
  popen (c_cmd c) (merged_env h c) (stdin_of_call c) = SpawnRaises cls text ->
  issubclass cls PyException = true ->
  issubclass cls ExecutionError = false ->
  pc (start c (init h)) = PCDone (Raised (wrapped text))
  /\ proc (start c (init h)) = None
  /\ yielded (start c (init h)) = []
  /\ store_released (start c (init h)) = true.
Proof.
  intros Hp Hc Hn. unfold start. simpl.
  replace (popen_stdin _) with (stdin_of_call c)
    by (unfold stdin_of_call; by destruct (truthy_str (c_input c))).
  rewrite Hp. unfold raise_in_try, except_catches, except_handler_exc,
    isinstance. simpl. rewrite Hc, Hn, (not_execution_error _ Hn). simpl.
  split_and!; try done.
  unfold store_released. simpl. by destruct (truthy_str (c_input c)).
Qed.

End Finished.

(** X22. When the command cannot be started, the first request of the
    line generator raises an [ExecutionError] that wraps the text of the
    exception of [Popen] and has neither exit code nor output; there is
    no process, nothing is yielded and the temporary file of the prompt
    is closed, whatever happens afterwards. *)
Theorem stream_command_spawn_failure `{Platform}
    (h : gmap loc (gmap string string)) (c : call) (cls : exc_class)
    (text : string) (evs : list event) :
  popen (c_cmd c) (merged_env h c) (stdin_of_call c) = SpawnRaises cls text ->
  issubclass cls PyException = true ->
  issubclass cls ExecutionError = false ->
  let st := stream_command h c (Next :: evs) in
  pc st = PCDone (Raised (wrapped text))
  /\ proc st = None /\ yielded st = [] /\ store_released st = true
  /\ exit_code (wrapped text) = None /\ stdout (wrapped text) = None
  /\ stderr (wrapped text) = None.
Proof.
  intros Hp Hc Hn st. subst st. unfold stream_command.
  rewrite run_cons, step_next_init.
  destruct (start_spawn_fails c h cls text Hp Hc Hn) as (E1 & E2 & E3 & E4).
  destruct (done_run c evs _ _ E1) as (F1 & F2 & F3 & F4).
  split_and!; try done; try congruence; auto.
  unfold store_released in *. by rewrite F3.
Qed.

Lemma stream_command_spawn_failure_witness :
  pc (@stream_command Demo.demo_platform Demo.demo_heap
        (mk_call ["claude"] None None (Some "hi")) [Next; Child; Next])
  = PCDone (Raised (wrapped "[Errno 2] No such file or directory")).
Proof.
  apply (@stream_command_spawn_failure Demo.demo_platform Demo.demo_heap
           (mk_call ["claude"] None None (Some "hi")) OSError
           "[Errno 2] No such file or directory" [Child; Next]);
    reflexivity.
Defined.

(** X23. The two modes disagree on a command that cannot be started, such
    as an executable that is not there: [run_command] lets the [OSError]
    through as it is, which is no [ClaudeCodeError], while the line
    generator of [stream_command] raises an [ExecutionError]. *)
Theorem spawn_failure_by_mode `{Platform}
    (h : gmap loc (gmap string string)) (cmd : list string)
    (env : option (gmap string string)) (timeout : option Z)
    (input_data : option string) (cls : exc_class) (text : string)
    (out err : option (list Byte.byte)) :
  issubclass cls OSError = true ->
  subprocess_run (run_command_call h cmd env timeout input_data)
  = RunRaises cls text out err ->
  popen cmd (merged_env h (mk_call cmd env timeout input_data))
    (stdin_of_call (mk_call cmd env timeout input_data))
  = SpawnRaises cls text ->
  (run_command h cmd env timeout input_data).2 = Raise (plain_exc cls text)
  /\ isinstance (plain_exc cls text) ClaudeCodeError = false
  /\ pc (stream_command h (mk_call cmd env timeout input_data) [Next])
     = PCDone (Raised (wrapped text))
  /\ isinstance (wrapped text) ExecutionError = true.
Proof.
  intros Hc Hrun Hp.
  assert (issubclass cls PyException = true
          /\ issubclass cls ExecutionError = false
          /\ issubclass cls SubprocessError = false
          /\ issubclass cls TimeoutExpired = false
          /\ issubclass cls ClaudeCodeError = false) as (H1 & H2 & H3 & H4 & H5)
    by (by destruct cls).
  split_and!; try done.
  - by rewrite (run_command_raises _ _ _ _ _ _ _ _ _ Hrun H4), H3.
  - unfold stream_command. rewrite run_cons, step_next_init. simpl.
    by destruct (start_spawn_fails (mk_call cmd env timeout input_data)
                   h cls text Hp H1 H2) as (-> & _).
Qed.

Lemma spawn_failure_by_mode_witness :
  (@run_command Demo.missing_platform Demo.demo_heap ["claude"] None
     None None).2
  = Raise (plain_exc OSError "[Errno 2] No such file or directory: 'claude'")
  /\ pc (@stream_command Demo.missing_platform Demo.demo_heap
           (mk_call ["claude"] None None None) [Next])
     = PCDone (Raised (wrapped
                         "[Errno 2] No such file or directory: 'claude'")).
Proof.
  split.
  - apply (@spawn_failure_by_mode Demo.missing_platform Demo.demo_heap
             ["claude"] None None None OSError
             "[Errno 2] No such file or directory: 'claude'" None None);
      reflexivity.
  - apply (@spawn_failure_by_mode Demo.missing_platform Demo.demo_heap
             ["claude"] None None None OSError
             "[Errno 2] No such file or directory: 'claude'" None None);
      reflexivity.
Defined.

(** ** Streaming mode without a timeout, and the shape of the chunks *)

Section NoTimer.
Context `{Platform}.
Variable c : call.
Hypothesis Hno : truthy_int (c_timeout c) = false.

Implicit Types (st : state).

Lemma timer_raise_in_try st e : timer (raise_in_try st e) = timer st.
Proof. unfold raise_in_try. by destruct (except_catches _ _). Qed.

Lemma timer_after_loop st : timer (after_loop c st) = timer st.
Proof.
  unfold after_loop. destruct (proc st) as [p|]; [ | done ].
  destruct (p_exit p) as [code|]; [ | done ].
  destruct (code =? 0); [ | rewrite timer_raise_in_try ];
    simpl; by rewrite Hno.
Qed.

Lemma timer_loop st : timer (loop c st) = timer st.
Proof.
  unfold loop. destruct (proc st) as [p|]; [ | done ].
  destruct (readline _ _); try done. apply timer_after_loop.
Qed.

Lemma timer_start st : timer (start c st) = timer st.
Proof.
  unfold start. destruct (popen _ _ _).
  - rewrite timer_loop. simpl. by rewrite Hno.
  - by rewrite timer_raise_in_try.
Qed.

Lemma timer_resume st : timer (resume c st) = timer st.
Proof.
  unfold resume.
  destruct (pc st); try done; [ apply timer_loop | apply timer_after_loop ].
Qed.

Lemma no_timer_step ev st :
  timer st = None ->
  timer (step c ev st) = None /\ (ev = Timer -> step c ev st = st).
Proof.
  intros Ht. destruct ev; unfold step.
  - split; [ | done ].
    destruct (pc st); try done; by rewrite ?timer_start, ?timer_loop.
  - split; [ | done ].
    by destruct (pc st).
  - split; [ | done ]. by rewrite timer_resume.
  - by rewrite Ht.
Qed.

Lemma no_timer_run evs : forall st,
  timer st = None ->
  timer (run c evs st) = None
  /\ run c evs st = run c (without_timer evs) st.
Proof.
  induction evs as [|ev evs IH]; intros st Ht; [ done | ].
  destruct (no_timer_step ev st Ht) as [Ht' Hid].
  rewrite run_cons. destruct (IH _ Ht') as [IH1 IH2].
  split; [ done | ].
  destruct ev; simpl; try (by rewrite IH2).
  rewrite (Hid eq_refl). apply IH. done.
Qed.

End NoTimer.

Section Chunks.

(** No line of a text keeps a newline once its end is stripped. *)
Lemma text_lines_clean s :
  Forall (fun l => contains newline (rstrip_newline l) = false)
    (text_lines s).
Proof.
  induction s as [|ch s IH]; simpl; [ done | ].
  destruct (is_newline ch) eqn:E.
  - constructor; [ | done ].
    unfold rstrip_newline. simpl. by rewrite E.
  - destruct (text_lines s) as [|l ls].
    + constructor; [ | done ]. unfold rstrip_newline. simpl.
      rewrite E. simpl. unfold is_newline in E. by rewrite E.
    + inversion IH as [|? ? Hl Hls]; subst. constructor; [ | done ].
      unfold rstrip_newline in *. simpl. rewrite E, andb_false_r. simpl.
      unfold is_newline in E. by rewrite E.
Qed.

End Chunks.

(** X24. A call without a timeout, or with the timeout [0], sets no timer:
    under every schedule the timer events change nothing, so the child is
    never killed for taking too long. *)
Theorem stream_command_without_timeout `{Platform}
    (h : gmap loc (gmap string string)) (c : call) (evs : list event) :
  truthy_int (c_timeout c) = false ->
  timer (stream_command h c evs) = None
  /\ stream_command h c evs = stream_command h c (without_timer evs).
Proof. intros Hno. by apply no_timer_run. Qed.

Lemma stream_command_without_timeout_witness :
  let st := @stream_command Demo.demo_platform Demo.demo_heap
              (mk_call ["hang"] None (Some 0) None)
              [Next; Timer; Child; Timer] in
  timer st = None /\ pc st = PCReading /\ alive st = true.
Proof.
  destruct (@stream_command_without_timeout Demo.demo_platform
              Demo.demo_heap (mk_call ["hang"] None (Some 0) None)
              [Next; Timer; Child; Timer] eq_refl) as [Ht ->].
  vm_compute. by split_and!.
Defined.

(** X25. Under every schedule the chunks handed to the consumer are the
    lines of the text the child has written so far, up to the point the
    reader has reached, in the order written and each without its
    newline: no chunk holds a newline, and nothing is yielded without a
    process. *)
Theorem stream_command_chunks `{Platform}
    (h : gmap loc (gmap string string)) (c : call) (evs : list event) :
  let st := stream_command h c evs in
  (forall p, proc st = Some p ->
     exists consumed,
       yielded st = map rstrip_newline (text_lines consumed)
       /\ p_wrote_out p = consumed +:+ p_stdout p)
  /\ (proc st = None -> yielded st = [])
  /\ Forall (fun chunk => contains newline chunk = false) (yielded st).
Proof.
  intros st. subst st.
  destruct (stream_command_inv h c evs) as (_ & [[consumed [Hy Ha]] _] & _).
  split_and!.
  - intros p Ep. rewrite Ep in Ha. destruct Ha as [Hw _]. eauto.
  - intros Ep. rewrite Ep in Ha. by rewrite Hy, Ha.
  - rewrite Hy. apply Forall_map. apply text_lines_clean.
Qed.

(** ** [Conversation.stream_json] and [ClaudeCode.stream_prompt] *)

Section JsonFresh.
Context `{Platform}.
Variable h : gmap loc (gmap string string).
Variable c : call.

Implicit Types (js : jstate).

Lemma settle_0_fresh js :
  pc (inner js) <> PCStart ->
  (forall line, pc (inner js) = PCYield line -> is_blank line = false) ->
  jfresh (jyielded js) (settle 0 c js).
Proof.
  intros Hs Hb. unfold jfresh. simpl.
  destruct (pc (inner js)) as [| | |line|[|e|]] eqn:Epc; try done;
    try (right; simpl; by split_and!).
  rewrite (Hb line eq_refl). destruct (json_loads line) as [v|d]; simpl.
  - left. by exists v.
  - right. by split_and!.
Qed.

Lemma settle_fresh fuel : forall js,
  frame_inv h c (inner js) -> stream_inv (inner js) ->
  pc (inner js) <> PCStart ->
  (forall line, pc (inner js) = PCYield line ->
     (String.length (pending (inner js)) < fuel)%nat) ->
  jfresh (jyielded js) (settle fuel c js).
Proof.
  induction fuel as [|fuel IH]; intros js Hf Hs Hn Hl.
  - apply settle_0_fresh; [ done | ]. intros line E. specialize (Hl line E). lia.
  - rewrite settle_S. destruct (pc (inner js)) as [| | |line|r] eqn:Epc;
      try (apply settle_0_fresh; [ congruence | ]; intros line' E; congruence).
    destruct (is_blank line) eqn:Eb;
      [ | apply settle_0_fresh; [ congruence | ]; intros line' E; congruence ].
    destruct Hs as [Ha Hr].
    destruct (fresh_next c h (inner js) Hf Hr) as [Hfr Hdec]; [ eauto | ].
    apply (IH (mk_jstate (step c Next (inner js)) (jpc js) (jyielded js)));
      simpl.
    + by apply frame_inv_step.
    + by apply (stream_inv_step c h).
    + destruct Hfr as [(chunk & E & _)|(_ & Hne & _)]; [ congruence | done ].
    + intros line' E. destruct (Hdec line' E) as [_ Hlt].
      specialize (Hl line eq_refl). lia.
Qed.

Lemma jstep_next_fresh js :
  frame_inv h c (inner js) -> stream_inv (inner js) -> json_inv js ->
  jpc js = JStart \/ (exists v, jpc js = JYield v) ->
  jfresh (jyielded js) (jstep c Next js).
Proof.
  intros Hf Hs (r & Hd & Hl) Hj.
  assert (pc (inner js) = PCStart \/ exists line, pc (inner js) = PCYield line)
    as Hpc.
  { destruct Hj as [E|[v E]]; rewrite E in Hl; simpl in Hl.
    - left. tauto.
    - right. destruct Hl as (_ & line & ? & _). eauto. }
  assert (jstep c Next js = pull c js) as ->
    by (unfold jstep; by destruct Hj as [->|[v ->]]).
  unfold pull. destruct Hs as [Ha Hr].
  destruct (fresh_next c h (inner js) Hf Hr Hpc) as [Hfr _].
  apply (settle_fresh _
           (mk_jstate (step c Next (inner js)) (jpc js) (jyielded js)));
    simpl.
  - by apply frame_inv_step.
  - by apply (stream_inv_step c h).
  - destruct Hfr as [(chunk & E & _)|(_ & Hne & _)]; [ congruence | done ].
  - intros. lia.
Qed.

Lemma jstep_world_fresh ev js :
  ev = Child \/ ev = Timer ->
  frame_inv h c (inner js) -> stream_inv (inner js) -> json_inv js ->
  jpc js = JBlocked ->
  jfresh (jyielded js) (jstep c ev js).
Proof.
  intros Hev Hf Hs (r & Hd & Hl) Ej. rewrite Ej in Hl. simpl in Hl.
  destruct Hl as [Epc _]. destruct Hs as [Ha Hr].
  pose proof (fresh_world c (inner js) ev Hev Hr Epc) as Hfr.
  assert (jstep c ev js
          = settle (S (String.length (pending (step c ev (inner js))))) c
              (mk_jstate (step c ev (inner js)) JBlocked (jyielded js)))
    as -> by (unfold jstep; destruct Hev as [-> | ->]; by rewrite Ej).
  apply (settle_fresh _
           (mk_jstate (step c ev (inner js)) JBlocked (jyielded js)));
    simpl.
  - by apply frame_inv_step.
  - by apply (stream_inv_step c h).
  - destruct Hfr as [(chunk & E & _)|(_ & Hne & _)]; [ congruence | done ].
  - intros. lia.
Qed.

Lemma jstep_world_idle ev js :
  ev = Child \/ ev = Timer -> jpc js <> JBlocked ->
  jpc (jstep c ev js) = jpc js /\ jyielded (jstep c ev js) = jyielded js.
Proof.
  intros Hev Hj. destruct Hev as [-> | ->]; unfold jstep;
    by destruct (jpc js).
Qed.

Lemma jstep_next_waits js :
  jpc js = JBlocked \/ (exists r, jpc js = JDone r) -> jstep c Next js = js.
Proof. intros [E|[r E]]; unfold jstep; by rewrite E. Qed.

Lemma jstep_start_world ev js :
  ev = Child \/ ev = Timer ->
  frame_inv h c (inner js) -> json_inv js -> jpc js = JStart ->
  jstep c ev js = js.
Proof.
  intros Hev [Hs _] (r & _ & Hl) Ej. rewrite Ej in Hl. destruct Hl as [Epc _].
  destruct js as [i p ys]. simpl in *. subst p. rewrite (Hs Epc).
  by destruct Hev as [-> | ->].
Qed.

Lemma jgood_jstep ev js :
  frame_inv h c (inner js) /\ stream_inv (inner js) /\ json_inv js ->
  frame_inv h c (inner (jstep c ev js)) /\ stream_inv (inner (jstep c ev js))
  /\ json_inv (jstep c ev js).
Proof.
  intros (Hf & Hs & Hj).
  destruct (inner_inv_jstep h c ev js (conj Hf Hs)) as [Hf' Hs'].
  split_and!; try done. by apply (json_inv_jstep h c).
Qed.

End JsonFresh.

Section JsonConv.
Context `{Platform}.
Variable h : gmap loc (gmap string string).
Variable self : Conversation.
Variable prompt : string.

Local Abbreviation c := (stream_call self prompt).
Local Abbreviation jgood js :=
  (frame_inv h c (inner js) /\ stream_inv (inner js) /\ json_inv js).

Implicit Types (cs : jcstate) (js : jstate).

Lemma relay_json_inner cs : jcinner (relay_json cs) = jcinner cs.
Proof. unfold relay_json. by destruct (jpc (jcinner cs)) as [| | |[]]. Qed.

(** The loop body after the decoding generator moved. *)
Lemma relay_json_relays cs ys :
  jfresh ys (jcinner cs) -> jcyielded cs = ys ->
  jcself cs = self -> jccall cs = Some c ->
  jrelays self prompt (relay_json cs)
  /\ jcpc (relay_json cs) = jview (jpc (jcinner cs)).
Proof.
  intros Hf Hy Hs Hc. unfold jrelays. rewrite relay_json_inner.
  destruct Hf as [(v & Epc & Ey)|(Ey & Hns & Hny)].
  - unfold relay_json. rewrite Epc. simpl. rewrite ?Epc.
    split_and!; try done; [ congruence | by left ].
  - unfold relay_json. destruct (jpc (jcinner cs)) as [| |v|[|e|]] eqn:Epc;
      simpl; rewrite ?Epc; try done;
      try (split_and!; try done; try congruence; by left).
Qed.

(** The first request. *)
Lemma stream_json_first cs :
  jcpc cs = JCStart ->
  stream_json_step prompt Next cs
  = match json_refusal (jcself cs) prompt with
    | Some e =>
        mk_jcstate (jcself cs) (jccall cs) (jcinner cs) (JCDone (JRaised e))
          (jcyielded cs)
    | None =>
        relay_json
          (mk_jcstate (jcself cs) (Some (stream_call (jcself cs) prompt))
             (jstep (stream_call (jcself cs) prompt) Next (jcinner cs))
             (jcpc cs) (jcyielded cs))
    end.
Proof.
  intros E. unfold stream_json_step, json_refusal. rewrite E.
  by destruct (output_format (jcself cs)).
Qed.

Lemma jview_start p : JCStart = jview p -> p = JStart.
Proof. by destruct p. Qed.

Lemma jview_blocked p : JCBlocked = jview p -> p = JBlocked.
Proof. by destruct p. Qed.

Lemma jview_yield p v : JCYield v = jview p -> p = JYield v.
Proof. destruct p; simpl; congruence. Qed.

Lemma jview_done p r : JCDone r = jview p -> p = JDone r.
Proof. destruct p; simpl; congruence. Qed.

Lemma jrelays_init : jrelays self prompt (jcinit h self).
Proof. unfold jrelays. simpl. split_and!; try done. by left. Qed.

Lemma jgood_init : jgood (jinit h).
Proof.
  split_and!; [ apply frame_inv_init | apply stream_inv_init
              | apply json_inv_init ].
Qed.

(** The events of the world on a generator that does not wait. *)
Lemma jrelays_world ev cs :
  ev = Child \/ ev = Timer ->
  jrelays self prompt cs ->
  jcpc cs <> JCBlocked -> jcpc cs <> JCStart ->
  jccall cs = Some c ->
  jrelays self prompt
    (mk_jcstate (jcself cs) (jccall cs) (jstep c ev (jcinner cs)) (jcpc cs)
       (jcyielded cs)).
Proof.
  intros Hev (Hy & Hs & Hn & Hc & Hv) Hb Hst Hcall.
  assert (jpc (jcinner cs) <> JBlocked) as Hidle.
  { destruct Hv as [Hv|[[_ Hv]|(e & _ & Hv & _)]]; [ | done | congruence ].
    intros E. rewrite E in Hv. done. }
  destruct (jstep_world_idle c ev (jcinner cs) Hev Hidle) as [Ep Ey].
  unfold jrelays. simpl. rewrite Ep, Ey. by split_and!.
Qed.

Lemma jrelays_step ev cs :
  jrelays self prompt cs -> jgood (jcinner cs) ->
  jrelays self prompt (stream_json_step prompt ev cs)
  /\ jgood (jcinner (stream_json_step prompt ev cs)).
Proof.
  intros Hrel0 Hg. pose proof Hrel0 as (Hy & Hs & Hn & Hc & Hv).
  pose proof Hg as (Hf & Hi & Hj).
  pose proof (fun ev' => jgood_jstep h c ev' (jcinner cs) Hg) as Hstep.
  destruct ev.
  - (* Next *)
    destruct (jcpc cs) as [| |v|r] eqn:Ecpc;
      try (unfold stream_json_step; by rewrite Ecpc).
    + (* first request *)
      destruct Hv as [Hv|[[? _]|(e' & ? & ? & ?)]]; try done.
      apply jview_start in Hv.
      rewrite (stream_json_first cs Ecpc). simpl in Hs. rewrite Hs.
      destruct (json_refusal self prompt) as [e|] eqn:Ev.
      * simpl. split; [ | done ].
        unfold jrelays. simpl. split_and!; try done. right. right. eauto.
      * pose proof (jstep_next_fresh h c (jcinner cs) Hf Hi Hj
                      (or_introl Hv)) as Hq.
        match goal with |- context [relay_json ?s] => set (cs0 := s) end.
        destruct (relay_json_relays cs0 (jyielded (jcinner cs)) Hq Hy
                    eq_refl eq_refl) as [Hrel _].
        rewrite relay_json_inner. split; [ done | apply Hstep ].
    + (* at a yield *)
      destruct Hv as [Hv|[[? _]|(e' & ? & ? & ?)]]; try done.
      apply jview_yield in Hv.
      unfold stream_json_step. rewrite Ecpc.
      rewrite Hc by (by rewrite Hv).
      pose proof (jstep_next_fresh h c (jcinner cs) Hf Hi Hj
                    (or_intror (ex_intro _ v Hv))) as Hq.
      match goal with |- context [relay_json ?s] => set (cs0 := s) end.
      destruct (relay_json_relays cs0 (jyielded (jcinner cs)) Hq Hy)
        as [Hrel _]; [ subst cs0; simpl; by rewrite Hs | done | ].
      rewrite relay_json_inner. split; [ done | apply Hstep ].
  - (* Close *)
    unfold stream_json_step.
    destruct (jcpc cs) as [| |v|r] eqn:Ecpc; try done.
    + split; [ | done ]. unfold jrelays. simpl. split_and!; try done.
      right. left. split; [ done | ].
      destruct Hv as [Hv|[[? _]|(e' & ? & ? & ?)]]; try done.
      apply jview_start in Hv. by rewrite Hv.
    + split; [ | done ]. unfold jrelays. simpl. split_and!; try done.
      right. left. split; [ done | ].
      destruct Hv as [Hv|[[? _]|(e' & ? & ? & ?)]]; try done.
      apply jview_yield in Hv. by rewrite Hv.
  - (* Child *)
    unfold stream_json_step.
    destruct (jccall cs) as [c'|] eqn:Ecall; [ | done ].
    assert (jpc (jcinner cs) <> JStart) as Hne
      by (intros E; by specialize (Hn E)).
    pose proof (Hc Hne) as [= ->].
    destruct (jcpc cs) as [| |v|r] eqn:Ecpc.
    + exfalso. destruct Hv as [Hv|[[? _]|(e' & ? & ? & ?)]]; try done.
      by apply jview_start in Hv.
    + destruct Hv as [Hv|[[? _]|(e' & ? & ? & ?)]]; try done.
      apply jview_blocked in Hv.
      pose proof (jstep_world_fresh h c Child (jcinner cs)
                    (or_introl eq_refl) Hf Hi Hj Hv) as Hq.
      match goal with |- context [relay_json ?s] => set (cs0 := s) end.
      destruct (relay_json_relays cs0 (jyielded (jcinner cs)) Hq Hy)
        as [Hrel _]; [ subst cs0; simpl; by rewrite Hs | done | ].
      rewrite relay_json_inner. split; [ done | apply Hstep ].
    + cbv beta iota zeta. split; [ | apply Hstep ].
      rewrite <- Ecpc, <- Ecall.
      apply (jrelays_world Child cs); auto; congruence.
    + cbv beta iota zeta. split; [ | apply Hstep ].
      rewrite <- Ecpc, <- Ecall.
      apply (jrelays_world Child cs); auto; congruence.
  - (* Timer *)
    unfold stream_json_step.
    destruct (jccall cs) as [c'|] eqn:Ecall; [ | done ].
    assert (jpc (jcinner cs) <> JStart) as Hne
      by (intros E; by specialize (Hn E)).
    pose proof (Hc Hne) as [= ->].
    destruct (jcpc cs) as [| |v|r] eqn:Ecpc.
    + exfalso. destruct Hv as [Hv|[[? _]|(e' & ? & ? & ?)]]; try done.
      by apply jview_start in Hv.
    + destruct Hv as [Hv|[[? _]|(e' & ? & ? & ?)]]; try done.
      apply jview_blocked in Hv.
      pose proof (jstep_world_fresh h c Timer (jcinner cs)
                    (or_intror eq_refl) Hf Hi Hj Hv) as Hq.
      match goal with |- context [relay_json ?s] => set (cs0 := s) end.
      destruct (relay_json_relays cs0 (jyielded (jcinner cs)) Hq Hy)
        as [Hrel _]; [ subst cs0; simpl; by rewrite Hs | done | ].
      rewrite relay_json_inner. split; [ done | apply Hstep ].
    + cbv beta iota zeta. split; [ | apply Hstep ].
      rewrite <- Ecpc, <- Ecall.
      apply (jrelays_world Timer cs); auto; congruence.
    + cbv beta iota zeta. split; [ | apply Hstep ].
      rewrite <- Ecpc, <- Ecall.
      apply (jrelays_world Timer cs); auto; congruence.
Qed.

Lemma jrelays_run evs : forall cs,
  jrelays self prompt cs -> jgood (jcinner cs) ->
  let cs' := fold_left (fun cs ev => stream_json_step prompt ev cs) evs cs in
  jrelays self prompt cs' /\ jgood (jcinner cs').
Proof.
  induction evs as [|ev evs IH]; intros cs Hrel Hg; [ done | ].
  simpl. destruct (jrelays_step ev cs Hrel Hg) as [? ?]. by apply IH.
Qed.

Lemma stream_json_relays evs :
  jrelays self prompt (stream_json h self prompt evs)
  /\ jgood (jcinner (stream_json h self prompt evs)).
Proof. apply jrelays_run; [ apply jrelays_init | apply jgood_init ]. Qed.

(** Without a [close] the generator shows the decoding generator, which
    gets every event. *)
Lemma jshows_step ev cs :
  json_refusal self prompt = None ->
  jrelays self prompt cs -> jcpc cs = jview (jpc (jcinner cs)) ->
  jgood (jcinner cs) -> ev <> Close ->
  jcinner (stream_json_step prompt ev cs) = jstep c ev (jcinner cs)
  /\ jcpc (stream_json_step prompt ev cs)
     = jview (jpc (jstep c ev (jcinner cs))).
Proof.
  intros Hval (Hy & Hs & Hn & Hc & _) Hv (Hf & Hi & Hj) Hev.
  assert (forall w, w = Child \/ w = Timer ->
            jcinner (stream_json_step prompt w cs) = jstep c w (jcinner cs)
            /\ jcpc (stream_json_step prompt w cs)
               = jview (jpc (jstep c w (jcinner cs)))) as Hworld.
  { intros w Hw.
    replace (stream_json_step prompt w cs)
      with (match jccall cs with
            | Some c' =>
                let cs' := mk_jcstate (jcself cs) (jccall cs)
                             (jstep c' w (jcinner cs)) (jcpc cs)
                             (jcyielded cs) in
                match jcpc cs with
                | JCBlocked => relay_json cs'
                | _ => cs'
                end
            | None => cs
            end) by (by destruct Hw as [-> | ->]).
    destruct (jpc (jcinner cs)) as [| |v|r] eqn:Epc.
    - rewrite (Hn eq_refl).
      by rewrite (jstep_start_world h c w (jcinner cs) Hw Hf Hj Epc), Epc.
    - rewrite Hc by done. cbv zeta. simpl in Hv. rewrite Hv.
      rewrite relay_json_inner. split; [ done | ].
      pose proof (jstep_world_fresh h c w (jcinner cs) Hw Hf Hi Hj Epc) as Hq.
      match goal with |- context [relay_json ?s] => set (cs0 := s) end.
      destruct (relay_json_relays cs0 (jyielded (jcinner cs)) Hq Hy)
        as [_ E]; try done.
      subst cs0. simpl. by rewrite Hs, Hv.
    - rewrite Hc by done. cbv zeta. simpl in Hv. rewrite Hv.
      cbv beta iota. split; [ done | ].
      assert (jpc (jcinner cs) <> JBlocked) as Hidle by (by rewrite Epc).
      destruct (jstep_world_idle c w (jcinner cs) Hw Hidle) as [-> _].
      by rewrite Epc.
    - rewrite Hc by done. cbv zeta. simpl in Hv. rewrite Hv.
      cbv beta iota. split; [ done | ].
      assert (jpc (jcinner cs) <> JBlocked) as Hidle by (by rewrite Epc).
      destruct (jstep_world_idle c w (jcinner cs) Hw Hidle) as [-> _].
      by rewrite Epc. }
  destruct ev; [ | done | by apply Hworld; left | by apply Hworld; right ].
  destruct (jpc (jcinner cs)) as [| |v|r] eqn:Epc; simpl in Hv.
  - rewrite (stream_json_first cs Hv). rewrite Hv in Hs. simpl in Hs.
    rewrite Hs, Hval. rewrite relay_json_inner. split; [ done | ].
    pose proof (jstep_next_fresh h c (jcinner cs) Hf Hi Hj (or_introl Epc))
      as Hq.
    match goal with |- context [relay_json ?s] => set (cs0 := s) end.
    by destruct (relay_json_relays cs0 (jyielded (jcinner cs)) Hq Hy)
      as [_ E].
  - unfold stream_json_step. rewrite Hv.
    by rewrite (jstep_next_waits c _ (or_introl Epc)), Epc.
  - unfold stream_json_step. rewrite Hv.
    rewrite Hc by done. rewrite relay_json_inner. split; [ done | ].
    pose proof (jstep_next_fresh h c (jcinner cs) Hf Hi Hj
                  (or_intror (ex_intro _ v Epc))) as Hq.
    match goal with |- context [relay_json ?s] => set (cs0 := s) end.
    destruct (relay_json_relays cs0 (jyielded (jcinner cs)) Hq Hy)
      as [_ E]; try done.
    subst cs0. simpl. by rewrite Hs, Hv.
  - unfold stream_json_step. rewrite Hv.
    by rewrite (jstep_next_waits c _ (or_intror (ex_intro _ r Epc))), Epc.
Qed.

Lemma jshows_run evs : forall cs,
  json_refusal self prompt = None ->
  jrelays self prompt cs -> jcpc cs = jview (jpc (jcinner cs)) ->
  jgood (jcinner cs) -> no_close evs = true ->
  let cs' := fold_left (fun cs ev => stream_json_step prompt ev cs) evs cs in
  jcinner cs' = jrun c evs (jcinner cs)
  /\ jcpc cs' = jview (jpc (jcinner cs')).
Proof.
  induction evs as [|ev evs IH]; intros cs Hval Hrel Hv Hg Hnc; [ done | ].
  simpl in Hnc. apply andb_true_iff in Hnc as [Hev Hnc].
  assert (ev <> Close) as Hne by (by intros ->).
  destruct (jshows_step ev cs Hval Hrel Hv Hg Hne) as [E1 E2].
  destruct (jrelays_step ev cs Hrel Hg) as (Hrel' & Hg').
  cbv zeta.
  change (jrun c (ev :: evs) (jcinner cs))
    with (jrun c evs (jstep c ev (jcinner cs))).
  rewrite <- E1.
  change (fold_left (fun cs ev => stream_json_step prompt ev cs) (ev :: evs) cs)
    with (fold_left (fun cs ev => stream_json_step prompt ev cs) evs
            (stream_json_step prompt ev cs)).
  apply IH; try done. by rewrite E2, E1.
Qed.

(** A prompt that is refused: nothing is started. *)
Lemma jrefused_step e ev cs :
  json_refusal self prompt = Some e ->
  jcinner cs = jinit h -> jcself cs = self -> jccall cs = None ->
  jcyielded cs = [] ->
  jcpc cs = JCStart \/ jcpc cs = JCDone JClosed
  \/ jcpc cs = JCDone (JRaised e) ->
  let cs' := stream_json_step prompt ev cs in
  jcinner cs' = jinit h /\ jcself cs' = self /\ jccall cs' = None
  /\ jcyielded cs' = []
  /\ (jcpc cs' = JCStart \/ jcpc cs' = JCDone JClosed
      \/ jcpc cs' = JCDone (JRaised e)).
Proof.
  intros Hval Hi Hs Hc Hy Hpc. destruct ev.
  - destruct Hpc as [E | [E | E]].
    + cbv zeta. rewrite (stream_json_first cs E), Hs, Hval. simpl.
      split_and!; auto.
    + unfold stream_json_step. rewrite E. split_and!; auto.
    + unfold stream_json_step. rewrite E. split_and!; auto.
  - unfold stream_json_step.
    destruct Hpc as [E | [E | E]]; rewrite E; simpl; split_and!; auto.
  - unfold stream_json_step. rewrite Hc. split_and!; auto.
  - unfold stream_json_step. rewrite Hc. split_and!; auto.
Qed.

Lemma jconv_done_stable ev cs r :
  jcpc cs = JCDone r -> jcpc (stream_json_step prompt ev cs) = JCDone r.
Proof.
  intros E. unfold stream_json_step.
  destruct ev; rewrite ?E; try done; destruct (jccall cs); by rewrite ?E.
Qed.

Lemma jconv_done_run evs : forall cs r,
  jcpc cs = JCDone r ->
  jcpc (fold_left (fun cs ev => stream_json_step prompt ev cs) evs cs)
  = JCDone r.
Proof.
  induction evs as [|ev evs IH]; intros cs r E; [ done | ].
  simpl. apply IH. by apply jconv_done_stable.
Qed.

Lemma jrefused_run e evs : forall cs,
  json_refusal self prompt = Some e ->
  jcinner cs = jinit h -> jcself cs = self -> jccall cs = None ->
  jcyielded cs = [] ->
  jcpc cs = JCStart \/ jcpc cs = JCDone JClosed
  \/ jcpc cs = JCDone (JRaised e) ->
  let cs' := fold_left (fun cs ev => stream_json_step prompt ev cs) evs cs in
  jcinner cs' = jinit h /\ jcself cs' = self /\ jcyielded cs' = [].
Proof.
  induction evs as [|ev evs IH]; intros cs Hval Hi Hs Hc Hy Hpc; [ done | ].
  destruct (jrefused_step e ev cs Hval Hi Hs Hc Hy Hpc)
    as (? & ? & ? & ? & ?).
  simpl. by apply IH.
Qed.

Lemma json_refusal_class e :
  json_refusal self prompt = Some e -> exc_cls e = ValidationError.
Proof.
  unfold json_refusal.
  destruct (output_format self); try (by intros [= <-]).
  apply validate_prompt_class.
Qed.

End JsonConv.
(** X26. [Conversation.stream_json] hands on what [stream_json_command]
    yields.  For a conversation in the format [STREAM_JSON], a prompt
    that passes the checks and a consumer that does not close the
    generator, the decoding generator inside is [stream_json_command] on
    the command, environment, timeout and prompt of the conversation
    under the same schedule; the values are its values, the generator
    ends as it ends, and one turn is counted when it returned, none
    otherwise. *)
Theorem stream_json_relays_stream_json_command `{Platform}
    (h : gmap loc (gmap string string)) (self : Conversation)
    (prompt : string) (evs : list event) :
  output_format self = STREAM_JSON ->
  refused self prompt = false ->
  no_close evs = true ->
  let cs := stream_json h self prompt evs in
  let js := stream_json_command h (stream_call self prompt) evs in
  jcinner cs = js
  /\ jcyielded cs = jyielded js
  /\ jcpc cs = jview (jpc js)
  /\ jcself cs = jcounted self (jview (jpc js)).
Proof.
  intros Hf Hr Hnc cs js. subst cs js.
  assert (json_refusal self prompt = None) as Hval.
  { unfold json_refusal. rewrite Hf.
    destruct (validate_prompt self prompt) eqn:E; [ | done ].
    assert (refused self prompt = true)
      by (apply validate_prompt_refused; eauto). congruence. }
  destruct (stream_json_relays h self prompt evs) as ((Hy & Hs & _) & _).
  destruct (jshows_run h self prompt evs (jcinit h self) Hval
              (jrelays_init h self prompt) eq_refl
              (jgood_init h self prompt) Hnc) as [E1 E2].
  fold (stream_json h self prompt evs) in E1, E2. simpl in E1.
  fold (stream_json_command h (stream_call self prompt) evs) in E1.
  rewrite <- E1. split_and!; try done. by rewrite Hs, E2.
Qed.

Lemma stream_json_relays_stream_json_command_witness :
  let cs := @stream_json Demo.answering_platform Demo.keyed_heap
              Demo.json_turns "ping" (drain 2 2) in
  jcyielded cs = [JObject [("a", JNumber 1)]]
  /\ jcpc cs = JCDone JReturned
  /\ turn_count (jcself cs) = 1.
Proof.
  destruct (@stream_json_relays_stream_json_command Demo.answering_platform
              Demo.keyed_heap Demo.json_turns "ping" (drain 2 2)
              eq_refl eq_refl eq_refl) as (_ & Hy & Hp & Hs).
  split_and!.
  - rewrite Hy. vm_compute. reflexivity.
  - rewrite Hp. vm_compute. reflexivity.
  - rewrite Hs. vm_compute. reflexivity.
Defined.

(** X27. [Conversation.stream_json] counts a turn exactly when its
    generator returned, whatever the schedule.  When the turn is counted
    the command has exited with [0] and the consumer has received the
    value of every line it wrote that is not blank. *)
Theorem stream_json_counts_turn `{Platform}
    (h : gmap loc (gmap string string)) (self : Conversation)
    (prompt : string) (evs : list event) :
  let cs := stream_json h self prompt evs in
  jcself cs = jcounted self (jcpc cs)
  /\ jcyielded cs = jyielded (jcinner cs)
  /\ (jcpc cs = JCDone JReturned ->
      exists p, proc (inner (jcinner cs)) = Some p /\ p_exit p = Some 0
                /\ decode_lines
                     (map rstrip_newline (text_lines (p_wrote_out p)))
                   = (jcyielded cs, None)).
Proof.
  intros cs. subst cs.
  destruct (stream_json_relays h self prompt evs)
    as ((Hy & Hs & _ & _ & Hv)
        & _ & [[consumed [Hc Ha]] Hr] & (r & Hd & Hl)).
  split_and!; try done. intros E. rewrite E in Hv.
  destruct Hv as [Hv|[[? _]|(e' & ? & _)]]; try done.
  apply jview_done in Hv. rewrite Hv in Hl. destruct Hl as [-> Epc].
  unfold result_inv in Hr. rewrite Epc in Hr.
  destruct Hr as (p & Ep & Hx & Hout). exists p. rewrite Ep in Ha.
  destruct Ha as [Hw _]. rewrite Hout, str_app_nil_r in Hw.
  split_and!; try done. by rewrite Hy, Hw, <- Hc.
Qed.

Lemma stream_json_counts_turn_witness :
  let cs := @stream_json Demo.answering_platform Demo.keyed_heap
              Demo.json_turns "ping" [Next; Child; Close; Child; Next] in
  jcpc cs = JCDone JClosed /\ turn_count (jcself cs) = 0
  /\ jcyielded cs = [JObject [("a", JNumber 1)]].
Proof.
  destruct (@stream_json_counts_turn Demo.answering_platform
              Demo.keyed_heap Demo.json_turns "ping"
              [Next; Child; Close; Child; Next]) as (Hs & _ & _).
  split_and!.
  - vm_compute. reflexivity.
  - rewrite Hs. vm_compute. reflexivity.
  - vm_compute. reflexivity.
Defined.

(** X28. [Conversation.stream_json] looks at the output format first: on
    a conversation that is not in the format [STREAM_JSON] the first
    request raises the [ValidationError] of the format, whatever the
    prompt.  That prompt, or one that is refused, starts no process,
    leaves the conversation as it was and yields nothing, whatever the
    schedule; making the generator raises nothing. *)
Theorem stream_json_refuses `{Platform}
    (h : gmap loc (gmap string string)) (self : Conversation)
    (prompt : string) :
  output_format self <> STREAM_JSON \/ refused self prompt = true ->
  jcpc (stream_json h self prompt []) = JCStart
  /\ exists e,
       exc_cls e = ValidationError
       /\ (output_format self <> STREAM_JSON ->
           e = plain_exc ValidationError
                 "Output format must be STREAM_JSON for stream_json")
       /\ forall evs,
            jcpc (stream_json h self prompt (Next :: evs))
            = JCDone (JRaised e)
            /\ jcinner (stream_json h self prompt evs) = jinit h
            /\ jcself (stream_json h self prompt evs) = self
            /\ jcyielded (stream_json h self prompt evs) = [].
Proof.
  intros Hor. split; [ done | ].
  assert (exists e, json_refusal self prompt = Some e
                    /\ (output_format self <> STREAM_JSON ->
                        e = plain_exc ValidationError
                              "Output format must be STREAM_JSON for stream_json"))
    as (e & He & Hfmt).
  { unfold json_refusal. destruct (output_format self) eqn:Ef;
      try (eexists; split; [ reflexivity | done ]).
    destruct Hor as [Hne|Hr]; [ done | ].
    apply validate_prompt_refused in Hr as [e He]. exists e. by split. }
  exists e. split; [ by apply (json_refusal_class self prompt) | ].
  split; [ done | ]. intros evs. split.
  - unfold stream_json.
    change (fold_left (fun cs ev => stream_json_step prompt ev cs)
              (Next :: evs) (jcinit h self))
      with (fold_left (fun cs ev => stream_json_step prompt ev cs) evs
              (stream_json_step prompt Next (jcinit h self))).
    apply jconv_done_run.
    rewrite (stream_json_first prompt (jcinit h self) eq_refl). simpl.
    by rewrite He.
  - apply (jrefused_run h self prompt e evs (jcinit h self)); auto.
Qed.

Lemma stream_json_refuses_witness :
  jcpc (@stream_json Demo.answering_platform Demo.keyed_heap Demo.two_turns
          "  " [Next; Child; Next])
  = JCDone (JRaised (plain_exc ValidationError
                       "Output format must be STREAM_JSON for stream_json"))
  /\ proc (inner (jcinner (@stream_json Demo.answering_platform
                             Demo.keyed_heap Demo.two_turns "  "
                             [Next; Child; Next]))) = None.
Proof.
  destruct (@stream_json_refuses Demo.answering_platform Demo.keyed_heap
              Demo.two_turns "  " (or_intror eq_refl)) as (_ & e & _ & _ & He).
  destruct (He [Next; Child; Next]) as (_ & Hi & _).
  split; [ vm_compute; reflexivity | ]. rewrite Hi. reflexivity.
Defined.

(** X29. [stream_prompt] raises at once only for tool lists that share a
    tool.  Otherwise it returns a generator and nothing has run: the
    generator of [stream_json] for the format [STREAM_JSON], whose check
    of the format then cannot fail, and the generator of [stream] for the
    other formats, both on a new conversation with the settings of the
    client.  A prompt that is refused shows only at the first request,
    as a [ValidationError]. *)
Theorem stream_prompt_lazy `{Platform} `{Interpreter}
    (h : gmap loc (gmap string string)) (self : Client.ClaudeCode)
    (prompt : string) (f : OutputFormat) (uuid : string) :
  let conversation := prompt_conversation self f uuid in
  (shared_tool (Client.allowed_tools self) (Client.disallowed_tools self)
   = true ->
   exists e, Client.stream_prompt h self prompt f uuid = Raise e
             /\ exc_cls e = ValidationError)
  /\ (shared_tool (Client.allowed_tools self) (Client.disallowed_tools self)
      = false ->
      Client.stream_prompt h self prompt f uuid
      = Return (match f with
                | STREAM_JSON => inr (jcinit h conversation)
                | _ => inl (cinit h conversation)
                end)
      /\ (f = STREAM_JSON ->
          json_refusal conversation prompt
          = validate_prompt conversation prompt)
      /\ (refused conversation prompt = true ->
          exists e,
            exc_cls e = ValidationError
            /\ match f with
               | STREAM_JSON =>
                   jcpc (stream_json h conversation prompt [Next])
                   = JCDone (JRaised e)
               | _ =>
                   cpc (stream h conversation prompt [Next])
                   = CDone (Raised e)
               end)).
Proof.
  intros conversation. unfold Client.stream_prompt.
  rewrite start_conversation_plain, conv_init_spec. split.
  - intros ->. by eexists.
  - intros ->. simpl. fold (prompt_conversation self f uuid).
    fold conversation. split_and!.
    + by destruct f.
    + intros ->. reflexivity.
    + intros [e He]%validate_prompt_refused. exists e.
      split; [ by apply validate_prompt_class in He | ].
      destruct f eqn:Ef.
      * unfold stream. simpl. by rewrite He.
      * unfold stream. simpl. by rewrite He.
      * unfold stream_json. cbn [fold_left].
        rewrite (stream_json_first prompt (jcinit h conversation) eq_refl).
        simpl. unfold json_refusal.
        assert (output_format conversation = STREAM_JSON) as ->
          by done.
        by rewrite He.
Qed.

Lemma stream_prompt_lazy_witness :
  @Client.stream_prompt Demo.demo_interpreter Demo.keyed_heap
     Demo.demo_client " " STREAM_JSON "u1"
  = Return (inr (jcinit Demo.keyed_heap
                   (prompt_conversation Demo.demo_client STREAM_JSON "u1")))
  /\ jcpc (@stream_json Demo.answering_platform Demo.keyed_heap
             (prompt_conversation Demo.demo_client STREAM_JSON "u1") " "
             [Next])
     = JCDone (JRaised (plain_exc ValidationError "Prompt cannot be empty")).
Proof.
  destruct (@stream_prompt_lazy Demo.answering_platform
              Demo.demo_interpreter Demo.keyed_heap Demo.demo_client " "
              STREAM_JSON "u1") as (_ & Hok).
  destruct (Hok eq_refl) as (E & _ & _).
  split; [ exact E | vm_compute; reflexivity ].
Defined.

